(** * Matri Dairies ledger: due carry-forward, settlement, daily summary

    A shallow embedding of [app.py]: the [DairyEntry] table, the helper
    [get_previous_dairy_due], the routes [add_dairy_entry], [dairy_entries],
    [dairy_daily_summary] and [clear_dues], the forms with their validators
    and the [before_request] hook [create_tables_if_not_exists].

    Amounts are Python floats in the source ([db.Float] columns, [float(...)]
    of a form field).  The routes are written once, over an interface
    [Number] of the operations the source applies to amounts, and the
    interface is instantiated
    - by [binary64], IEEE 754 double precision as specified by [SpecFloat]
      (what the program runs on), and
    - by [exactZ], integers with exact arithmetic (amounts counted in
      the smallest currency unit). *)

From Stdlib Require Import ZArith List Bool String Lia Permutation Sorted.
From Stdlib Require Import SpecFloat.
Import ListNotations.
Local Open Scope Z_scope.

(** ** Numbers *)

(** The operations of the source on amounts: the literal [0] / [0.0],
    [+], [-], [*], and the comparisons [<], [<=], [==]. *)
Class Number := {
  num : Type;
  n0 : num;
  nadd : num -> num -> num;
  nsub : num -> num -> num;
  nmul : num -> num -> num;
  nltb : num -> num -> bool;
  nleb : num -> num -> bool;
  neqb : num -> num -> bool
}.

(** Python floats: binary64, round to nearest even. *)
Module F64.

Definition prec : Z := 53.
Definition emax : Z := 1024.

Definition add : spec_float -> spec_float -> spec_float := SFadd prec emax.
Definition sub : spec_float -> spec_float -> spec_float := SFsub prec emax.
Definition mul : spec_float -> spec_float -> spec_float := SFmul prec emax.
Definition div : spec_float -> spec_float -> spec_float := SFdiv prec emax.

(** [float(n)] for an integer literal [n]. *)
Definition of_Z (n : Z) : spec_float := binary_normalize prec emax n 0 false.

(** The float literal [n / 10^k], correctly rounded: [dec 1 1] is [0.1]. *)
Definition dec (n : Z) (k : nat) : spec_float :=
  div (of_Z n) (of_Z (10 ^ Z.of_nat k)).

Definition pos_zero : spec_float := S754_zero false.
Definition inf : spec_float := S754_infinity false.
Definition nan : spec_float := S754_nan.

Definition is_finite (x : spec_float) : bool :=
  match x with
  | S754_zero _ | S754_finite _ _ _ => true
  | _ => false
  end.

(** *** The format: canonical floats and their values *)

Definition digits (m : positive) : Z := Z.pos (digits2_pos m).

Definition fexp64 (e : Z) : Z := Z.max (e - 53) (-1074).

Definition canonical (m : positive) (e : Z) : Prop := fexp64 (digits m + e) = e.

(** The result of rounding a positive integer [mz * 2^ez] whose exponent is
    not above the one its magnitude calls for. *)
Definition rounded (m'' : positive) (e'' : Z) : spec_float :=
  if e'' <=? 971 then S754_finite false m'' e'' else S754_infinity false.

(** The value of a positive finite float, in units of [2^-1074]. *)
Definition scaled (m : positive) (e : Z) : Z := Z.pos m * 2 ^ (e + 1074).

(** Well-formed amounts: finite floats in canonical form. *)
Definition finite_amount (x : spec_float) : Prop :=
  valid_binary prec emax x = true /\ is_finite x = true.

(** [int(x)]: the integer part of a float. *)
Definition to_Z (x : spec_float) : Z :=
  match x with
  | S754_finite s m e =>
      let v := if 0 <=? e then Z.pos m * 2 ^ e else Z.pos m / 2 ^ (- e) in
      if s then - v else v
  | _ => 0
  end.

Definition same_float (x y : spec_float) : bool :=
  match x, y with
  | S754_zero s, S754_zero s' => Bool.eqb s s'
  | S754_infinity s, S754_infinity s' => Bool.eqb s s'
  | S754_nan, S754_nan => true
  | S754_finite s m e, S754_finite s' m' e' =>
      Bool.eqb s s' && Pos.eqb m m' && Z.eqb e e'
  | _, _ => false
  end.

(** A whole, non-negative amount below [2^53]: the float of an integer. *)
Definition wholeb (x : spec_float) : bool :=
  (0 <=? to_Z x) && (to_Z x <? 2 ^ 53) && same_float x (of_Z (to_Z x)).

Definition whole (x : spec_float) : Prop := wholeb x = true.

End F64.

Definition binary64 : Number :=
  {| num := spec_float;
     n0 := F64.pos_zero;
     nadd := F64.add;
     nsub := F64.sub;
     nmul := F64.mul;
     nltb := SFltb;
     nleb := SFleb;
     neqb := SFeqb |}.

(** Exact arithmetic on integers. *)
Definition exactZ : Number :=
  {| num := Z;
     n0 := 0;
     nadd := Z.add;
     nsub := Z.sub;
     nmul := Z.mul;
     nltb := Z.ltb;
     nleb := Z.leb;
     neqb := Z.eqb |}.

Section PythonBuiltins.
Context {N : Number}.

(** [min(a, b)]: the first argument unless the second is smaller. *)
Definition py_min (a b : num) : num := if nltb b a then b else a.

(** [sum(xs)]: a left fold from the integer [0]. *)
Definition py_sum (xs : list num) : num := fold_left nadd xs n0.

(** [x or 0.0] for [x] a number or [None]: [None] and zero are falsy. *)
Definition or_zero (x : option num) : num :=
  match x with
  | None => n0
  | Some v => if neqb v n0 then n0 else v
  end.

End PythonBuiltins.

(** ** The table *)

(** [date] is a proleptic Gregorian ordinal ([date.toordinal()]),
    [created_at] a timestamp in microseconds. *)
Module DairyEntry.
Section Row.
Context {N : Number}.

Record t := {
  id : Z;
  date : Z;
  m_name : string;
  item : string;
  weight : num;
  unit : string;
  price_per_unit : num;
  cost : num;
  paid : num;
  due : num;
  created_at : Z
}.

(** The two in-place assignments of the source: [entry.paid = p] and
    [entry.due = d]. *)
Definition set_paid (e : t) (p : num) : t :=
  {| id := id e; date := date e; m_name := m_name e; item := item e;
     weight := weight e; unit := unit e; price_per_unit := price_per_unit e;
     cost := cost e; paid := p; due := due e; created_at := created_at e |}.

Definition set_due (e : t) (d : num) : t :=
  {| id := id e; date := date e; m_name := m_name e; item := item e;
     weight := weight e; unit := unit e; price_per_unit := price_per_unit e;
     cost := cost e; paid := paid e; due := d; created_at := created_at e |}.

End Row.
End DairyEntry.

Abbreviation entry := DairyEntry.t.

Section Queries.
Context {N : Number}.

(** The rows of [dairy_entry] in storage (rowid) order. *)
Definition table := list entry.

(** [ORDER BY key]: a stable insertion sort, ties stay in storage order. *)
Fixpoint insert_by (key : entry -> Z) (e : entry) (l : list entry) : list entry :=
  match l with
  | [] => [e]
  | x :: l' => if key e <? key x then e :: l else x :: insert_by key e l'
  end.

Definition order_by (key : entry -> Z) (l : list entry) : list entry :=
  fold_left (fun acc e => insert_by key e acc) l [].

(** [ORDER BY key DESC]. *)
Definition order_by_desc (key : entry -> Z) (l : list entry) : list entry :=
  order_by (fun e => - key e) l.

(** [.first()] *)
Definition first (l : list entry) : option entry := hd_error l.

(** The primary key: no two rows share an [id]. *)
Definition primary_key (tbl : table) : Prop := NoDup (map DairyEntry.id tbl).

(** The id SQLite gives a new row: one more than the largest in use. *)
Definition next_id (tbl : table) : Z :=
  1 + fold_right Z.max 0 (map DairyEntry.id tbl).

(** The session's flush at [db.session.commit()]: every loaded object is
    written back to the row with its primary key. *)
Definition commit (tbl : table) (objects : list entry) : table :=
  map (fun row =>
         match find (fun o => DairyEntry.id o =? DairyEntry.id row) objects with
         | Some o => o
         | None => row
         end) tbl.

(** [func.sum(...)] with [.scalar()]: NULL when there is no row. *)
Definition db_sum (xs : list num) : option num :=
  match xs with
  | [] => None
  | _ => Some (fold_left nadd xs n0)
  end.

End Queries.

(** ** Requests and responses *)

Inductive request (form : Type) :=
| GET
| POST (data : form).
Arguments GET {form}.
Arguments POST {form} data.

(** The messages the routes flash, with their f-string arguments. *)
Inductive flash_message :=
| EntryAdded
| NoEntriesFound (report_date : Z)
| SummaryGenerated (report_date : Z)
| DuesUpdated (m_name : string).

Definition category (f : flash_message) : string :=
  match f with
  | NoEntriesFound _ => "info"
  | _ => "success"
  end.

(** An uncaught exception ends the request without a commit. *)
Inductive result (A : Type) :=
| Ok (a : A)
| Raise (exc : string).
Arguments Ok {A} a.
Arguments Raise {A} exc.

Section Routes.
Context {N : Number}.

Record report_data := {
  rd_date : Z;
  total_cost_dairy : num;
  total_paid_dairy : num;
  total_cash_income : num;
  profit_loss : num;
  total_dues_today : num
}.

Inductive response :=
| Redirect (endpoint : string)
| RenderIndex (current_view : string) (report : option report_data)
| RenderClearDues (users_with_dues : list (string * num)).

(** What a request leaves behind: the table, the flashed messages and the
    response. *)
Record outcome := {
  db : table;
  flashes : list flash_message;
  resp : response
}.

(** *** Helper functions *)

(** [current_date - timedelta(days=1)]; [date.min] has ordinal 1. *)
Definition previous_day (current_date : Z) : result Z :=
  if current_date <=? 1 then Raise "OverflowError" else Ok (current_date - 1).

Definition get_previous_dairy_due (tbl : table) (current_date : Z)
    (m_name item : string) : result num :=
  match previous_day current_date with
  | Raise exc => Raise exc
  | Ok previous_date =>
      let prev_entry :=
        first (order_by_desc DairyEntry.created_at
                 (filter (fun e => (DairyEntry.date e =? previous_date)
                                   && String.eqb (DairyEntry.m_name e) m_name
                                   && String.eqb (DairyEntry.item e) item) tbl)) in
      Ok (match prev_entry with
          | Some e => DairyEntry.due e
          | None => n0
          end)
  end.

(** *** /add_dairy_entry *)

Record AddDairyEntryForm := {
  f_date : Z;
  f_m_name : string;
  f_item : string;
  f_weight : num;
  f_unit : string;
  f_price_per_unit : num;
  f_paid : num
}.

(** [validate] stands for the WTForms validators of the form, [now] for
    [datetime.utcnow()] at the insert. *)
Definition add_dairy_entry (validate : AddDairyEntryForm -> bool)
    (tbl : table) (req : request AddDairyEntryForm) (now : Z) : result outcome :=
  match req with
  | POST form =>
      if validate form then
        let entry_date := f_date form in
        let m_name := f_m_name form in
        let item := f_item form in
        let weight := f_weight form in
        let unit := f_unit form in
        let price_per_unit := f_price_per_unit form in
        let paid := f_paid form in
        let cost := nmul price_per_unit weight in
        match get_previous_dairy_due tbl entry_date m_name item with
        | Raise exc => Raise exc
        | Ok previous_due =>
            let current_due := nsub (nadd previous_due cost) paid in
            let new_dairy_entry :=
              {| DairyEntry.id := next_id tbl;
                 DairyEntry.date := entry_date;
                 DairyEntry.m_name := m_name;
                 DairyEntry.item := item;
                 DairyEntry.weight := weight;
                 DairyEntry.unit := unit;
                 DairyEntry.price_per_unit := price_per_unit;
                 DairyEntry.cost := cost;
                 DairyEntry.paid := paid;
                 DairyEntry.due := current_due;
                 DairyEntry.created_at := now |} in
            Ok {| db := tbl ++ [new_dairy_entry];
                  flashes := [EntryAdded];
                  resp := Redirect "add_dairy_entry" |}
        end
      else
        Ok {| db := tbl; flashes := []; resp := RenderIndex "add_dairy_entry" None |}
  | GET =>
      Ok {| db := tbl; flashes := []; resp := RenderIndex "add_dairy_entry" None |}
  end.

(** *** /dairy_daily_summary *)

Record DairyDailyReportForm := {
  f_report_date : Z;
  f_total_cash_income : num
}.

Definition pair_dec (p q : string * string) : {p = q} + {p <> q}.
Proof. decide equality; apply string_dec. Defined.

Definition pair_of (e : entry) : string * string :=
  (DairyEntry.m_name e, DairyEntry.item e).

Definition pair_eqb (p q : string * string) : bool :=
  String.eqb (fst p) (fst q) && String.eqb (snd p) (snd q).

(** [func.max(created_at)] over a group. *)
Definition max_created_at (group : list entry) : option Z :=
  fold_right (fun e acc =>
                match acc with
                | None => Some (DairyEntry.created_at e)
                | Some t => Some (Z.max (DairyEntry.created_at e) t)
                end) None group.

(** The subquery: one row [(m_name, item, latest_created_at)] for each
    [(m_name, item)] group of the rows dated [report_date]. *)
Definition unique_dues_query (tbl : table) (report_date : Z)
    : list (string * string * option Z) :=
  let rows := filter (fun e => DairyEntry.date e =? report_date) tbl in
  map (fun p => (fst p, snd p,
                 max_created_at (filter (fun e => pair_eqb (pair_of e) p) rows)))
      (nodup pair_dec (map pair_of rows)).

(** The join condition of the outer query; [created_at == NULL] never
    holds. *)
Definition join_on (e : entry) (g : string * string * option Z) : bool :=
  let '(m, i, latest_created_at) := g in
  String.eqb (DairyEntry.m_name e) m
  && String.eqb (DairyEntry.item e) i
  && match latest_created_at with
     | Some t => DairyEntry.created_at e =? t
     | None => false
     end.

(** The rows of [dairy_entry JOIN unique_dues_query]: the outer query scans
    the whole table. *)
Definition joined_rows (tbl : table) (report_date : Z) : list entry :=
  flat_map (fun e =>
              map (fun _ => e)
                  (filter (join_on e) (unique_dues_query tbl report_date)))
           tbl.

Definition latest_dues_for_day (tbl : table) (report_date : Z) : num :=
  or_zero (db_sum (map DairyEntry.due (joined_rows tbl report_date))).

Definition dairy_daily_summary (validate : DairyDailyReportForm -> bool)
    (tbl : table) (req : request DairyDailyReportForm) : outcome :=
  match req with
  | POST form =>
      if validate form then
        let report_date := f_report_date form in
        let total_cash_income := f_total_cash_income form in
        let daily_dairy_entries :=
          filter (fun e => DairyEntry.date e =? report_date) tbl in
        match daily_dairy_entries with
        | [] =>
            {| db := tbl; flashes := [NoEntriesFound report_date];
               resp := RenderIndex "dairy_daily_summary" None |}
        | _ =>
            let total_cost_dairy := py_sum (map DairyEntry.cost daily_dairy_entries) in
            let total_paid_dairy := py_sum (map DairyEntry.paid daily_dairy_entries) in
            let profit_loss := nsub total_cash_income total_cost_dairy in
            let report :=
              {| rd_date := report_date;
                 total_cost_dairy := total_cost_dairy;
                 total_paid_dairy := total_paid_dairy;
                 total_cash_income := total_cash_income;
                 profit_loss := profit_loss;
                 total_dues_today := latest_dues_for_day tbl report_date |} in
            {| db := tbl; flashes := [SummaryGenerated report_date];
               resp := RenderIndex "dairy_daily_summary" (Some report) |}
        end
      else
        {| db := tbl; flashes := []; resp := RenderIndex "dairy_daily_summary" None |}
  | GET =>
      {| db := tbl; flashes := []; resp := RenderIndex "dairy_daily_summary" None |}
  end.

(** *** /clear_dues *)

(** The merchants whose dues sum to more than zero, for the GET page. *)
Definition users_with_dues (tbl : table) : list (string * num) :=
  flat_map (fun m =>
              match db_sum (map DairyEntry.due
                              (filter (fun e => String.eqb (DairyEntry.m_name e) m) tbl)) with
              | Some total_due => if nltb n0 total_due then [(m, total_due)] else []
              | None => []
              end)
           (nodup string_dec (map DairyEntry.m_name tbl)).

(** The entries of [m_name] with [due > 0], oldest first. *)
Definition entries_with_dues (tbl : table) (m_name : string) : list entry :=
  order_by DairyEntry.date
    (filter (fun e => String.eqb (DairyEntry.m_name e) m_name
                      && nltb n0 (DairyEntry.due e)) tbl).

(** The [for entry in entries] loop: the objects as the loop leaves them,
    and the last value of [remaining]. *)
Fixpoint settle_loop (entries : list entry) (remaining : num) : list entry * num :=
  match entries with
  | [] => ([], remaining)
  | entry :: rest =>
      if nleb remaining n0 then (entries, remaining)
      else
        let pay := py_min (DairyEntry.due entry) remaining in
        let entry := DairyEntry.set_paid entry (nadd (DairyEntry.paid entry) pay) in
        let entry := DairyEntry.set_due entry (nsub (DairyEntry.due entry) pay) in
        let remaining := nsub remaining pay in
        let '(rest', remaining') := settle_loop rest remaining in
        (entry :: rest', remaining')
  end.

Record ClearDuesForm := {
  f_m_name' : string;
  f_amount_paid : num
}.

Definition clear_dues (tbl : table) (req : request ClearDuesForm) : outcome :=
  match req with
  | POST form =>
      let m_name := f_m_name' form in
      let amount_paid := f_amount_paid form in
      let entries := entries_with_dues tbl m_name in
      let remaining := amount_paid in
      let '(entries, _) := settle_loop entries remaining in
      {| db := commit tbl entries;
         flashes := [DuesUpdated m_name];
         resp := Redirect "clear_dues" |}
  | GET =>
      {| db := tbl; flashes := []; resp := RenderClearDues (users_with_dues tbl) |}
  end.

End Routes.

(** * The vocabulary of the claims *)

Section Vocabulary.
Context {N : Number}.

(** [a == b] in Python, or the very same value (NaN is not [==] to itself,
    and [0.0 == -0.0]). *)
Definition py_same (a b : num) : Prop := a = b \/ neqb a b = true.

(** The rows [get_previous_dairy_due] looks at: same merchant and item,
    dated the day before. *)
Definition prior_day_row (current_date : Z) (m_name item : string) (e : entry) : Prop :=
  DairyEntry.date e = current_date - 1
  /\ DairyEntry.m_name e = m_name
  /\ DairyEntry.item e = item.

(** The row with primary key [i]. *)
Definition row_of (tbl : table) (i : Z) : option entry :=
  find (fun r => DairyEntry.id r =? i) tbl.

(** The row that has the primary key of [e] in [tbl']: what [e] has become. *)
Definition after (tbl' : table) (e : entry) : entry :=
  match row_of tbl' (DairyEntry.id e) with
  | Some e' => e'
  | None => e
  end.

(** The filter of the settlement query. *)
Definition has_dues (m_name : string) (e : entry) : bool :=
  String.eqb (DairyEntry.m_name e) m_name && nltb n0 (DairyEntry.due e).

Definition date_le (a b : entry) : Prop := DairyEntry.date a <= DairyEntry.date b.

(** Ascending by [key]. *)
Definition key_le (key : entry -> Z) (a b : entry) : Prop := key a <= key b.

(** [entry.paid += pay; entry.due -= pay] *)
Definition pay_entry (e : entry) (pay : num) : entry :=
  DairyEntry.set_due (DairyEntry.set_paid e (nadd (DairyEntry.paid e) pay))
                     (nsub (DairyEntry.due e) pay).

(** The amounts the loop applies, one for each entry it reaches before the
    [break]. *)
Fixpoint allocate (dues : list num) (remaining : num) : list num :=
  match dues with
  | [] => []
  | d :: dues' =>
      if nleb remaining n0 then []
      else let pay := py_min d remaining in
           pay :: allocate dues' (nsub remaining pay)
  end.

Fixpoint apply_pays (objs : list entry) (pays : list num) : list entry :=
  match objs, pays with
  | e :: objs', pay :: pays' => pay_entry e pay :: apply_pays objs' pays'
  | _, _ => objs
  end.

(** The specification's allocator (section 4.2), run on the persisted
    table: for each entry id in turn, unless [remaining <= 0], read the
    entry, apply [pay = min(entry.due, remaining)] to it in place, decrement
    [remaining]; return the table and the list of (entryId, amountApplied). *)
Definition apply_payment (tbl : table) (entryId : Z) (pay : num) : table :=
  map (fun row => if DairyEntry.id row =? entryId then pay_entry row pay else row) tbl.

Fixpoint settle_steps (tbl : table) (entryIds : list Z) (remaining : num)
    : table * list (Z * num) :=
  match entryIds with
  | [] => (tbl, [])
  | entryId :: rest =>
      if nleb remaining n0 then (tbl, [])
      else
        match row_of tbl entryId with
        | None => settle_steps tbl rest remaining
        | Some e =>
            let pay := py_min (DairyEntry.due e) remaining in
            let '(tbl', applied) :=
              settle_steps (apply_payment tbl entryId pay) rest (nsub remaining pay) in
            (tbl', (entryId, pay) :: applied)
        end
  end.

(** [settle(merchantName, paymentAmount)] of the specification: the
    entries are those of the merchant with [due > 0], in some order that is
    ascending by date. *)
Definition settles (tbl : table) (merchantName : string) (paymentAmount : num)
    (tbl' : table) (applied : list (Z * num)) : Prop :=
  exists entries,
    Permutation entries (filter (has_dues merchantName) tbl)
    /\ StronglySorted date_le entries
    /\ settle_steps tbl (map DairyEntry.id entries) paymentAmount = (tbl', applied).

(** Every field but [paid] and [due]. *)
Definition same_identity (e e' : entry) : Prop :=
  DairyEntry.id e' = DairyEntry.id e
  /\ DairyEntry.date e' = DairyEntry.date e
  /\ DairyEntry.m_name e' = DairyEntry.m_name e
  /\ DairyEntry.item e' = DairyEntry.item e
  /\ DairyEntry.weight e' = DairyEntry.weight e
  /\ DairyEntry.unit e' = DairyEntry.unit e
  /\ DairyEntry.price_per_unit e' = DairyEntry.price_per_unit e
  /\ DairyEntry.cost e' = DairyEntry.cost e
  /\ DairyEntry.created_at e' = DairyEntry.created_at e.

(** The entries of the report date. *)
Definition entries_of (tbl : table) (report_date : Z) : list entry :=
  filter (fun e => DairyEntry.date e =? report_date) tbl.

(** The entries of the report date that are the latest created of their
    (merchant, item) pair on that date. *)
Definition latest_of_day (tbl : table) (report_date : Z) (e : entry) : bool :=
  (DairyEntry.date e =? report_date)
  && forallb (fun x => DairyEntry.created_at x <=? DairyEntry.created_at e)
       (filter (fun x => pair_eqb (pair_of x) (pair_of e)) (entries_of tbl report_date)).

(** No two entries of a (merchant, item) pair carry the same [created_at]. *)
Definition stamps_identify (tbl : table) : Prop :=
  forall a b, In a tbl -> In b tbl -> pair_of a = pair_of b ->
              DairyEntry.created_at a = DairyEntry.created_at b -> a = b.

End Vocabulary.

(** ** Laws of the arithmetic *)

(** Adding the carried due [0.0] changes nothing that [==] can see. *)
Class ZeroCarry (N : Number) : Prop :=
  zero_carry : forall c p : num, py_same (nsub (nadd n0 c) p) (nsub c p).

(** [a < b] gives [a <= b]: true of floats (NaN compares false both ways)
    and of exact numbers. *)
Class OrderLaws (N : Number) : Prop :=
  ltb_leb : forall a b : num, nltb a b = true -> nleb a b = true.

(** Exact arithmetic on the amounts [exact_ok]: each has an integer value
    (its count of currency units), the comparisons compare the values, and
    subtracting an amount from one that is not smaller subtracts the values,
    without rounding.  All of [exactZ] is exact; of [binary64], the whole
    numbers from 0 to [2^53 - 1] are (amounts such as 0.1 are not). *)
Class ExactArith (N : Number) := {
  val : num -> Z;
  exact_ok : num -> Prop;
  exact_n0 : exact_ok n0;
  val_n0 : val n0 = 0;
  sub_exact : forall a b : num,
      exact_ok a -> exact_ok b -> 0 <= val b <= val a ->
      exact_ok (nsub a b) /\ val (nsub a b) = val a - val b;
  ltb_exact : forall a b : num,
      exact_ok a -> exact_ok b -> nltb a b = (val a <? val b);
  leb_exact : forall a b : num,
      exact_ok a -> exact_ok b -> nleb a b = (val a <=? val b)
}.

(** What the bounds on [due] need of the arithmetic, on well-formed amounts
    [amount_ok]: the order is reflexive and total on them, and subtracting
    a positive amount from one that is not smaller gives a well-formed
    amount between zero and the minuend.  True of exact numbers, and of
    finite floats because rounding is monotone. *)
Class MonotoneSub (N : Number) := {
  amount_ok : num -> Prop;
  leb_refl : forall a : num, amount_ok a -> nleb a a = true;
  lt_le : forall a b : num, nltb a b = true -> nleb a b = true;
  pos_of_not_le : forall r : num, amount_ok r -> nleb r n0 = false -> nltb n0 r = true;
  lt_or_eq : forall a b : num,
      amount_ok a -> amount_ok b -> nltb n0 a = true -> nltb n0 b = true ->
      nltb b a = false -> nltb a b = true \/ a = b;
  sub_self : forall a : num,
      amount_ok a -> nltb n0 a = true ->
      amount_ok (nsub a a) /\ nleb n0 (nsub a a) = true /\ nleb (nsub a a) a = true;
  sub_lt : forall a b : num,
      amount_ok a -> amount_ok b -> nltb n0 b = true -> nltb b a = true ->
      amount_ok (nsub a b) /\ nleb n0 (nsub a b) = true /\ nleb (nsub a b) a = true
}.

(** Integers are exact amounts. *)
Definition exactZ_ExactArith : ExactArith exactZ :=
  @Build_ExactArith exactZ (fun z => z) (fun _ => True) Logic.I eq_refl
    (fun a b _ _ _ => conj Logic.I eq_refl)
    (fun a b _ _ => eq_refl) (fun a b _ _ => eq_refl).

Definition total (xs : list Z) : Z := fold_right Z.add 0 xs.

Section ExactVocabulary.
Context {N : Number} {E : ExactArith N}.

Definition due_value (e : entry) : Z := val (DairyEntry.due e).

(** The merchant's total outstanding due: the sum of the dues of the
    merchant's entries with [due > 0]. *)
Definition outstanding (tbl : table) (m : string) : Z :=
  total (map due_value (filter (has_dues m) tbl)).

(** The dues the settlement of merchant [m] reads are exact amounts. *)
Definition exact_dues (tbl : table) (m : string) : Prop :=
  forall e, In e tbl -> has_dues m e = true -> exact_ok (DairyEntry.due e).

(** "Fully zeroing the oldest entries in order until [p] is absorbed, with
    at most one entry partially reduced": [objs] are the entries oldest
    first, [objs'] what they have become. *)
Fixpoint absorbed (objs objs' : list entry) (p : Z) : Prop :=
  match objs, objs' with
  | [], [] => True
  | e :: rest, e' :: rest' =>
      if due_value e <=? p
      then due_value e' = 0 /\ absorbed rest rest' (p - due_value e)
      else due_value e' = due_value e - p /\ rest' = rest
  | _, _ => False
  end.

(** An entry the loop may reach: an exact, positive due. *)
Definition payable (e : entry) : Prop :=
  exact_ok (DairyEntry.due e) /\ 0 < due_value e.

End ExactVocabulary.

(** ** The specification's examples, on Python floats *)

Module Examples.

#[local] Existing Instance binary64.

Definition valid (f : @AddDairyEntryForm binary64) : bool := true.

(** A POST to /add_dairy_entry that passes validation; a request that
    raises leaves the table as it was. *)
Definition add (tbl : @table binary64) (form : @AddDairyEntryForm binary64)
    (now : Z) : @table binary64 :=
  match add_dairy_entry valid tbl (POST form) now with
  | Ok o => db o
  | Raise _ => tbl
  end.

Definition form (d : Z) (m i : string) (weight price paid : spec_float)
    : @AddDairyEntryForm binary64 :=
  {| f_date := d; f_m_name := m; f_item := i; f_weight := weight;
     f_unit := "unit"; f_price_per_unit := price; f_paid := paid |}.

Definition settle (tbl : @table binary64) (m : string) (P : spec_float)
    : @outcome binary64 :=
  clear_dues tbl (POST {| f_m_name' := m; f_amount_paid := P |}).

(** 2024-01-01 *)
Definition jan1 : Z := 738886.

(** Merchant "A" buys milk for 60 and pays 50 on 2024-01-01: due 10. *)
Definition form1 : @AddDairyEntryForm binary64 :=
  form jan1 "A" "Milk (1 Litre)" (F64.of_Z 1) (F64.of_Z 60) (F64.of_Z 50).

(** The next day, again for 60, paying 40: due 10 + 60 - 40 = 30. *)
Definition form2 : @AddDairyEntryForm binary64 :=
  form (jan1 + 1) "A" "Milk (1 Litre)" (F64.of_Z 1) (F64.of_Z 60) (F64.of_Z 40).

Definition table1 : @table binary64 := add [] form1 1000.
Definition table2 : @table binary64 := add table1 form2 2000.

(** Dues of 0.1 and 0.4 for two items: price 0.2 paid 0.1, price 0.8 paid 0.4. *)
Definition table_01_04 : @table binary64 :=
  add (add [] (form jan1 "A" "Milk (1 Litre)" (F64.of_Z 1) (F64.dec 2 1) (F64.dec 1 1)) 1000)
      (form (jan1 + 1) "A" "Curd (500g)" (F64.of_Z 1) (F64.dec 8 1) (F64.dec 4 1)) 2000.

(** Dues of 0.3, 0.4 and 0.1 for three items. *)
Definition table_03_04_01 : @table binary64 :=
  add (add (add [] (form jan1 "A" "Milk (1 Litre)" (F64.of_Z 1) (F64.dec 6 1) (F64.dec 3 1)) 1000)
           (form (jan1 + 1) "A" "Curd (500g)" (F64.of_Z 1) (F64.dec 8 1) (F64.dec 4 1)) 2000)
      (form (jan1 + 2) "A" "Paneer (200g)" (F64.of_Z 1) (F64.dec 2 1) (F64.dec 1 1)) 3000.

(** The exact value of a finite float, in units of [2^-1074]. *)
Definition exact_value (x : spec_float) : Z :=
  match x with
  | S754_finite s m e => (if s then -1 else 1) * Z.pos m * 2 ^ (e + 1074)
  | _ => 0
  end.

(** Two entries for the same merchant and item stamped with the same
    [created_at], one on 2024-01-01 with due 10 and one two days later with
    due 30. *)
Definition table_same_stamp : table :=
  add (add [] form1 1000)
      (form (jan1 + 2) "A" "Milk (1 Litre)" (F64.of_Z 1) (F64.of_Z 60) (F64.of_Z 30)) 1000.

Definition report_form : DairyDailyReportForm :=
  {| f_report_date := jan1 + 5; f_total_cash_income := F64.of_Z 100 |}.

Ltac primary_key_by_computation :=
  unfold primary_key; vm_compute;
  repeat (constructor; [simpl; intuition discriminate|]); constructor.

End Examples.

(** * The rest of the application *)

(** ** /dairy_entries *)

Section Listing.
Context {N : Number}.

(** [ORDER BY k1, k2, ...]: a row sorts before another when it is smaller
    on the first key on which they differ. *)
Fixpoint keys_ltb (keys : list (entry -> Z)) (a b : entry) : bool :=
  match keys with
  | [] => false
  | key :: keys' => (key a <? key b) || ((key a =? key b) && keys_ltb keys' a b)
  end.

Fixpoint insert_by_keys (keys : list (entry -> Z)) (e : entry) (l : list entry)
    : list entry :=
  match l with
  | [] => [e]
  | x :: l' => if keys_ltb keys e x then e :: l else x :: insert_by_keys keys e l'
  end.

Definition order_by_keys (keys : list (entry -> Z)) (l : list entry) : list entry :=
  fold_left (fun acc e => insert_by_keys keys e acc) l [].

(** [column.desc()] *)
Definition desc (key : entry -> Z) : entry -> Z := fun e => - key e.

(** The [entries] the template of /dairy_entries is given. *)
Definition dairy_entries (tbl : table) : list entry :=
  let entries_list :=
    order_by_keys [desc DairyEntry.date; desc DairyEntry.created_at] tbl in
  entries_list.

(** The row [.first()] returns in [get_previous_dairy_due]. *)
Definition prev_entry (tbl : table) (current_date : Z) (m_name item : string)
    : option entry :=
  first (order_by_desc DairyEntry.created_at
           (filter (fun e => (DairyEntry.date e =? current_date - 1)
                             && String.eqb (DairyEntry.m_name e) m_name
                             && String.eqb (DairyEntry.item e) item) tbl)).

(** Newest first: a later date, or the same date and a [created_at] that is
    not earlier. *)
Definition newer_or_same (a b : entry) : Prop :=
  DairyEntry.date b < DairyEntry.date a
  \/ (DairyEntry.date b = DairyEntry.date a
      /\ DairyEntry.created_at b <= DairyEntry.created_at a).

End Listing.

(** ** The application: the [before_request] hook and the routes *)

Section Application.
Context {N : Number}.

(** The process and its database file: whether [app] has the attribute
    [_database_initialized], and the table [dairy_entry] if it exists. *)
Record app_state := {
  _database_initialized : bool;
  dairy_entry : option table
}.

(** [db.create_all()]: creates the tables that do not exist yet. *)
Definition create_all (database : option table) : option table :=
  match database with
  | Some tbl => Some tbl
  | None => Some []
  end.

Definition create_tables_if_not_exists (app : app_state) : app_state :=
  if negb (_database_initialized app)
  then {| _database_initialized := true;
          dairy_entry := create_all (dairy_entry app) |}
  else app.

Inductive http_request :=
| Index
| AddDairyEntry (req : request AddDairyEntryForm) (now : Z)
| DairyEntries
| DairyDailySummary (req : request DairyDailyReportForm)
| ClearDues (req : request ClearDuesForm).

(** What the client gets: the messages flashed and the page, or the list of
    /dairy_entries. *)
Inductive reply :=
| Page (flashed : list flash_message) (page : response)
| EntriesPage (entries : list entry).

(** A route run against the table: the table it leaves and its reply.  A
    request that raises commits nothing. *)
Definition route (validate_entry : AddDairyEntryForm -> bool)
    (validate_report : DairyDailyReportForm -> bool)
    (tbl : table) (r : http_request) : table * result reply :=
  match r with
  | Index => (tbl, Ok (Page [] (RenderIndex "home" None)))
  | AddDairyEntry req now =>
      match add_dairy_entry validate_entry tbl req now with
      | Ok o => (db o, Ok (Page (flashes o) (resp o)))
      | Raise exc => (tbl, Raise exc)
      end
  | DairyEntries => (tbl, Ok (EntriesPage (dairy_entries tbl)))
  | DairyDailySummary req =>
      let o := dairy_daily_summary validate_report tbl req in
      (db o, Ok (Page (flashes o) (resp o)))
  | ClearDues req =>
      let o := clear_dues tbl req in
      (db o, Ok (Page (flashes o) (resp o)))
  end.

(** A route run while the table does not exist: the first query raises. *)
Definition without_table (validate_entry : AddDairyEntryForm -> bool)
    (validate_report : DairyDailyReportForm -> bool)
    (r : http_request) : result reply :=
  match r with
  | Index => Ok (Page [] (RenderIndex "home" None))
  | AddDairyEntry (POST form) _ =>
      if validate_entry form then
        match previous_day (f_date form) with
        | Raise exc => Raise exc
        | Ok _ => Raise "OperationalError"
        end
      else Ok (Page [] (RenderIndex "add_dairy_entry" None))
  | AddDairyEntry GET _ => Ok (Page [] (RenderIndex "add_dairy_entry" None))
  | DairyEntries => Raise "OperationalError"
  | DairyDailySummary (POST form) =>
      if validate_report form then Raise "OperationalError"
      else Ok (Page [] (RenderIndex "dairy_daily_summary" None))
  | DairyDailySummary GET => Ok (Page [] (RenderIndex "dairy_daily_summary" None))
  | ClearDues _ => Raise "OperationalError"
  end.

(** One request: the [before_request] hook, then the route. *)
Definition serve (validate_entry : AddDairyEntryForm -> bool)
    (validate_report : DairyDailyReportForm -> bool)
    (app : app_state) (r : http_request) : app_state * result reply :=
  let app := create_tables_if_not_exists app in
  match dairy_entry app with
  | Some tbl =>
      let '(tbl', answer) := route validate_entry validate_report tbl r in
      ({| _database_initialized := _database_initialized app;
          dairy_entry := Some tbl' |}, answer)
  | None => (app, without_table validate_entry validate_report r)
  end.

(** The requests of a run, served one after the other. *)
Fixpoint serve_all (validate_entry : AddDairyEntryForm -> bool)
    (validate_report : DairyDailyReportForm -> bool)
    (app : app_state) (rs : list http_request) : app_state * list (result reply) :=
  match rs with
  | [] => (app, [])
  | r :: rs' =>
      let '(app', answer) := serve validate_entry validate_report app r in
      let '(app'', answers) := serve_all validate_entry validate_report app' rs' in
      (app'', answer :: answers)
  end.

(** A process that has just started, on a database file that holds [tbl]
    or has no table yet. *)
Definition started (database : option table) : app_state :=
  {| _database_initialized := false; dairy_entry := database |}.

End Application.

Section TableOrder.
Context {N : Number}.

(** [tbl'] holds the rows of [tbl], in place and with their identity, and
    then rows of its own. *)
Definition extends (tbl tbl' : table) : Prop :=
  exists kept added,
    tbl' = kept ++ added /\ Forall2 same_identity tbl kept.

(** The invariant of section 3: the cost of a row is its unit price times
    its weight. *)
Definition costed (e : entry) : Prop :=
  DairyEntry.cost e = nmul (DairyEntry.price_per_unit e) (DairyEntry.weight e).

End TableOrder.

(** ** Exact sums *)

(** Exact addition of exact amounts, as long as the sum is one of the
    values [sum_ok]: every integer for [exactZ], the integers below [2^53]
    for the whole amounts of [binary64]. *)
Class ExactSum (N : Number) {E : ExactArith N} := {
  sum_ok : Z -> Prop;
  sum_ok_0 : sum_ok 0;
  sum_ok_le : forall a b : Z, sum_ok b -> a <= b -> sum_ok a;
  add_exact : forall a b : num,
      exact_ok a -> exact_ok b -> sum_ok (val a + val b) ->
      exact_ok (nadd a b) /\ val (nadd a b) = val a + val b
}.

Definition exactZ_ExactSum : @ExactSum exactZ exactZ_ExactArith :=
  @Build_ExactSum exactZ exactZ_ExactArith (fun _ => True) Logic.I
    (fun _ _ _ _ => Logic.I) (fun a b _ _ _ => conj Logic.I eq_refl).

Section ExactSumVocabulary.
Context {N : Number} {E : ExactArith N}.

Definition paid_value (e : entry) : Z := val (DairyEntry.paid e).

(** The sum of the dues of all the entries of a merchant, whatever their
    sign: what the /clear_dues page shows. *)
Definition balance (tbl : table) (m : string) : Z :=
  total (map due_value (filter (fun e => String.eqb (DairyEntry.m_name e) m) tbl)).

(** The dues, oldest first, after a payment [p] has been allocated to
    them. *)
Fixpoint pay_down (dues : list Z) (p : Z) : list Z :=
  match dues with
  | [] => []
  | d :: dues' =>
      let pay := Z.max 0 (Z.min d p) in
      (d - pay) :: pay_down dues' (p - pay)
  end.

End ExactSumVocabulary.

(** ** The forms and their validators *)

(** The validators are those of WTForms, applied to the data of the fields
    once parsed: the amounts are Python floats. *)
Module Forms.

#[local] Existing Instance binary64.

(** The catalogue: item name and reference price. *)
Definition DAIRY_PRODUCTS : list (string * spec_float) :=
  [ ("Milk (1 Litre)", F64.of_Z 60);
    ("Curd (500g)", F64.of_Z 45);
    ("Paneer (200g)", F64.of_Z 80);
    ("Ghee (200ml)", F64.of_Z 150);
    ("Butter (100g)", F64.of_Z 55);
    ("Lassi (200ml)", F64.of_Z 30);
    ("Yogurt (100g)", F64.of_Z 25);
    ("Cream (250ml)", F64.of_Z 70);
    ("Cheese Slice (100g)", F64.of_Z 75);
    ("Flavored Milk (200ml)", F64.of_Z 35) ]%string.

Definition keys (d : list (string * spec_float)) : list string := map fst d.

(** [self.item.choices] as [__init__] sets it: (value, label) pairs. *)
Definition item_choices : list (string * string) :=
  ("", "Select an item")%string
  :: map (fun item_name => (item_name, item_name)) (keys DAIRY_PRODUCTS).

(** Truth value of a float: every float but zero. *)
Definition truthy (x : spec_float) : bool := negb (SFeqb x F64.pos_zero).

(** [str.isspace] on a character: code points below 256. *)
Definition isspace (c : Ascii.ascii) : bool :=
  let n := Z.of_nat (Ascii.nat_of_ascii c) in
  ((9 <=? n) && (n <=? 13)) || ((28 <=? n) && (n <=? 32))
  || (n =? 133) || (n =? 160).

(** Whether [s.strip()] is a non-empty string. *)
Definition strip_truthy (s : string) : bool :=
  existsb (fun c => negb (isspace c)) (list_ascii_of_string s).

(** [DataRequired] on a float field: the data is truthy. *)
Definition DataRequired (data : spec_float) : bool := truthy data.

(** [DataRequired] on a string field: truthy, and not only whitespace. *)
Definition DataRequired_str (data : string) : bool :=
  negb (String.eqb data "") && strip_truthy data.

(** [NumberRange(min=...)]: the data is not below [min] (NaN is refused). *)
Definition NumberRange (min data : spec_float) : bool := SFleb min data.

(** [Length(min=..., max=...)], [-1] for no bound. *)
Definition Length (min max : Z) (data : string) : bool :=
  let length := Z.of_nat (String.length data) in
  (min <=? length) && ((max =? -1) || (length <=? max)).

(** [SelectField.pre_validate]: the data is the value of a choice. *)
Definition valid_choice (choices : list (string * string)) (data : string) : bool :=
  existsb (fun choice => String.eqb (fst choice) data) choices.

(** The fields of [AddDairyEntryForm], each with its validators; the date
    field holds a date once parsed, which is truthy. *)
Definition AddDairyEntryForm_validate (form : @AddDairyEntryForm binary64) : bool :=
  (DataRequired_str (f_m_name form) && Length 2 100 (f_m_name form))
  && (valid_choice item_choices (f_item form) && DataRequired_str (f_item form))
  && (DataRequired (f_weight form) && NumberRange (F64.dec 1 2) (f_weight form))
  && (DataRequired_str (f_unit form) && Length (-1) 50 (f_unit form))
  && (DataRequired (f_price_per_unit form)
      && NumberRange F64.pos_zero (f_price_per_unit form))
  && (DataRequired (f_paid form) && NumberRange F64.pos_zero (f_paid form)).

Definition DairyDailyReportForm_validate (form : @DairyDailyReportForm binary64) : bool :=
  DataRequired (f_total_cash_income form)
  && NumberRange F64.pos_zero (f_total_cash_income form).

(** [form.validate_on_submit()] on a POST: the CSRF token of the request is
    checked with the fields. *)
Definition validate_on_submit {form : Type} (csrf_token : form -> bool)
    (validate : form -> bool) (data : form) : bool :=
  csrf_token data && validate data.

(** What validation lets into the columns that never change. *)
Definition from_the_form (e : @entry binary64) : Prop :=
  In (DairyEntry.item e) (keys DAIRY_PRODUCTS)
  /\ SFleb (F64.dec 1 2) (DairyEntry.weight e) = true
  /\ SFltb F64.pos_zero (DairyEntry.price_per_unit e) = true
  /\ (2 <= Z.of_nat (String.length (DairyEntry.m_name e)) <= 100)
  /\ (1 <= Z.of_nat (String.length (DairyEntry.unit e)) <= 50).

End Forms.

(** ** More examples, on Python floats *)

Module MoreExamples.
Import Examples Forms.

#[local] Existing Instance binary64.

(** An entry dated [date.min], 0001-01-01. *)
Definition form_date_min : @AddDairyEntryForm binary64 :=
  form 1 "A" "Milk (1 Litre)" (F64.of_Z 1) (F64.of_Z 60) (F64.of_Z 50).

(** A second entry for 2024-01-02, same merchant and item, fully paid. *)
Definition form2_again : @AddDairyEntryForm binary64 :=
  form (jan1 + 1) "A" "Milk (1 Litre)" (F64.of_Z 1) (F64.of_Z 60) (F64.of_Z 60).

(** Nothing paid. *)
Definition form_unpaid : @AddDairyEntryForm binary64 :=
  form (jan1 + 1) "A" "Milk (1 Litre)" (F64.of_Z 1) (F64.of_Z 60) (F64.of_Z 0).

(** A form every validator accepts. *)
Definition form_asha : @AddDairyEntryForm binary64 :=
  {| f_date := jan1; f_m_name := "Asha"; f_item := "Milk (1 Litre)";
     f_weight := F64.of_Z 1; f_unit := "litre";
     f_price_per_unit := F64.of_Z 60; f_paid := F64.of_Z 50 |}.

Definition entry_asha : @entry binary64 :=
  {| DairyEntry.id := 1; DairyEntry.date := jan1;
     DairyEntry.m_name := "Asha"; DairyEntry.item := "Milk (1 Litre)";
     DairyEntry.weight := F64.of_Z 1; DairyEntry.unit := "litre";
     DairyEntry.price_per_unit := F64.of_Z 60;
     DairyEntry.cost := F64.mul (F64.of_Z 60) (F64.of_Z 1);
     DairyEntry.paid := F64.of_Z 50;
     DairyEntry.due :=
       F64.sub (F64.add F64.pos_zero (F64.mul (F64.of_Z 60) (F64.of_Z 1))) (F64.of_Z 50);
     DairyEntry.created_at := 1000 |}.

Definition report_jan1 : @DairyDailyReportForm binary64 :=
  {| f_report_date := jan1; f_total_cash_income := F64.of_Z 100 |}.

Definition report_no_income : @DairyDailyReportForm binary64 :=
  {| f_report_date := jan1; f_total_cash_income := F64.of_Z 0 |}.

Definition pay (m : string) (P : spec_float) : @request (@ClearDuesForm binary64) :=
  POST {| f_m_name' := m; f_amount_paid := P |}.

(** Settle 25 for "A", then list the entries. *)
Definition run_settle : list (@http_request binary64) :=
  [ClearDues (pay "A" (F64.of_Z 25)); DairyEntries].

(** Add an entry, then settle 25 for the merchant. *)
Definition run_asha : list (@http_request binary64) :=
  [AddDairyEntry (POST form_asha) 1000; ClearDues (pay "Asha" (F64.of_Z 25))].

End MoreExamples.

(** ** The NOT NULL columns *)

(** The float columns of [DairyEntry] are declared [nullable=False], and
    SQLite stores a NaN as NULL: a flush that writes a NaN into [paid] or
    [due] raises [IntegrityError] and the transaction is not committed.
    Infinities are stored as they are. *)
Module Sqlite.
Import Examples.

#[local] Existing Instance binary64.

Definition is_nan (x : spec_float) : bool :=
  match x with
  | S754_nan => true
  | _ => false
  end.

(** The values of a Python float: [spec_float] also has pairs of a
    mantissa and an exponent that are no binary64 number. *)
Definition is_float (x : spec_float) : Prop :=
  valid_binary F64.prec F64.emax x = true.

(** The UPDATE of a settled row writes its [paid] and its [due]. *)
Definition updatable (e : @entry binary64) : bool :=
  negb (is_nan (DairyEntry.paid e)) && negb (is_nan (DairyEntry.due e)).

(** The objects the [for entry in entries] loop has assigned to when it
    ends, which are the ones the flush writes. *)
Fixpoint assigned (entries : list (@entry binary64)) (remaining : spec_float)
    : list (@entry binary64) :=
  match entries with
  | [] => []
  | entry :: rest =>
      if nleb remaining n0 then []
      else
        let pay := py_min (DairyEntry.due entry) remaining in
        let entry := DairyEntry.set_paid entry (nadd (DairyEntry.paid entry) pay) in
        let entry := DairyEntry.set_due entry (nsub (DairyEntry.due entry) pay) in
        let remaining := nsub remaining pay in
        entry :: assigned rest remaining
  end.

(** [clear_dues] with its [db.session.commit()] on SQLite. *)
Definition clear_dues (tbl : @table binary64) (req : request (@ClearDuesForm binary64))
    : result (@outcome binary64) :=
  match req with
  | POST form =>
      let m_name := f_m_name' form in
      let amount_paid := f_amount_paid form in
      let entries := entries_with_dues tbl m_name in
      let remaining := amount_paid in
      if forallb updatable (assigned entries remaining)
      then Ok (clear_dues tbl req)
      else Raise "IntegrityError"
  | GET => Ok (clear_dues tbl req)
  end.

(** The table a request leaves: a request that raises commits nothing. *)
Definition table_after (tbl : @table binary64) (r : result (@outcome binary64))
    : @table binary64 :=
  match r with
  | Ok o => db o
  | Raise _ => tbl
  end.

(** Anil owes 10 for milk and, bought at a price of [inf], [inf] for
    ghee. *)
Definition form_milk : @AddDairyEntryForm binary64 :=
  form jan1 "Anil" "Milk (1 Litre)" (F64.of_Z 1) (F64.of_Z 60) (F64.of_Z 50).

Definition form_ghee : @AddDairyEntryForm binary64 :=
  form (jan1 + 1) "Anil" "Ghee (200ml)" (F64.of_Z 1) F64.inf (F64.of_Z 5).

Definition table_inf : @table binary64 :=
  add (add [] form_milk 1000) form_ghee 2000.

End Sqlite.

(** ** Tactics *)

(** Powers of two are opaque to [lia]: name them first. *)
Ltac hide_pows :=
  repeat match goal with
         | |- context [2 ^ ?x] =>
             let p := fresh "p" in set (p := 2 ^ x) in *; clearbody p
         | H : context [2 ^ ?x] |- _ =>
             let p := fresh "p" in set (p := 2 ^ x) in *; clearbody p
         end.

Ltac plia := hide_pows; lia.
Ltac pnia := hide_pows; nia.

(** * Properties *)

(** ** ORDER BY *)

Section OrderBy.
Context {N : Number}.
Variable key : entry -> Z.

Lemma insert_by_perm (e : entry) (l : list entry) :
  Permutation (insert_by key e l) (e :: l).
Proof.
  induction l as [|x l IH]; simpl.
  - apply Permutation_refl.
  - destruct (key e <? key x).
    + apply Permutation_refl.
    + eapply Permutation_trans; [apply perm_skip, IH | apply perm_swap].
Qed.

Lemma fold_insert_perm (l acc : list entry) :
  Permutation (fold_left (fun a e => insert_by key e a) l acc) (acc ++ l).
Proof.
  revert acc; induction l as [|x l IH]; intros acc; simpl.
  - rewrite app_nil_r. apply Permutation_refl.
  - eapply Permutation_trans; [apply IH|].
    eapply Permutation_trans; [apply Permutation_app_tail, insert_by_perm|].
    simpl. apply Permutation_middle.
Qed.

Lemma order_by_perm (l : list entry) : Permutation (order_by key l) l.
Proof. unfold order_by. apply (fold_insert_perm l []). Qed.

Lemma insert_by_sorted (e : entry) (l : list entry) :
  StronglySorted (key_le key) l -> StronglySorted (key_le key) (insert_by key e l).
Proof.
  induction 1 as [|x l Hs IH Hx]; simpl.
  - repeat constructor.
  - destruct (key e <? key x) eqn:E.
    + apply Z.ltb_lt in E. constructor; [constructor; assumption|].
      constructor; [unfold key_le; lia|].
      eapply Forall_impl; [|exact Hx]. unfold key_le; intros; lia.
    + apply Z.ltb_ge in E. constructor; [assumption|].
      eapply Permutation_Forall; [apply Permutation_sym, insert_by_perm|].
      constructor; [exact E | exact Hx].
Qed.

Lemma order_by_sorted (l : list entry) : StronglySorted (key_le key) (order_by key l).
Proof.
  unfold order_by.
  assert (G : forall acc, StronglySorted (key_le key) acc ->
              StronglySorted (key_le key) (fold_left (fun a e => insert_by key e a) l acc)).
  { induction l as [|x l IH]; intros acc Hacc; simpl; [assumption|].
    apply IH, insert_by_sorted, Hacc. }
  apply G. constructor.
Qed.

Lemma order_by_In (l : list entry) (e : entry) : In e (order_by key l) <-> In e l.
Proof.
  split; apply Permutation_in; [|apply Permutation_sym]; apply order_by_perm.
Qed.

Lemma order_by_nil_iff (l : list entry) : order_by key l = [] <-> l = [].
Proof.
  split; intros H.
  - pose proof (order_by_perm l) as P. rewrite H in P.
    apply Permutation_nil, P.
  - subst. reflexivity.
Qed.

End OrderBy.

Section First.
Context {N : Number}.

(** [.order_by(key.desc()).first()] is a row with the largest key. *)
Lemma first_order_by_desc (key : entry -> Z) (l : list entry) (e : entry) :
  first (order_by_desc key l) = Some e ->
  In e l /\ forall x, In x l -> key x <= key e.
Proof.
  unfold first, order_by_desc. intros H.
  pose proof (order_by_sorted (fun x => - key x) l) as Hs.
  pose proof (order_by_In (fun x => - key x) l) as Hin.
  destruct (order_by (fun x => - key x) l) as [|y s]; simpl in H; [discriminate|].
  injection H as ->. split.
  - apply Hin. left. reflexivity.
  - intros x Hx. apply Hin in Hx. inversion Hs as [|? ? _ Hall]; subst.
    destruct Hx as [->|Hx]; [lia|].
    rewrite Forall_forall in Hall. specialize (Hall x Hx). unfold key_le in Hall. lia.
Qed.

Lemma first_order_by_desc_none (key : entry -> Z) (l : list entry) :
  first (order_by_desc key l) = None <-> l = [].
Proof.
  unfold first, order_by_desc. rewrite <- (order_by_nil_iff (fun x => - key x) l).
  destruct (order_by (fun x => - key x) l); simpl; split; congruence.
Qed.

End First.

(** ** The carried zero, on floats and on integers *)

Lemma binary64_ZeroCarry : ZeroCarry binary64.
Proof.
  intros c p. unfold py_same. simpl.
  destruct c as [[|]| | |sc mc ec]; try (left; reflexivity).
  destruct p as [[|]|[|]| |sp mp ep]; simpl; auto.
Qed.

Lemma exactZ_ZeroCarry : ZeroCarry exactZ.
Proof. intros c p. left. reflexivity. Qed.

(** ** Due carry-forward *)

Section CarryForward.
Context {N : Number}.

Lemma prior_day_filter (current_date : Z) (m_name item : string) (tbl : table) (e : entry) :
  In e (filter (fun e => (DairyEntry.date e =? current_date - 1)
                         && String.eqb (DairyEntry.m_name e) m_name
                         && String.eqb (DairyEntry.item e) item) tbl)
  <-> In e tbl /\ prior_day_row current_date m_name item e.
Proof.
  rewrite filter_In, !andb_true_iff, Z.eqb_eq, !String.eqb_eq.
  unfold prior_day_row. tauto.
Qed.

(** The carried due is the [due] of a latest-created row of the previous
    day, and [0.0] when there is no such row. *)
Lemma get_previous_dairy_due_spec (tbl : table) (current_date : Z) (m_name item : string) :
  1 < current_date ->
  exists previous_due,
    get_previous_dairy_due tbl current_date m_name item = Ok previous_due
    /\ ((exists e, In e tbl /\ prior_day_row current_date m_name item e
                   /\ previous_due = DairyEntry.due e
                   /\ forall x, In x tbl -> prior_day_row current_date m_name item x ->
                                DairyEntry.created_at x <= DairyEntry.created_at e)
        \/ ((forall x, In x tbl -> ~ prior_day_row current_date m_name item x)
            /\ previous_due = n0)).
Proof.
  intros Hd. unfold get_previous_dairy_due, previous_day.
  destruct (current_date <=? 1) eqn:E; [apply Z.leb_le in E; lia|].
  set (rows := filter _ tbl).
  destruct (first (order_by_desc DairyEntry.created_at rows)) as [e|] eqn:F.
  - exists (DairyEntry.due e). split; [reflexivity|]. left.
    apply first_order_by_desc in F. destruct F as [Hin Hmax].
    apply prior_day_filter in Hin. destruct Hin as [Hin Hrow].
    exists e. repeat split; try assumption; try apply Hrow.
    intros x Hx Hxrow. apply Hmax. apply prior_day_filter. split; assumption.
  - exists n0. split; [reflexivity|]. right. split; [|reflexivity].
    apply first_order_by_desc_none in F.
    intros x Hx Hxrow.
    assert (In x rows) as Hin by (apply prior_day_filter; split; assumption).
    rewrite F in Hin. exact Hin.
Qed.

(** The date [date.min] has no previous day: the request fails and no entry
    is created. *)
Lemma add_dairy_entry_date_min (validate : AddDairyEntryForm -> bool)
    (tbl : table) (form : AddDairyEntryForm) (now : Z) :
  validate form = true -> f_date form <= 1 ->
  add_dairy_entry validate tbl (POST form) now = Raise "OverflowError".
Proof.
  intros Hv Hd. unfold add_dairy_entry, get_previous_dairy_due, previous_day.
  rewrite Hv. destruct (f_date form <=? 1) eqn:E; [reflexivity|].
  apply Z.leb_gt in E. lia.
Qed.

(** Without a valid POST the table is left as it is. *)
Lemma add_dairy_entry_no_entry (validate : AddDairyEntryForm -> bool)
    (tbl : table) (req : request AddDairyEntryForm) (now : Z) (o : outcome) :
  match req with POST form => validate form = false | GET => True end ->
  add_dairy_entry validate tbl req now = Ok o -> db o = tbl.
Proof.
  destruct req as [|form]; simpl.
  - intros _ [= <-]. reflexivity.
  - intros ->. intros [= <-]. reflexivity.
Qed.

(** C1. A valid POST (for a date after [date.min]) creates exactly one
    entry, and its stored due is [(previous_due + cost) - paid], where
    [previous_due] is the due of the latest-created entry of the same
    merchant and item dated exactly one day earlier, and [0.0] when there is
    none; in the latter case the due is [cost - paid]. *)
Theorem add_dairy_entry_due {ZC : ZeroCarry N} (validate : AddDairyEntryForm -> bool)
    (tbl : table) (form : AddDairyEntryForm) (now : Z) :
  validate form = true ->
  1 < f_date form ->
  let D := f_date form in
  let M := f_m_name form in
  let I := f_item form in
  let c := nmul (f_price_per_unit form) (f_weight form) in
  let p := f_paid form in
  exists new previous_due,
    add_dairy_entry validate tbl (POST form) now
    = Ok {| db := tbl ++ [new]; flashes := [EntryAdded];
            resp := Redirect "add_dairy_entry" |}
    /\ DairyEntry.date new = D /\ DairyEntry.m_name new = M /\ DairyEntry.item new = I
    /\ DairyEntry.cost new = c /\ DairyEntry.paid new = p
    /\ DairyEntry.due new = nsub (nadd previous_due c) p
    /\ ((exists e, In e tbl /\ prior_day_row D M I e
                   /\ previous_due = DairyEntry.due e
                   /\ forall x, In x tbl -> prior_day_row D M I x ->
                                DairyEntry.created_at x <= DairyEntry.created_at e)
        \/ ((forall x, In x tbl -> ~ prior_day_row D M I x)
            /\ previous_due = n0
            /\ py_same (DairyEntry.due new) (nsub c p))).
Proof.
  intros Hv Hd D M I c p.
  destruct (get_previous_dairy_due_spec tbl D M I Hd) as (pd & Hget & Hpd).
  unfold add_dairy_entry. rewrite Hv. fold D M I. rewrite Hget.
  eexists. exists pd. split; [reflexivity|]. simpl.
  repeat (split; [reflexivity|]).
  destruct Hpd as [Hsome|[Hnone ->]]; [left; exact Hsome|].
  right. repeat split; [exact Hnone|]. apply zero_carry.
Qed.

End CarryForward.

(** ** Rows and their primary key *)

Section Rows.
Context {N : Number}.

Lemma commit_after (tbl : table) (objects : list entry) :
  commit tbl objects = map (after objects) tbl.
Proof. reflexivity. Qed.

Lemma id_inj (l : list entry) (a b : entry) :
  NoDup (map DairyEntry.id l) -> In a l -> In b l ->
  DairyEntry.id a = DairyEntry.id b -> a = b.
Proof.
  induction l as [|x l IH]; simpl; intros Hnd Ha Hb Hid; [contradiction|].
  inversion Hnd as [|? ? Hx Hl]; subst.
  destruct Ha as [->|Ha], Hb as [->|Hb]; auto.
  - exfalso. apply Hx. rewrite Hid. apply in_map, Hb.
  - exfalso. apply Hx. rewrite <- Hid. apply in_map, Ha.
Qed.

Lemma row_of_some (l : list entry) (i : Z) (e : entry) :
  row_of l i = Some e -> In e l /\ DairyEntry.id e = i.
Proof.
  unfold row_of. intros H. apply find_some in H.
  destruct H as [H1 H2]. apply Z.eqb_eq in H2. split; assumption.
Qed.

Lemma row_of_none (l : list entry) (i : Z) :
  row_of l i = None <-> ~ In i (map DairyEntry.id l).
Proof.
  unfold row_of. split.
  - intros H Hin. apply in_map_iff in Hin. destruct Hin as (x & Hx & Hin).
    pose proof (find_none _ _ H x Hin) as Hf. simpl in Hf.
    apply Z.eqb_neq in Hf. contradiction.
  - intros H. destruct (find _ l) as [e|] eqn:F; [|reflexivity].
    apply find_some in F. destruct F as [F1 F2]. apply Z.eqb_eq in F2.
    exfalso. apply H. rewrite <- F2. apply in_map, F1.
Qed.

Lemma row_of_In (l : list entry) (e : entry) :
  NoDup (map DairyEntry.id l) -> In e l -> row_of l (DairyEntry.id e) = Some e.
Proof.
  intros Hnd Hin. destruct (row_of l (DairyEntry.id e)) as [x|] eqn:F.
  - apply row_of_some in F. destruct F as [F1 F2].
    f_equal. apply (id_inj l); assumption.
  - apply row_of_none in F. exfalso. apply F, in_map, Hin.
Qed.

Lemma after_id (l : list entry) (e : entry) :
  DairyEntry.id (after l e) = DairyEntry.id e.
Proof.
  unfold after. destruct (row_of l (DairyEntry.id e)) as [x|] eqn:F; [|reflexivity].
  apply row_of_some in F. apply F.
Qed.


Lemma after_other (l : list entry) (e : entry) :
  ~ In (DairyEntry.id e) (map DairyEntry.id l) -> after l e = e.
Proof. intros H. unfold after. apply row_of_none in H. rewrite H. reflexivity. Qed.

Lemma commit_ids (tbl : table) (objects : list entry) :
  map DairyEntry.id (commit tbl objects) = map DairyEntry.id tbl.
Proof.
  rewrite commit_after, map_map. apply map_ext. intros e. apply after_id.
Qed.

Lemma commit_length (tbl : table) (objects : list entry) :
  List.length (commit tbl objects) = List.length tbl.
Proof. rewrite commit_after. apply length_map. Qed.

(** After the commit, the row of [e] is the object loaded for [e], if any. *)
Lemma after_commit (tbl : table) (objects : list entry) (e : entry) :
  NoDup (map DairyEntry.id tbl) -> In e tbl ->
  after (commit tbl objects) e = after objects e.
Proof.
  intros Hnd Hin. unfold after at 1.
  destruct (row_of (commit tbl objects) (DairyEntry.id e)) as [x|] eqn:F.
  - apply row_of_some in F. destruct F as [F1 F2].
    rewrite commit_after in F1. apply in_map_iff in F1.
    destruct F1 as (r & <- & Hr). rewrite after_id in F2.
    f_equal. apply (id_inj tbl); assumption.
  - apply row_of_none in F. rewrite commit_ids in F.
    exfalso. apply F, in_map, Hin.
Qed.

(** Objects loaded from distinct rows and written one to one. *)
Lemma after_aligned (objs objs' : list entry) :
  NoDup (map DairyEntry.id objs) ->
  map DairyEntry.id objs' = map DairyEntry.id objs ->
  map (after objs') objs = objs'.
Proof.
  revert objs'. induction objs as [|e objs IH]; intros [|e' objs'] Hnd Hid;
    simpl in *; try discriminate; [reflexivity|].
  injection Hid as He Hid. inversion Hnd as [|? ? Hx Hl]; subst.
  f_equal.
  - unfold after, row_of. simpl. rewrite He, Z.eqb_refl. reflexivity.
  - rewrite <- (IH objs' Hl Hid) at 2. apply map_ext_in. intros a Ha.
    unfold after, row_of. simpl.
    destruct (DairyEntry.id e' =? DairyEntry.id a) eqn:E; [|reflexivity].
    apply Z.eqb_eq in E. exfalso. apply Hx. rewrite <- He, E. apply in_map, Ha.
Qed.

Lemma commit_same (tbl : table) (objects : list entry) :
  NoDup (map DairyEntry.id tbl) -> incl objects tbl -> commit tbl objects = tbl.
Proof.
  intros Hnd Hincl. rewrite commit_after. rewrite <- (map_id tbl) at 2.
  apply map_ext_in. intros e He. unfold after.
  destruct (row_of objects (DairyEntry.id e)) as [x|] eqn:F; [|reflexivity].
  apply row_of_some in F. destruct F as [F1 F2].
  apply (id_inj tbl); auto.
Qed.

End Rows.

(** ** Settlement: the loop and the specification's allocator *)

Section Settlement.
Context {N : Number}.

Lemma settle_loop_allocate (objs : list entry) (r : num) :
  fst (settle_loop objs r) = apply_pays objs (allocate (map DairyEntry.due objs) r).
Proof.
  revert r. induction objs as [|e objs IH]; intros r; simpl; [reflexivity|].
  destruct (nleb r n0); [reflexivity|].
  specialize (IH (nsub r (py_min (DairyEntry.due e) r))).
  destruct (settle_loop objs _) as [rest' r']. simpl in *.
  rewrite <- IH. reflexivity.
Qed.

Lemma apply_pays_ids (objs : list entry) (pays : list num) :
  map DairyEntry.id (apply_pays objs pays) = map DairyEntry.id objs.
Proof.
  revert pays. induction objs as [|e objs IH]; intros [|pay pays]; simpl;
    try reflexivity. f_equal. apply IH.
Qed.

Lemma apply_payment_ids (tbl : table) (i : Z) (pay : num) :
  map DairyEntry.id (apply_payment tbl i pay) = map DairyEntry.id tbl.
Proof.
  unfold apply_payment. rewrite map_map. apply map_ext. intros e.
  destruct (DairyEntry.id e =? i); reflexivity.
Qed.

(** Writing the first object and then committing the others is committing
    them all. *)
Lemma commit_cons (tbl : table) (e : entry) (pay : num) (objs' : list entry) :
  NoDup (map DairyEntry.id tbl) -> In e tbl ->
  ~ In (DairyEntry.id e) (map DairyEntry.id objs') ->
  commit tbl (pay_entry e pay :: objs')
  = commit (apply_payment tbl (DairyEntry.id e) pay) objs'.
Proof.
  intros Hnd Hin Hfresh. rewrite !commit_after. unfold apply_payment.
  rewrite map_map. apply map_ext_in. intros row Hrow.
  destruct (DairyEntry.id row =? DairyEntry.id e) eqn:E.
  - apply Z.eqb_eq in E. assert (row = e) as -> by (apply (id_inj tbl); auto).
    rewrite (after_other objs') by exact Hfresh.
    unfold after, row_of. simpl. rewrite Z.eqb_refl. reflexivity.
  - unfold after, row_of. simpl. rewrite Z.eqb_sym, E. reflexivity.
Qed.

(** The loop over loaded objects followed by the commit is the
    specification's run over the persisted table. *)
Lemma settle_steps_loop (objs : list entry) :
  forall (tbl : table) (r : num),
    NoDup (map DairyEntry.id tbl) -> incl objs tbl ->
    NoDup (map DairyEntry.id objs) ->
    settle_steps tbl (map DairyEntry.id objs) r
    = (commit tbl (fst (settle_loop objs r)),
       combine (map DairyEntry.id objs) (allocate (map DairyEntry.due objs) r)).
Proof.
  induction objs as [|e objs IH]; intros tbl r Hnd Hincl Hobjs; simpl.
  - rewrite commit_same; auto.
  - destruct (nleb r n0) eqn:Hr.
    + simpl. rewrite commit_same; auto.
    + assert (In e tbl) as He by (apply Hincl; left; reflexivity).
      rewrite (row_of_In tbl e Hnd He).
      inversion Hobjs as [|? ? Hfresh Hrest]; subst.
      set (pay := py_min (DairyEntry.due e) r).
      rewrite (IH (apply_payment tbl (DairyEntry.id e) pay) (nsub r pay)).
      * destruct (settle_loop objs (nsub r pay)) as [rest' r'] eqn:L. simpl.
        f_equal. symmetry. apply (commit_cons tbl e pay rest' Hnd He).
        replace rest' with (fst (settle_loop objs (nsub r pay))) by (rewrite L; reflexivity).
        rewrite settle_loop_allocate, apply_pays_ids. exact Hfresh.
      * rewrite apply_payment_ids. exact Hnd.
      * intros x Hx. unfold apply_payment. apply in_map_iff. exists x. split.
        -- destruct (DairyEntry.id x =? DairyEntry.id e) eqn:E; [|reflexivity].
           apply Z.eqb_eq in E. exfalso. apply Hfresh. rewrite <- E. apply in_map, Hx.
        -- apply Hincl. right. exact Hx.
      * exact Hrest.
Qed.

Lemma NoDup_ids_filter (f : entry -> bool) (tbl : table) :
  NoDup (map DairyEntry.id tbl) -> NoDup (map DairyEntry.id (filter f tbl)).
Proof.
  induction tbl as [|e tbl IH]; simpl; intros Hnd; [constructor|].
  inversion Hnd as [|? ? Hx Hl]; subst.
  destruct (f e); simpl; [constructor|]; auto.
  intros Hin. apply Hx. apply in_map_iff in Hin. destruct Hin as (x & Hid & Hin).
  apply filter_In in Hin. rewrite <- Hid. apply in_map, Hin.
Qed.

Lemma entries_with_dues_perm (tbl : table) (m : string) :
  Permutation (entries_with_dues tbl m) (filter (has_dues m) tbl).
Proof. apply order_by_perm. Qed.

Lemma entries_with_dues_sorted (tbl : table) (m : string) :
  StronglySorted date_le (entries_with_dues tbl m).
Proof. apply (order_by_sorted DairyEntry.date). Qed.

Lemma entries_with_dues_In (tbl : table) (m : string) (e : entry) :
  In e (entries_with_dues tbl m)
  <-> In e tbl /\ DairyEntry.m_name e = m /\ nltb n0 (DairyEntry.due e) = true.
Proof.
  unfold entries_with_dues. rewrite order_by_In, filter_In, andb_true_iff, String.eqb_eq.
  tauto.
Qed.

Lemma entries_with_dues_incl (tbl : table) (m : string) :
  incl (entries_with_dues tbl m) tbl.
Proof. intros e He. apply entries_with_dues_In in He. apply He. Qed.

Lemma entries_with_dues_ids (tbl : table) (m : string) :
  primary_key tbl -> NoDup (map DairyEntry.id (entries_with_dues tbl m)).
Proof.
  intros Hpk. eapply Permutation_NoDup.
  - apply Permutation_map, Permutation_sym, entries_with_dues_perm.
  - apply NoDup_ids_filter, Hpk.
Qed.

(** The POST branch of [clear_dues], in terms of the loaded objects. *)
Lemma clear_dues_post (tbl : table) (m : string) (P : num) :
  clear_dues tbl (POST {| f_m_name' := m; f_amount_paid := P |})
  = {| db := commit tbl (fst (settle_loop (entries_with_dues tbl m) P));
       flashes := [DuesUpdated m];
       resp := Redirect "clear_dues" |}.
Proof.
  unfold clear_dues. simpl.
  destruct (settle_loop (entries_with_dues tbl m) P). reflexivity.
Qed.

End Settlement.

(** ** What the loop does to each object, and the commit to each row *)

Section LoopInvariant.
Context {N : Number}.

Lemma Forall2_map_right {A B : Type} (R : A -> B -> Prop) (f : A -> B) (l : list A) :
  (forall x, In x l -> R x (f x)) -> Forall2 R l (map f l).
Proof.
  induction l as [|a l IH]; simpl; intros H; constructor.
  - apply H. left. reflexivity.
  - apply IH. intros x Hx. apply H. right. exact Hx.
Qed.

Lemma Forall2_map_right_inv {A B : Type} (R : A -> B -> Prop) (f : A -> B) (l : list A) :
  Forall2 R l (map f l) -> forall x, In x l -> R x (f x).
Proof.
  induction l as [|a l IH]; simpl; intros H x Hx; [contradiction|].
  inversion H; subst. destruct Hx as [->|Hx]; auto.
Qed.

(** A loop invariant [I] on [remaining] and a relation [R] between an
    object before and after the loop: [R] holds of the objects the loop
    skips, and each iteration that passes the [break] test establishes [R]
    and keeps [I]. *)
Lemma settle_loop_Forall2 (I : num -> Prop) (Q : entry -> Prop) (R : entry -> entry -> Prop) :
  (forall e, Q e -> R e e) ->
  (forall e r, Q e -> I r -> nleb r n0 = false ->
               R e (pay_entry e (py_min (DairyEntry.due e) r))
               /\ I (nsub r (py_min (DairyEntry.due e) r))) ->
  forall objs r, Forall Q objs -> I r ->
                 Forall2 R objs (fst (settle_loop objs r)).
Proof.
  intros Hrefl Hstep. induction objs as [|e objs IH]; intros r HQ HI; simpl.
  - constructor.
  - inversion HQ as [|? ? He Hobjs]; subst.
    destruct (nleb r n0) eqn:Hr.
    + simpl. constructor; [apply Hrefl, He|].
      clear -Hrefl Hobjs. induction Hobjs; constructor; auto.
    + destruct (Hstep e r He HI Hr) as [HR HI'].
      specialize (IH (nsub r (py_min (DairyEntry.due e) r)) Hobjs HI').
      destruct (settle_loop objs _) as [rest' r']. simpl in *.
      constructor; assumption.
Qed.

Lemma settle_loop_ids (objs : list entry) (r : num) :
  map DairyEntry.id (fst (settle_loop objs r)) = map DairyEntry.id objs.
Proof. rewrite settle_loop_allocate. apply apply_pays_ids. Qed.

(** From the objects to the rows of the table: a row the query selected has
    become the object the loop left, every other row is as it was. *)
Lemma clear_dues_rows (R : entry -> entry -> Prop) (tbl : table) (m : string) (P : num) :
  primary_key tbl ->
  Forall2 R (entries_with_dues tbl m) (fst (settle_loop (entries_with_dues tbl m) P)) ->
  let tbl' := db (clear_dues tbl (POST {| f_m_name' := m; f_amount_paid := P |})) in
  tbl' = map (after tbl') tbl
  /\ forall e, In e tbl ->
       (In e (entries_with_dues tbl m) /\ R e (after tbl' e))
       \/ (~ In e (entries_with_dues tbl m) /\ after tbl' e = e).
Proof.
  intros Hpk HR tbl'. unfold tbl'. rewrite clear_dues_post. simpl.
  set (objs := entries_with_dues tbl m) in *.
  set (objs' := fst (settle_loop objs P)) in *.
  assert (Hids : map DairyEntry.id objs' = map DairyEntry.id objs)
    by apply settle_loop_ids.
  assert (Hnd : NoDup (map DairyEntry.id objs))
    by (apply entries_with_dues_ids, Hpk).
  split.
  - rewrite commit_after at 1. apply map_ext_in. intros e He.
    symmetry. apply after_commit; assumption.
  - intros e He. rewrite (after_commit tbl objs' e Hpk He).
    destruct (in_dec Z.eq_dec (DairyEntry.id e) (map DairyEntry.id objs)) as [Hin|Hout].
    + left. apply in_map_iff in Hin. destruct Hin as (x & Hid & Hx).
      assert (x = e) as ->.
      { apply (id_inj tbl); auto. apply (entries_with_dues_incl tbl m), Hx. }
      split; [exact Hx|].
      rewrite <- (after_aligned objs objs' Hnd Hids) in HR.
      apply (Forall2_map_right_inv R (after objs') objs HR e Hx).
    + right. split.
      * intros Hx. apply Hout, in_map, Hx.
      * apply after_other. rewrite Hids. exact Hout.
Qed.

End LoopInvariant.

Lemma binary64_OrderLaws : OrderLaws binary64.
Proof.
  intros a b. simpl. unfold SFltb, SFleb.
  destruct (SFcompare a b) as [[| |]|]; congruence.
Qed.

Lemma exactZ_OrderLaws : OrderLaws exactZ.
Proof. intros a b. simpl. rewrite Z.ltb_lt, Z.leb_le. lia. Qed.

Section SettlementClaims.
Context {N : Number}.

Lemma same_identity_refl (e : entry) : same_identity e e.
Proof. repeat split. Qed.

Lemma same_identity_pay (e : entry) (pay : num) : same_identity e (pay_entry e pay).
Proof. repeat split. Qed.

(** C2. The POST branch of [clear_dues] is the specification's allocator:
    the entries it visits are exactly the merchant's entries with [due > 0]
    (a permutation of that selection), ascending by date, and the table it
    commits is the one obtained by visiting them in that order on the
    persisted table, applying [pay = min(entry.due, remaining)],
    [entry.paid += pay], [entry.due -= pay], [remaining -= pay], and
    stopping once [remaining <= 0] or the entries are exhausted. *)
Theorem clear_dues_refines_settle (tbl : table) (m : string) (P : num) :
  primary_key tbl ->
  exists applied,
    settles tbl m P
      (db (clear_dues tbl (POST {| f_m_name' := m; f_amount_paid := P |})))
      applied.
Proof.
  intros Hpk. rewrite clear_dues_post. simpl.
  eexists. exists (entries_with_dues tbl m). split; [|split].
  - apply entries_with_dues_perm.
  - apply entries_with_dues_sorted.
  - apply settle_steps_loop.
    + exact Hpk.
    + apply entries_with_dues_incl.
    + apply entries_with_dues_ids, Hpk.
Qed.

(** C9. Settlement leaves every row in place (none created, none deleted),
    changes no field other than [paid] and [due], and changes no row at all
    unless it is a row of the given merchant with [due > 0]. *)
Theorem clear_dues_frame (tbl : table) (m : string) (P : num) :
  primary_key tbl ->
  Forall2 (fun e e' =>
             same_identity e e'
             /\ (e' <> e -> DairyEntry.m_name e = m /\ nltb n0 (DairyEntry.due e) = true))
          tbl
          (db (clear_dues tbl (POST {| f_m_name' := m; f_amount_paid := P |}))).
Proof.
  intros Hpk.
  destruct (clear_dues_rows same_identity tbl m P Hpk) as [Heq Hrows].
  { apply (settle_loop_Forall2 (fun _ => True) (fun _ => True)); auto.
    - intros e _. apply same_identity_refl.
    - intros e r _ _ _. split; [apply same_identity_pay | exact Logic.I].
    - apply Forall_forall. auto. }
  set (tbl' := db _) in *.
  assert (G : Forall2 (fun e e' =>
             same_identity e e'
             /\ (e' <> e -> DairyEntry.m_name e = m /\ nltb n0 (DairyEntry.due e) = true))
            tbl (map (after tbl') tbl)).
  { apply Forall2_map_right. intros e He.
    destruct (Hrows e He) as [[Hin HR]|[Hout Hsame]].
    - split; [exact HR|]. intros _. apply entries_with_dues_In in Hin. tauto.
    - rewrite Hsame. split; [apply same_identity_refl|]. intros Hne. contradiction. }
  rewrite <- Heq in G. exact G.
Qed.

(** C10. A strictly negative payment changes nothing: the loop breaks at
    its first test, the table is committed as it was, and the request ends
    with the usual redirect. *)
Theorem clear_dues_negative_noop {OL : OrderLaws N} (tbl : table) (m : string) (P : num) :
  primary_key tbl ->
  nltb P n0 = true ->
  settle_loop (entries_with_dues tbl m) P = (entries_with_dues tbl m, P)
  /\ clear_dues tbl (POST {| f_m_name' := m; f_amount_paid := P |})
     = {| db := tbl; flashes := [DuesUpdated m]; resp := Redirect "clear_dues" |}.
Proof.
  intros Hpk Hneg. apply ltb_leb in Hneg.
  assert (L : forall objs, settle_loop objs P = (objs, P)).
  { intros [|e objs]; simpl; [reflexivity|]. rewrite Hneg. reflexivity. }
  split; [apply L|].
  rewrite clear_dues_post, L. simpl. rewrite commit_same; auto.
  apply entries_with_dues_incl.
Qed.




End SettlementClaims.

(** ** Daily summary *)

Section Summary.
Context {N : Number}.

Lemma entries_of_nil (tbl : table) (report_date : Z) :
  entries_of tbl report_date = [] <->
  forall e, In e tbl -> DairyEntry.date e <> report_date.
Proof.
  unfold entries_of. split.
  - intros H e He Hd.
    assert (In e (filter (fun e => DairyEntry.date e =? report_date) tbl)) as Hin
      by (apply filter_In; split; [exact He | apply Z.eqb_eq, Hd]).
    rewrite H in Hin. exact Hin.
  - intros H. destruct (filter _ tbl) as [|x l] eqn:F; [reflexivity|].
    assert (In x (x :: l)) as Hin by (left; reflexivity).
    rewrite <- F in Hin. apply filter_In in Hin. destruct Hin as [Hin Hd].
    apply Z.eqb_eq in Hd. exfalso. exact (H x Hin Hd).
Qed.

(** With entries on the report date, the summary is computed: the costs and
    the payments of the day are summed, the profit or loss is the cash
    income less the total cost. *)
Lemma dairy_daily_summary_report (validate : DairyDailyReportForm -> bool)
    (tbl : table) (form : DairyDailyReportForm) :
  validate form = true ->
  entries_of tbl (f_report_date form) <> [] ->
  let d := f_report_date form in
  let total_cost := py_sum (map DairyEntry.cost (entries_of tbl d)) in
  dairy_daily_summary validate tbl (POST form)
  = {| db := tbl; flashes := [SummaryGenerated d];
       resp := RenderIndex "dairy_daily_summary"
                 (Some {| rd_date := d;
                          total_cost_dairy := total_cost;
                          total_paid_dairy := py_sum (map DairyEntry.paid (entries_of tbl d));
                          total_cash_income := f_total_cash_income form;
                          profit_loss := nsub (f_total_cash_income form) total_cost;
                          total_dues_today := latest_dues_for_day tbl d |}) |}.
Proof.
  intros Hv Hne. cbv zeta. unfold dairy_daily_summary. rewrite Hv.
  fold (entries_of tbl (f_report_date form)).
  destruct (entries_of tbl (f_report_date form)) eqn:E; [contradiction|].
  reflexivity.
Qed.

(** C6. A valid summary request for a date without entries computes no
    aggregate: the page is rendered without report data (no summary at all,
    not a summary of zeros), and the one message flashed has category
    "info"; nothing is raised and the table is untouched. *)
Theorem dairy_daily_summary_no_data (validate : DairyDailyReportForm -> bool)
    (tbl : table) (form : DairyDailyReportForm) :
  validate form = true ->
  (forall e, In e tbl -> DairyEntry.date e <> f_report_date form) ->
  let o := dairy_daily_summary validate tbl (POST form) in
  o = {| db := tbl; flashes := [NoEntriesFound (f_report_date form)];
         resp := RenderIndex "dairy_daily_summary" None |}
  /\ Forall (fun f => category f = "info"%string) (flashes o)
  /\ forall view report, resp o <> RenderIndex view (Some report).
Proof.
  intros Hv Hnone o. apply entries_of_nil in Hnone.
  assert (E : o = {| db := tbl; flashes := [NoEntriesFound (f_report_date form)];
                     resp := RenderIndex "dairy_daily_summary" None |}).
  { unfold o, dairy_daily_summary. rewrite Hv.
    fold (entries_of tbl (f_report_date form)). rewrite Hnone. reflexivity. }
  rewrite E. simpl. split; [reflexivity|]. split.
  - repeat constructor.
  - intros view report. discriminate.
Qed.

Lemma pair_eqb_eq (p q : string * string) : pair_eqb p q = true <-> p = q.
Proof.
  destruct p as [a b], q as [c d]. unfold pair_eqb. simpl.
  rewrite andb_true_iff, !String.eqb_eq. split.
  - intros [-> ->]. reflexivity.
  - intros [= -> ->]. auto.
Qed.

Lemma max_created_at_some (l : list entry) (t : Z) :
  max_created_at l = Some t <->
  (exists x, In x l /\ DairyEntry.created_at x = t)
  /\ forall y, In y l -> DairyEntry.created_at y <= t.
Proof.
  revert t. induction l as [|a l IH]; intros t; simpl.
  - split; [discriminate|]. intros [(x & [] & _) _].
  - destruct (max_created_at l) as [u|] eqn:M.
    + specialize (IH u). destruct IH as [IH1 IH2].
      destruct (IH1 eq_refl) as ((x & Hx & Hxu) & Hmax).
      split.
      * intros [= <-]. split.
        -- destruct (Z.max_spec (DairyEntry.created_at a) u) as [[_ ->]|[_ ->]];
             [exists x | exists a]; auto.
        -- intros y [->|Hy]; [lia|]. specialize (Hmax y Hy). lia.
      * intros ((z & Hz & Hzt) & Hall). f_equal.
        assert (DairyEntry.created_at a <= t) by (apply Hall; auto).
        assert (u <= t) by (rewrite <- Hxu; apply Hall; auto).
        destruct Hz as [<-|Hz]; [lia|]. specialize (Hmax z Hz). lia.
    + assert (l = []) as ->.
      { destruct l as [|b l]; [reflexivity|]. simpl in M.
        destruct (max_created_at l); discriminate. }
      split.
      * intros [= <-]. split; [exists a; auto|]. intros y [->|[]]. lia.
      * intros ((z & [<-|[]] & Hzt) & _). congruence.
Qed.

Lemma filter_unique {A : Type} (h : A -> bool) (a : A) (l : list A) :
  NoDup l -> (forall p, h p = true -> p = a) ->
  filter h l = if existsb h l then [a] else [].
Proof.
  intros Hnd Ha. induction Hnd as [|p l Hp Hl IH]; simpl; [reflexivity|].
  destruct (h p) eqn:E; simpl.
  - apply Ha in E. subst p. f_equal.
    destruct (filter h l) as [|q r] eqn:F; [reflexivity|].
    assert (In q (filter h l)) as Hq by (rewrite F; left; reflexivity).
    apply filter_In in Hq. destruct Hq as [Hq1 Hq2]. apply Ha in Hq2. subst q.
    contradiction.
  - exact IH.
Qed.

Lemma filter_map_comm {A B : Type} (f : A -> B) (h : B -> bool) (l : list A) :
  filter h (map f l) = map f (filter (fun x => h (f x)) l).
Proof.
  induction l as [|a l IH]; simpl; [reflexivity|].
  destruct (h (f a)); simpl; rewrite IH; reflexivity.
Qed.

Lemma flat_map_filter {A : Type} (c : A -> bool) (l : list A) :
  flat_map (fun e => if c e then [e] else []) l = filter c l.
Proof.
  induction l as [|a l IH]; simpl; [reflexivity|].
  destruct (c a); simpl; rewrite IH; reflexivity.
Qed.

Lemma flat_map_ext_In {A B : Type} (f g : A -> list B) (l : list A) :
  (forall a, In a l -> f a = g a) -> flat_map f l = flat_map g l.
Proof.
  induction l as [|a l IH]; simpl; intros H; [reflexivity|].
  rewrite (H a), IH; auto.
Qed.

(** When timestamps identify the entries of a pair, the join of the summary
    selects exactly the latest-created entry of each pair of the day. *)
Lemma joined_rows_latest (tbl : table) (d : Z) :
  stamps_identify tbl ->
  joined_rows tbl d = filter (latest_of_day tbl d) tbl.
Proof.
  intros Hst. unfold joined_rows, unique_dues_query.
  fold (entries_of tbl d).
  set (rows := entries_of tbl d).
  set (ps := nodup pair_dec (map pair_of rows)).
  set (group := fun p : string * string => filter (fun e => pair_eqb (pair_of e) p) rows).
  rewrite <- flat_map_filter. apply flat_map_ext_In. intros e He.
  rewrite filter_map_comm. cbv beta.
  match goal with |- context [filter ?g ps] => set (h := g) end.
  assert (Hh : forall p, h p = true <->
                         p = pair_of e
                         /\ max_created_at (group p) = Some (DairyEntry.created_at e)).
  { intros [pm pi]. unfold h, join_on, pair_of. simpl fst. simpl snd.
    change (filter (fun e0 => pair_eqb (DairyEntry.m_name e0, DairyEntry.item e0) (pm, pi)) rows)
      with (group (pm, pi)).
    rewrite !andb_true_iff, !String.eqb_eq.
    destruct (max_created_at (group (pm, pi))) as [t|].
    - rewrite Z.eqb_eq. split.
      + intros [[-> ->] ->]. auto.
      + intros [[= -> ->] [= ->]]. auto.
    - split; [intros [_ H]; discriminate | intros [_ H]; discriminate]. }
  rewrite (filter_unique h (pair_of e) ps).
  2: apply NoDup_nodup.
  2: { intros p Hp. apply Hh in Hp. apply Hp. }
  assert (Hc : existsb h ps = latest_of_day tbl d e).
  { apply eq_true_iff_eq. rewrite existsb_exists. unfold latest_of_day.
    rewrite andb_true_iff, Z.eqb_eq, forallb_forall. fold rows. fold (group (pair_of e)).
    split.
    - intros (p & Hp & Hhp). apply Hh in Hhp. destruct Hhp as [-> Hmax].
      apply max_created_at_some in Hmax. destruct Hmax as ((x & Hx & Hxt) & Hall).
      unfold group in Hx. apply filter_In in Hx. destruct Hx as [Hx Hpair].
      apply pair_eqb_eq in Hpair.
      unfold rows, entries_of in Hx. apply filter_In in Hx. destruct Hx as [Hx Hdate].
      assert (x = e) as -> by (apply Hst; auto).
      split; [apply Z.eqb_eq, Hdate|].
      intros y Hy. apply Z.leb_le, Hall, Hy.
    - intros [Hdate Hall].
      assert (Hrow : In e rows).
      { unfold rows, entries_of. apply filter_In. split; [exact He|].
        apply Z.eqb_eq, Hdate. }
      exists (pair_of e). split.
      + unfold ps. apply nodup_In, in_map, Hrow.
      + apply Hh. split; [reflexivity|]. apply max_created_at_some. split.
        * exists e. split; [|reflexivity]. unfold group. apply filter_In.
          split; [exact Hrow | apply pair_eqb_eq; reflexivity].
        * intros y Hy. apply Z.leb_le, Hall, Hy. }
  rewrite Hc. destruct (latest_of_day tbl d e); reflexivity.
Qed.

(** C5, the dues of the day, when timestamps identify entries: the total is
    the sum of the dues of the latest-created entry of each pair of the
    day. *)
Lemma latest_dues_for_day_latest (tbl : table) (d : Z) :
  stamps_identify tbl ->
  latest_dues_for_day tbl d
  = or_zero (db_sum (map DairyEntry.due (filter (latest_of_day tbl d) tbl))).
Proof. intros Hst. unfold latest_dues_for_day. rewrite joined_rows_latest; auto. Qed.

End Summary.

(** ** Settlement in exact arithmetic *)

Lemma total_app (xs ys : list Z) : total (xs ++ ys) = total xs + total ys.
Proof. induction xs as [|x xs IH]; simpl; [reflexivity|]. rewrite IH. lia. Qed.

Lemma total_perm (xs ys : list Z) : Permutation xs ys -> total xs = total ys.
Proof. induction 1; simpl; lia. Qed.

Section Exact.
Context {N : Number} {E : ExactArith N}.

Lemma total_payable_nonneg (objs : list entry) :
  Forall payable objs -> 0 <= total (map due_value objs).
Proof. induction 1 as [|e l [_ He] _ IH]; simpl; lia. Qed.

Lemma settle_loop_break (objs : list entry) (r : num) :
  exact_ok r -> val r <= 0 -> settle_loop objs r = (objs, r).
Proof.
  intros Hok Hr. destruct objs as [|e objs]; simpl; [reflexivity|].
  rewrite (leb_exact r n0 Hok exact_n0), val_n0.
  apply Z.leb_le in Hr. rewrite Hr. reflexivity.
Qed.

Lemma py_min_exact (d r : num) :
  exact_ok d -> exact_ok r ->
  exact_ok (py_min d r) /\ val (py_min d r) = Z.min (val d) (val r).
Proof.
  intros Hd Hr. unfold py_min. rewrite (ltb_exact r d Hr Hd).
  destruct (val r <? val d) eqn:C.
  - apply Z.ltb_lt in C. split; [exact Hr | lia].
  - apply Z.ltb_ge in C. split; [exact Hd | lia].
Qed.

(** One iteration that passes the [break] test, in values. *)
Lemma settle_step_exact (e : entry) (r : num) :
  payable e -> exact_ok r -> 0 < val r ->
  let pay := py_min (DairyEntry.due e) r in
  val pay = Z.min (due_value e) (val r)
  /\ exact_ok (DairyEntry.due (pay_entry e pay))
  /\ due_value (pay_entry e pay) = due_value e - val pay
  /\ exact_ok (nsub r pay)
  /\ val (nsub r pay) = val r - val pay.
Proof.
  intros [Hd Hpos] Hr Hrpos pay. unfold due_value in *.
  destruct (py_min_exact (DairyEntry.due e) r Hd Hr) as [Hpay Hv]. fold pay in Hpay, Hv.
  destruct (sub_exact (DairyEntry.due e) pay Hd Hpay ltac:(lia)) as [H1 H2].
  destruct (sub_exact r pay Hr Hpay ltac:(lia)) as [H3 H4].
  simpl. auto.
Qed.

Lemma settle_loop_absorbed (objs : list entry) :
  forall r : num,
    exact_ok r -> 0 <= val r -> Forall payable objs ->
    absorbed objs (fst (settle_loop objs r)) (val r).
Proof.
  induction objs as [|e objs IH]; intros r Hok Hr Hpos; simpl; [exact Logic.I|].
  inversion Hpos as [|? ? He Hrest]; subst.
  rewrite (leb_exact r n0 Hok exact_n0), val_n0.
  destruct (val r <=? 0) eqn:C.
  - apply Z.leb_le in C. simpl. destruct He as [_ He].
    destruct (due_value e <=? val r) eqn:D; [apply Z.leb_le in D; lia|].
    split; [lia | reflexivity].
  - apply Z.leb_gt in C.
    destruct (settle_step_exact e r He Hok C) as (Hpay & _ & Hdue & Hr' & Hrv).
    set (pay := py_min (DairyEntry.due e) r) in *. destruct He as [_ He].
    destruct (due_value e <=? val r) eqn:D.
    + apply Z.leb_le in D.
      specialize (IH (nsub r pay) Hr' ltac:(lia) Hrest).
      destruct (settle_loop objs (nsub r pay)) as [rest' r'] eqn:L. simpl in *.
      split; [fold (pay_entry e pay); lia|].
      replace (val r - due_value e) with (val (nsub r pay)) by lia.
      exact IH.
    + apply Z.leb_gt in D.
      rewrite (settle_loop_break objs (nsub r pay)) by (exact Hr' || lia).
      simpl. split; [|reflexivity]. fold (pay_entry e pay). lia.
Qed.

(** What the loop leaves is exact and not negative. *)
Lemma settle_loop_exact (objs : list entry) (r : num) :
  exact_ok r -> 0 <= val r -> Forall payable objs ->
  Forall (fun e' => exact_ok (DairyEntry.due e') /\ 0 <= due_value e')
         (fst (settle_loop objs r)).
Proof.
  intros Hok Hr Hobjs.
  assert (H2 : Forall2 (fun _ e' => exact_ok (DairyEntry.due e') /\ 0 <= due_value e')
                 objs (fst (settle_loop objs r))).
  { apply (settle_loop_Forall2 (fun r => exact_ok r /\ 0 <= val r) payable).
    - intros e [H1 H2]. split; [exact H1 | lia].
    - intros e r0 He [Hr0 Hr0v] Hnle.
      rewrite (leb_exact r0 n0 Hr0 exact_n0), val_n0 in Hnle. apply Z.leb_gt in Hnle.
      destruct (settle_step_exact e r0 He Hr0 Hnle) as (Hpay & H1 & H2 & H3 & H4).
      destruct He as [_ He]. repeat split; try assumption; lia.
    - exact Hobjs.
    - split; assumption. }
  clear -H2. induction H2; constructor; auto.
Qed.

Lemma absorbed_total (objs : list entry) :
  forall (objs' : list entry) (p : Z),
    0 <= p -> Forall payable objs -> absorbed objs objs' p ->
    total (map due_value objs')
    = total (map due_value objs) - Z.min p (total (map due_value objs)).
Proof.
  induction objs as [|e objs IH]; intros [|e' objs'] p Hp Hpos Habs;
    simpl in *; try contradiction; [lia|].
  inversion Hpos as [|? ? [_ He] Hrest]; subst.
  pose proof (total_payable_nonneg objs Hrest) as Hnn.
  destruct (due_value e <=? p) eqn:D.
  - apply Z.leb_le in D. destruct Habs as [Hz Habs].
    assert (Hq : 0 <= p - due_value e) by lia.
    rewrite (IH objs' (p - due_value e) Hq Hrest Habs). lia.
  - apply Z.leb_gt in D. destruct Habs as [Hd ->]. lia.
Qed.

(** With a payment that covers every due, each entry is paid its own due. *)
Lemma settle_loop_overpaid (objs : list entry) :
  forall r : num,
    exact_ok r -> total (map due_value objs) < val r -> Forall payable objs ->
    settle_loop objs r
    = (map (fun e => pay_entry e (DairyEntry.due e)) objs,
       fold_left (fun r e => nsub r (DairyEntry.due e)) objs r)
    /\ val (fold_left (fun r e => nsub r (DairyEntry.due e)) objs r)
       = val r - total (map due_value objs).
Proof.
  induction objs as [|e objs IH]; intros r Hok Hr Hpos; simpl in *.
  - split; [reflexivity | lia].
  - inversion Hpos as [|? ? [Hd He] Hrest]; subst.
    pose proof (total_payable_nonneg objs Hrest) as Hnn.
    rewrite (leb_exact r n0 Hok exact_n0), val_n0.
    destruct (val r <=? 0) eqn:C; [apply Z.leb_le in C; lia|].
    assert (Hmin : py_min (DairyEntry.due e) r = DairyEntry.due e).
    { unfold py_min. rewrite (ltb_exact r (DairyEntry.due e) Hok Hd).
      destruct (val r <? val (DairyEntry.due e)) eqn:C2; [|reflexivity].
      apply Z.ltb_lt in C2. unfold due_value in *. lia. }
    rewrite Hmin.
    destruct (sub_exact r (DairyEntry.due e) Hok Hd) as [Hr' Hrv];
      [unfold due_value in *; lia|].
    destruct (IH (nsub r (DairyEntry.due e)) Hr') as [IH1 IH2];
      [unfold due_value in *; lia | exact Hrest |].
    rewrite IH1. split; [reflexivity|].
    rewrite IH2, Hrv. unfold due_value. lia.
Qed.

(** The selected entries have exact, positive dues. *)
Lemma entries_with_dues_payable (tbl : table) (m : string) :
  exact_dues tbl m -> Forall payable (entries_with_dues tbl m).
Proof.
  intros Hok. apply Forall_forall. intros e He. apply entries_with_dues_In in He.
  destruct He as (He & Hm & Hd).
  assert (Hsel : has_dues m e = true).
  { unfold has_dues. rewrite Hd, andb_true_r. apply String.eqb_eq, Hm. }
  split; [apply (Hok e He Hsel)|].
  rewrite (ltb_exact n0 (DairyEntry.due e) exact_n0 (Hok e He Hsel)), val_n0 in Hd.
  apply Z.ltb_lt in Hd. exact Hd.
Qed.

Lemma outstanding_entries (tbl : table) (m : string) :
  outstanding tbl m = total (map due_value (entries_with_dues tbl m)).
Proof.
  unfold outstanding. apply total_perm, Permutation_map, Permutation_sym.
  apply entries_with_dues_perm.
Qed.

End Exact.

Section ExactClaims.
Context {N : Number} {E : ExactArith N}.

Lemma Forall2_and_right {A B : Type} (R : A -> B -> Prop) (Q : B -> Prop)
    (l : list A) (l' : list B) :
  Forall2 R l l' -> Forall Q l' -> Forall2 (fun a b => R a b /\ Q b) l l'.
Proof.
  induction 1; intros HQ; constructor; inversion HQ; subst; auto.
Qed.

Lemma total_filter_map (c : entry -> bool) (f : entry -> entry) (l : list entry) :
  total (map due_value (filter c (map f l)))
  = total (map (fun e => if c (f e) then due_value (f e) else 0) l).
Proof.
  induction l as [|a l IH]; simpl; [reflexivity|].
  destruct (c (f a)); simpl; lia.
Qed.

Lemma total_split (c : entry -> bool) (h : entry -> Z) (l : list entry) :
  total (map h l)
  = total (map h (filter c l)) + total (map h (filter (fun e => negb (c e)) l)).
Proof.
  induction l as [|a l IH]; simpl; [reflexivity|].
  destruct (c a); simpl; lia.
Qed.

Lemma total_ext_in (h g : entry -> Z) (l : list entry) :
  (forall e, In e l -> h e = g e) -> total (map h l) = total (map g l).
Proof. intros H. f_equal. apply map_ext_in, H. Qed.

Lemma total_zero (h : entry -> Z) (l : list entry) :
  (forall e, In e l -> h e = 0) -> total (map h l) = 0.
Proof.
  induction l as [|a l IH]; simpl; intros H; [reflexivity|].
  rewrite (H a), IH; auto.
Qed.

(** The objects the loop leaves are the rows the selected entries become. *)
Lemma clear_dues_objects (tbl : table) (m : string) (P : num) :
  primary_key tbl ->
  map (after (db (clear_dues tbl (POST {| f_m_name' := m; f_amount_paid := P |}))))
      (entries_with_dues tbl m)
  = fst (settle_loop (entries_with_dues tbl m) P).
Proof.
  intros Hpk. rewrite clear_dues_post. simpl.
  rewrite <- (after_aligned (entries_with_dues tbl m)
                (fst (settle_loop (entries_with_dues tbl m) P))) at 2.
  - apply map_ext_in. intros e He. apply after_commit; auto.
    apply (entries_with_dues_incl tbl m), He.
  - apply entries_with_dues_ids, Hpk.
  - apply settle_loop_ids.
Qed.

(** A row the query did not select is as it was. *)
Lemma clear_dues_unselected (tbl : table) (m : string) (P : num) (e : entry) :
  primary_key tbl -> In e tbl -> has_dues m e = false ->
  after (db (clear_dues tbl (POST {| f_m_name' := m; f_amount_paid := P |}))) e = e.
Proof.
  intros Hpk He Hc.
  destruct (clear_dues_rows (fun _ _ => True) tbl m P Hpk) as [_ Hrows].
  { apply (settle_loop_Forall2 (fun _ => True) (fun _ => True)); auto.
    apply Forall_forall. auto. }
  destruct (Hrows e He) as [[Hin _]|[_ Hsame]]; [|exact Hsame].
  apply entries_with_dues_In in Hin. destruct Hin as (_ & Hm & Hd).
  unfold has_dues in Hc. rewrite Hd, andb_true_r in Hc.
  apply String.eqb_neq in Hc. contradiction.
Qed.

(** After a settlement that leaves exact dues, none negative, the merchant's
    outstanding total is the total of what the selected entries became. *)
Lemma outstanding_after (tbl : table) (m : string) (P : num) :
  primary_key tbl ->
  Forall (fun e' => exact_ok (DairyEntry.due e') /\ 0 <= due_value e')
         (fst (settle_loop (entries_with_dues tbl m) P)) ->
  outstanding (db (clear_dues tbl (POST {| f_m_name' := m; f_amount_paid := P |}))) m
  = total (map due_value (fst (settle_loop (entries_with_dues tbl m) P))).
Proof.
  intros Hpk Hnn.
  pose proof (clear_dues_objects tbl m P Hpk) as Hobjs.
  destruct (clear_dues_rows
              (fun e e' => same_identity e e'
                           /\ exact_ok (DairyEntry.due e') /\ 0 <= due_value e')
              tbl m P Hpk) as [Heq Hrows].
  { apply Forall2_and_right; [|exact Hnn].
    apply (settle_loop_Forall2 (fun _ => True) (fun _ => True)); auto.
    - intros e _. apply same_identity_refl.
    - intros e r _ _ _. split; [apply same_identity_pay | exact Logic.I].
    - apply Forall_forall. auto. }
  set (tbl' := db _) in *.
  unfold outstanding. rewrite Heq at 1. rewrite total_filter_map.
  rewrite (total_split (has_dues m)).
  rewrite (total_zero _ (filter (fun e => negb (has_dues m e)) tbl)).
  - rewrite Z.add_0_r. rewrite <- Hobjs, map_map.
    rewrite (total_perm _ _ (Permutation_map _ (entries_with_dues_perm tbl m))).
    apply total_ext_in. intros e He. apply filter_In in He. destruct He as [He Hc].
    destruct (Hrows e He) as [[Hin [Hid [Hok Hv]]]|[Hout _]].
    + unfold has_dues. destruct Hid as (_ & _ & -> & _).
      unfold has_dues in Hc. apply andb_true_iff in Hc. destruct Hc as [-> _]. simpl.
      rewrite (ltb_exact n0 _ exact_n0 Hok), val_n0. fold (due_value (after tbl' e)).
      destruct (0 <? due_value (after tbl' e)) eqn:C; [reflexivity|].
      apply Z.ltb_ge in C. lia.
    + exfalso. apply Hout. apply entries_with_dues_In.
      unfold has_dues in Hc. apply andb_true_iff in Hc. destruct Hc as [Hm Hd].
      apply String.eqb_eq in Hm. auto.
  - intros e He. apply filter_In in He. destruct He as [He Hc].
    apply negb_true_iff in Hc.
    unfold tbl'. rewrite (clear_dues_unselected tbl m P e Hpk He Hc), Hc. reflexivity.
Qed.

(** C3 (where the arithmetic is exact). A payment [P] with [0 <= P <= T],
    [T] the merchant's total outstanding due, leaves the total at [T - P];
    the oldest entries are zeroed in order until [P] is absorbed, at most
    one entry is partially reduced, the entries after it are untouched. *)
Theorem clear_dues_partial_payment (tbl : table) (m : string) (P : num) :
  primary_key tbl ->
  exact_dues tbl m ->
  exact_ok P ->
  0 <= val P <= outstanding tbl m ->
  let tbl' := db (clear_dues tbl (POST {| f_m_name' := m; f_amount_paid := P |})) in
  outstanding tbl' m = outstanding tbl m - val P
  /\ absorbed (entries_with_dues tbl m)
              (map (after tbl') (entries_with_dues tbl m)) (val P).
Proof.
  intros Hpk Hdues HPok HP tbl'. unfold tbl'.
  pose proof (entries_with_dues_payable tbl m Hdues) as Hpay.
  pose proof (settle_loop_absorbed (entries_with_dues tbl m) P HPok (proj1 HP) Hpay)
    as Habs.
  pose proof (absorbed_total _ _ _ (proj1 HP) Hpay Habs) as Ht.
  pose proof (settle_loop_exact (entries_with_dues tbl m) P HPok (proj1 HP) Hpay)
    as Hnn.
  split.
  - rewrite (outstanding_after tbl m P Hpk Hnn), Ht, <- outstanding_entries. lia.
  - rewrite (clear_dues_objects tbl m P Hpk). exact Habs.
Qed.

(** C7 (where the arithmetic is exact). A payment above the merchant's
    total outstanding due raises nothing: every entry with [due > 0] is paid
    its own due and ends at zero, every other row is as it was, the total
    outstanding is zero, and the positive remainder is dropped; the response
    is the usual redirect and message. *)
Theorem clear_dues_overpayment (tbl : table) (m : string) (P : num) :
  primary_key tbl ->
  exact_dues tbl m ->
  exact_ok P ->
  outstanding tbl m < val P ->
  let o := clear_dues tbl (POST {| f_m_name' := m; f_amount_paid := P |}) in
  resp o = Redirect "clear_dues"
  /\ flashes o = [DuesUpdated m]
  /\ (forall e, In e tbl ->
        if has_dues m e
        then after (db o) e = pay_entry e (DairyEntry.due e)
             /\ due_value (after (db o) e) = 0
        else after (db o) e = e)
  /\ outstanding (db o) m = 0
  /\ val (snd (settle_loop (entries_with_dues tbl m) P)) = val P - outstanding tbl m.
Proof.
  intros Hpk Hdues HPok HP o.
  pose proof (entries_with_dues_payable tbl m Hdues) as Hpay.
  pose proof (total_payable_nonneg _ Hpay) as HT.
  rewrite outstanding_entries in HP.
  destruct (settle_loop_overpaid (entries_with_dues tbl m) P HPok HP Hpay)
    as [Hloop Hleft].
  assert (Hp0 : 0 <= val P) by lia.
  pose proof (settle_loop_absorbed (entries_with_dues tbl m) P HPok Hp0 Hpay) as Habs.
  pose proof (absorbed_total _ _ _ Hp0 Hpay Habs) as Ht.
  pose proof (settle_loop_exact (entries_with_dues tbl m) P HPok Hp0 Hpay) as Hnn.
  pose proof (clear_dues_objects tbl m P Hpk) as Hobjs. fold o in Hobjs.
  rewrite Hloop in Hobjs. simpl in Hobjs.
  split; [unfold o; rewrite clear_dues_post; reflexivity|].
  split; [unfold o; rewrite clear_dues_post; reflexivity|].
  split; [|split].
  - intros e He. destruct (has_dues m e) eqn:C.
    + assert (Hin : In e (entries_with_dues tbl m)).
      { apply entries_with_dues_In. unfold has_dues in C.
        apply andb_true_iff in C. destruct C as [Hm Hd].
        apply String.eqb_eq in Hm. auto. }
      assert (Hafter : after (db o) e = pay_entry e (DairyEntry.due e)).
      { clear -Hobjs Hin. revert Hobjs Hin.
        induction (entries_with_dues tbl m) as [|x l IH]; simpl; [tauto|].
        intros [= H1 H2] [->|Hin]; auto. }
      split; [exact Hafter|]. rewrite Hafter. unfold due_value. simpl.
      pose proof (Hdues e He C) as Hd.
      destruct (sub_exact (DairyEntry.due e) (DairyEntry.due e) Hd Hd) as [_ Hv].
      * rewrite Forall_forall in Hpay. destruct (Hpay e Hin) as [_ Hpos].
        unfold due_value in Hpos. lia.
      * rewrite Hv. lia.
    + apply clear_dues_unselected; assumption.
  - unfold o. rewrite (outstanding_after tbl m P Hpk Hnn), Ht. lia.
  - rewrite Hloop. simpl. rewrite Hleft, outstanding_entries. reflexivity.
Qed.

End ExactClaims.

(** ** Settlement never overshoots *)

Definition exactZ_MonotoneSub : MonotoneSub exactZ.
Proof.
  refine (@Build_MonotoneSub exactZ (fun _ => True) _ _ _ _ _ _); simpl.
  - intros a _. apply Z.leb_refl.
  - intros a b. rewrite Z.ltb_lt, Z.leb_le. lia.
  - intros r _. rewrite Z.leb_gt, Z.ltb_lt. lia.
  - intros a b _ _ _ _. rewrite Z.ltb_ge, Z.ltb_lt. lia.
  - intros a _. rewrite Z.ltb_lt, !Z.leb_le. lia.
  - intros a b _ _. rewrite !Z.ltb_lt, !Z.leb_le. lia.
Defined.

Section DueBounds.
Context {N : Number} {L : MonotoneSub N}.

(** One iteration of the loop that passes the [break] test. *)
Lemma settle_step_bounds (e : entry) (r : num) :
  amount_ok (DairyEntry.due e) -> nltb n0 (DairyEntry.due e) = true ->
  amount_ok r -> nleb r n0 = false ->
  let pay := py_min (DairyEntry.due e) r in
  (nleb n0 (DairyEntry.due (pay_entry e pay)) = true
   /\ nleb (DairyEntry.due (pay_entry e pay)) (DairyEntry.due e) = true)
  /\ amount_ok (nsub r pay).
Proof.
  intros Hd Hdpos Hr Hrpos pay. apply pos_of_not_le in Hrpos; [|exact Hr].
  unfold pay, py_min. simpl.
  destruct (nltb r (DairyEntry.due e)) eqn:C.
  - destruct (sub_lt (DairyEntry.due e) r Hd Hr Hrpos C) as (_ & H1 & H2).
    split; [split; assumption|]. apply (sub_self r Hr Hrpos).
  - destruct (sub_self (DairyEntry.due e) Hd Hdpos) as (_ & H1 & H2).
    split; [split; assumption|].
    destruct (lt_or_eq (DairyEntry.due e) r Hd Hr Hdpos Hrpos C) as [Hlt|<-].
    + apply (sub_lt r (DairyEntry.due e) Hr Hd Hdpos Hlt).
    + apply (sub_self (DairyEntry.due e) Hd Hdpos).
Qed.

(** On amounts with a monotone subtraction (the integers, the finite
    floats), settlement sets the due of an entry it selects to a value
    between zero and the prior due, inclusive, and leaves every other row
    as it was. *)
Lemma clear_dues_due_bounds (tbl : table) (m : string) (P : num) :
  primary_key tbl ->
  (forall e, In e tbl -> amount_ok (DairyEntry.due e)) ->
  amount_ok P ->
  Forall2 (fun e e' =>
             if has_dues m e
             then nleb n0 (DairyEntry.due e') = true
                  /\ nleb (DairyEntry.due e') (DairyEntry.due e) = true
             else e' = e)
          tbl
          (db (clear_dues tbl (POST {| f_m_name' := m; f_amount_paid := P |}))).
Proof.
  intros Hpk Hok HP.
  set (R := fun e e' : entry =>
              nleb n0 (DairyEntry.due e') = true
              /\ nleb (DairyEntry.due e') (DairyEntry.due e) = true).
  destruct (clear_dues_rows R tbl m P Hpk) as [Heq Hrows].
  { apply (settle_loop_Forall2 amount_ok
             (fun e => amount_ok (DairyEntry.due e) /\ nltb n0 (DairyEntry.due e) = true)).
    - intros e [Hd Hpos]. split; [apply lt_le, Hpos | apply leb_refl, Hd].
    - intros e r [Hd Hpos] Hr Hrpos. apply settle_step_bounds; assumption.
    - apply Forall_forall. intros e He. apply entries_with_dues_In in He.
      destruct He as (He & _ & Hd). split; [apply Hok, He | exact Hd].
    - exact HP. }
  set (tbl' := db _) in *.
  assert (G : Forall2 (fun e e' => if has_dues m e then R e e' else e' = e)
                tbl (map (after tbl') tbl)).
  { apply Forall2_map_right. intros e He.
    destruct (Hrows e He) as [[Hin HR]|[Hout Hsame]].
    - apply entries_with_dues_In in Hin. destruct Hin as (_ & Hm & Hd).
      unfold has_dues. rewrite Hd, andb_true_r.
      apply String.eqb_eq in Hm. rewrite Hm. exact HR.
    - destruct (has_dues m e) eqn:C; [|exact Hsame].
      exfalso. apply Hout. apply entries_with_dues_In.
      unfold has_dues in C. apply andb_true_iff in C. destruct C as [Hm Hd].
      apply String.eqb_eq in Hm. auto. }
  rewrite <- Heq in G. exact G.
Qed.

End DueBounds.

(** * Python floats: what settlement needs of binary64 *)

Module F64Facts.
Import F64.

Lemma fexp_fexp64 (e : Z) : fexp F64.prec F64.emax e = fexp64 e.
Proof. reflexivity. Qed.

Lemma digits_bounds (m : positive) :
  2 ^ (digits m - 1) <= Z.pos m < 2 ^ digits m.
Proof.
  unfold digits. induction m as [m IH|m IH|]; simpl digits2_pos.
  - rewrite Pos2Z.inj_succ. change (Z.pos m~1) with (2 * Z.pos m + 1).
    replace (Z.succ (Z.pos (digits2_pos m)) - 1) with (Z.succ (Z.pos (digits2_pos m) - 1)) by lia.
    rewrite !Z.pow_succ_r by lia. hide_pows. lia.
  - rewrite Pos2Z.inj_succ. change (Z.pos m~0) with (2 * Z.pos m).
    replace (Z.succ (Z.pos (digits2_pos m)) - 1) with (Z.succ (Z.pos (digits2_pos m) - 1)) by lia.
    rewrite !Z.pow_succ_r by lia. hide_pows. lia.
  - simpl. lia.
Qed.

Lemma digits_pos (m : positive) : 1 <= digits m.
Proof. unfold digits. lia. Qed.

Lemma digits_unique (m : positive) (k : Z) :
  2 ^ (k - 1) <= Z.pos m < 2 ^ k -> digits m = k.
Proof.
  intros [H1 H2]. pose proof (digits_bounds m) as [B1 B2].
  pose proof (digits_pos m) as Hd.
  assert (Hk : 0 < k).
  { destruct (Z_lt_le_dec 0 k) as [|Hk]; [assumption|].
    destruct (Z.eq_dec k 0) as [->|Hne].
    - simpl in H2. lia.
    - rewrite (Z.pow_neg_r 2 k) in H2 by lia. lia. }
  destruct (Z_lt_le_dec (digits m) k) as [Hlt|Hge].
  - assert (2 ^ digits m <= 2 ^ (k - 1)) by (apply Z.pow_le_mono_r; lia). lia.
  - destruct (Z_lt_le_dec k (digits m)) as [Hlt|Hle]; [|lia].
    assert (2 ^ k <= 2 ^ (digits m - 1)) by (apply Z.pow_le_mono_r; lia). lia.
Qed.

Lemma digits_le (m1 m2 : positive) :
  Z.pos m1 <= Z.pos m2 -> digits m1 <= digits m2.
Proof.
  intros H. pose proof (digits_bounds m1) as [B1 _].
  pose proof (digits_bounds m2) as [_ B2].
  pose proof (digits_pos m1). pose proof (digits_pos m2).
  destruct (Z_lt_le_dec (digits m2) (digits m1)) as [Hlt|]; [|assumption].
  assert (2 ^ digits m2 <= 2 ^ (digits m1 - 1)) by (apply Z.pow_le_mono_r; lia). lia.
Qed.

Lemma iter_xO (m d : positive) :
  Z.pos (Pos.iter xO m d) = Z.pos m * 2 ^ Z.pos d.
Proof.
  induction d as [|d IH] using Pos.peano_ind.
  - simpl. lia.
  - rewrite Pos.iter_succ. change (Z.pos (Pos.iter xO m d)~0) with (2 * Z.pos (Pos.iter xO m d)).
    rewrite IH, Pos2Z.inj_succ, Z.pow_succ_r by lia. lia.
Qed.

Lemma shl_align_lt (m : positive) (e e' : Z) :
  e' < e ->
  exists m', shl_align m e e' = (m', e') /\ Z.pos m' = Z.pos m * 2 ^ (e - e').
Proof.
  intros H. unfold shl_align. destruct (e' - e) as [|d|d] eqn:D; try lia.
  eexists. split; [reflexivity|]. rewrite iter_xO. f_equal. f_equal. lia.
Qed.

Lemma shl_align_ge (m : positive) (e e' : Z) :
  e <= e' -> shl_align m e e' = (m, e).
Proof.
  intros H. unfold shl_align. destruct (e' - e) as [|d|d] eqn:D; try lia; reflexivity.
Qed.

Lemma shr_1_m (mrs : shr_record) :
  0 <= shr_m mrs -> shr_m (shr_1 mrs) = shr_m mrs / 2.
Proof.
  destruct mrs as [m r s]. simpl. intros Hm.
  destruct m as [|[p|p|]|p]; simpl; try lia; try reflexivity.
  - change (Z.pos p~1) with (2 * Z.pos p + 1). apply Z.div_unique with (r := 1); lia.
  - change (Z.pos p~0) with (2 * Z.pos p). apply Z.div_unique with (r := 0); lia.
Qed.

Lemma iter_shr_1_m (n : positive) :
  forall mrs, 0 <= shr_m mrs ->
              shr_m (iter_pos shr_1 n mrs) = shr_m mrs / 2 ^ Z.pos n.
Proof.
  assert (Hnn : forall mrs, 0 <= shr_m mrs -> 0 <= shr_m (shr_1 mrs)).
  { intros mrs H. rewrite shr_1_m by assumption. apply Z.div_pos; lia. }
  induction n as [n IH|n IH|]; intros mrs Hm; simpl iter_pos.
  - rewrite IH, IH, shr_1_m by (try rewrite IH; try rewrite shr_1_m; 
        repeat (apply Z.div_pos; try lia); auto).
    rewrite !Z.div_div by (try apply Z.pow_pos_nonneg; lia).
    f_equal. change (Z.pos n~1) with (2 * Z.pos n + 1).
    replace (2 * Z.pos n + 1) with (1 + Z.pos n + Z.pos n) by lia.
    rewrite !Z.pow_add_r by lia. simpl (2 ^ 1). lia.
  - rewrite IH, IH by (try rewrite IH; repeat (apply Z.div_pos; try lia); auto;
                       apply Z.pow_pos_nonneg; lia).
    rewrite !Z.div_div by (try apply Z.pow_pos_nonneg; lia).
    f_equal. change (Z.pos n~0) with (2 * Z.pos n).
    replace (2 * Z.pos n) with (Z.pos n + Z.pos n) by lia.
    rewrite !Z.pow_add_r by lia. lia.
  - rewrite shr_1_m by assumption. reflexivity.
Qed.

Lemma shr_1_exact (mrs : shr_record) (k : Z) :
  0 <= shr_m mrs -> shr_r mrs = false -> shr_s mrs = false ->
  shr_m mrs = 2 * k ->
  shr_r (shr_1 mrs) = false /\ shr_s (shr_1 mrs) = false.
Proof.
  destruct mrs as [m r s]. intros Hm Hr Hs Hk.
  change (m = 2 * k) in Hk. simpl in Hm, Hr, Hs. subst r s.
  destruct m as [|[p|p|]|p]; simpl; try (split; reflexivity); lia.
Qed.

(** Shifting out bits that are all zero leaves an exact location. *)
Lemma iter_shr_1_exact (n : positive) :
  forall mrs k, 0 <= shr_m mrs -> shr_r mrs = false -> shr_s mrs = false ->
                shr_m mrs = k * 2 ^ Z.pos n ->
                shr_r (iter_pos shr_1 n mrs) = false
                /\ shr_s (iter_pos shr_1 n mrs) = false.
Proof.
  assert (Hp : forall q : positive, 0 < 2 ^ Z.pos q)
    by (intros q; apply Z.pow_pos_nonneg; lia).
  induction n as [n IH|n IH|]; intros mrs k Hm Hr Hs Hk; simpl iter_pos.
  - change (Z.pos n~1) with (2 * Z.pos n + 1) in Hk.
    replace (2 * Z.pos n + 1) with (1 + Z.pos n + Z.pos n) in Hk by lia.
    rewrite !Z.pow_add_r in Hk by lia. change (2 ^ 1) with 2 in Hk.
    pose proof (Hp n) as Hpn.
    destruct (shr_1_exact mrs (k * 2 ^ Z.pos n * 2 ^ Z.pos n) Hm Hr Hs ltac:(lia))
      as [Hr1 Hs1].
    assert (Hm1 : shr_m (shr_1 mrs) = k * 2 ^ Z.pos n * 2 ^ Z.pos n).
    { rewrite shr_1_m by exact Hm. rewrite Hk.
      replace (k * (2 * 2 ^ Z.pos n * 2 ^ Z.pos n))
        with (k * 2 ^ Z.pos n * 2 ^ Z.pos n * 2) by ring.
      apply Z.div_mul. lia. }
    assert (Hk0 : 0 <= k * 2 ^ Z.pos n * 2 ^ Z.pos n) by (rewrite <- Hm1, shr_1_m by exact Hm; apply Z.div_pos; lia).
    destruct (IH (shr_1 mrs) (k * 2 ^ Z.pos n) ltac:(lia) Hr1 Hs1 Hm1) as [Hr2 Hs2].
    assert (Hm2 : shr_m (iter_pos shr_1 n (shr_1 mrs)) = k * 2 ^ Z.pos n).
    { rewrite iter_shr_1_m by lia. rewrite Hm1. apply Z.div_mul. lia. }
    apply (IH _ k); auto. rewrite Hm2. rewrite <- Hm2, iter_shr_1_m by lia.
    apply Z.div_pos; lia.
  - change (Z.pos n~0) with (2 * Z.pos n) in Hk.
    replace (2 * Z.pos n) with (Z.pos n + Z.pos n) in Hk by lia.
    rewrite Z.pow_add_r, Z.mul_assoc in Hk by lia.
    pose proof (Hp n) as Hpn.
    destruct (IH mrs (k * 2 ^ Z.pos n) Hm Hr Hs Hk) as [Hr1 Hs1].
    assert (Hm1 : shr_m (iter_pos shr_1 n mrs) = k * 2 ^ Z.pos n).
    { rewrite iter_shr_1_m by exact Hm. rewrite Hk. apply Z.div_mul. lia. }
    apply (IH _ k); auto. rewrite iter_shr_1_m by exact Hm. apply Z.div_pos; lia.
  - change (2 ^ 1) with 2 in Hk. apply (shr_1_exact mrs k); auto. lia.
Qed.

Lemma shr_spec (mrs : shr_record) (e n : Z) :
  0 <= shr_m mrs -> 0 <= n ->
  exists mrs' e', shr mrs e n = (mrs', e') /\ e' = e + n
                  /\ shr_m mrs' = shr_m mrs / 2 ^ n
                  /\ (shr_r mrs = false -> shr_s mrs = false ->
                      (exists k, shr_m mrs = k * 2 ^ n) ->
                      loc_of_shr_record mrs' = loc_Exact).
Proof.
  intros Hm Hn. unfold shr. destruct n as [|p|p]; try lia.
  - exists mrs, e. repeat split; [lia| |].
    + simpl. rewrite Z.div_1_r. reflexivity.
    + intros Hr Hs _. destruct mrs as [m r s]. simpl in *. subst. reflexivity.
  - eexists _, _. repeat split; [apply iter_shr_1_m, Hm|].
    intros Hr Hs [k Hk].
    destruct (iter_shr_1_exact p mrs k Hm Hr Hs Hk) as [Hr' Hs'].
    destruct (iter_pos shr_1 p mrs) as [m' r' s']. simpl in *. subst. reflexivity.
Qed.

Lemma round_nearest_even_cases (m : Z) (l : location) :
  round_nearest_even m l = m \/ round_nearest_even m l = m + 1.
Proof.
  destruct l as [|[| |]]; simpl; auto. destruct (Z.even m); auto.
Qed.

Lemma canonical_mantissa_iff (m : positive) (e : Z) :
  canonical_mantissa F64.prec F64.emax m e = true <-> canonical m e.
Proof. unfold canonical_mantissa, canonical. rewrite Z.eqb_eq. reflexivity. Qed.

Lemma binary_round_aux_pos (mz : positive) (ez : Z) :
  -1074 <= ez ->
  ez <= fexp64 (digits mz + ez) ->
  let E := fexp64 (digits mz + ez) in
  exists m'' e'',
    binary_round_aux F64.prec F64.emax false (Z.pos mz) ez loc_Exact = rounded m'' e''
    /\ canonical m'' e''
    /\ E <= e''
    /\ Z.pos m'' * 2 ^ (e'' - E) <= Z.pos mz / 2 ^ (E - ez) + 1
    /\ ((exists k, Z.pos mz = k * 2 ^ (E - ez)) ->
        Z.pos m'' * 2 ^ (e'' - E) = Z.pos mz / 2 ^ (E - ez)).
Proof.
  intros Hmin Hle E.
  unfold binary_round_aux, shr_fexp. rewrite !fexp_fexp64.
  change (Zdigits2 (Z.pos mz)) with (digits mz). fold E.
  assert (HEdef : E = fexp64 (digits mz + ez)) by reflexivity.
  clearbody E. rewrite <- HEdef in Hle.
  destruct (shr_spec (shr_record_of_loc (Z.pos mz) loc_Exact) ez (E - ez))
    as (mrs' & e' & Hshr & He' & Hm' & Hloc); [simpl; lia | lia |].
  rewrite Hshr. simpl shr_m in Hm'.
  specialize (Hloc eq_refl eq_refl). simpl shr_m in Hloc.
  assert (He : e' = E) by lia. clear He'. subst e'.
  set (m1 := round_nearest_even (shr_m mrs') (loc_of_shr_record mrs')).
  destruct (Z.eq_dec E ez) as [Heq|Hne].
  - (* no shift: the number is representable as it is *)
    assert (Hmrs : mrs' = shr_record_of_loc (Z.pos mz) loc_Exact).
    { unfold shr in Hshr. rewrite Heq, Z.sub_diag in Hshr. congruence. }
    assert (Hm1 : m1 = Z.pos mz) by (unfold m1; rewrite Hmrs; reflexivity).
    rewrite Hm1. change (Zdigits2 (Z.pos mz)) with (digits mz).
    clear Hshr Hm' Hmrs Hm1 m1 Hloc. rewrite Heq in HEdef. rewrite !Heq.
    change (fexp F64.prec F64.emax (digits mz + ez)) with (fexp64 (digits mz + ez)).
    rewrite <- HEdef, Z.sub_diag. simpl.
    exists mz, ez. unfold rounded. split; [reflexivity|].
    split; [unfold canonical; symmetry; exact HEdef|].
    split; [lia|].
    rewrite Z.sub_diag. simpl. rewrite Z.div_1_r. split; [lia|intros _; lia].
  - (* a shift by [digits mz - 53] bits leaves 53 bits *)
    assert (HE : E = digits mz + ez - 53) by (unfold fexp64 in *; lia).
    set (n := E - ez) in *.
    assert (Hn : 0 < n) by lia.
    assert (HD : digits mz = n + 53) by lia.
    pose proof (digits_bounds mz) as [B1 B2]. rewrite HD in B1, B2.
    replace (n + 53 - 1) with (52 + n) in B1 by lia.
    replace (n + 53) with (53 + n) in B2 by lia.
    rewrite Z.pow_add_r in B1, B2 by lia.
    assert (Hp : 0 < 2 ^ n) by (apply Z.pow_pos_nonneg; lia).
    assert (Hlo : 2 ^ 52 <= shr_m mrs').
    { rewrite Hm'. apply Z.div_le_lower_bound; lia. }
    assert (Hhi : shr_m mrs' < 2 ^ 53).
    { rewrite Hm'. apply Z.div_lt_upper_bound; lia. }
    assert (Hm1 : m1 = shr_m mrs' \/ m1 = shr_m mrs' + 1)
      by apply round_nearest_even_cases.
    assert (Hexact : (exists k, Z.pos mz = k * 2 ^ n) -> m1 = shr_m mrs').
    { intros Hk. unfold m1. rewrite (Hloc Hk). reflexivity. }
    assert (Hm1pos : 0 < m1) by (change (2 ^ 52) with 4503599627370496 in Hlo; lia).
    change (2 ^ 53) with 9007199254740992 in Hhi.
    clearbody m1. clear Hloc.
    destruct m1 as [|p1|p1]; try lia.
    change (Zdigits2 (Z.pos p1)) with (digits p1).
    change (fexp F64.prec F64.emax (digits p1 + E)) with (fexp64 (digits p1 + E)).
    destruct (Z_lt_le_dec (Z.pos p1) (2 ^ 53)) as [Hlt|Hge].
    + (* still 53 bits *)
      assert (Hd1 : digits p1 = 53) by (apply digits_unique; simpl (53 - 1); lia).
      rewrite Hd1.
      replace (fexp64 (53 + E) - E) with 0 by (unfold fexp64; lia).
      exists p1, E. unfold rounded. split; [simpl; reflexivity|].
      split; [unfold canonical; rewrite Hd1; unfold fexp64; lia|].
      split; [lia|].
      rewrite Z.sub_diag. change (2 ^ 0) with 1. rewrite <- Hm'.
      split; [lia|]. intros Hk. specialize (Hexact Hk). lia.
    + (* the carry: 2^53, renormalised to 2^52 *)
      change (2 ^ 53) with 9007199254740992 in Hge.
      assert (Hp1 : Z.pos p1 = 9007199254740992) by lia.
      assert (Hd1 : digits p1 = 54).
      { apply digits_unique. rewrite Hp1. split; [discriminate|reflexivity]. }
      rewrite Hd1.
      replace (fexp64 (54 + E) - E) with 1 by (unfold fexp64; lia).
      assert (Hp1' : p1 = 9007199254740992%positive) by congruence.
      exists 4503599627370496%positive, (E + 1). unfold rounded.
      split; [subst p1; simpl; reflexivity|].
      split; [unfold canonical; change (digits 4503599627370496) with 53;
              unfold fexp64; lia|].
      split; [lia|].
      replace (E + 1 - E) with 1 by lia. rewrite <- Hm'. change (2 ^ 1) with 2.
      split; [lia|]. intros Hk. specialize (Hexact Hk). lia.
Qed.

Lemma digits_shift (m m' : positive) (k : Z) :
  0 <= k -> Z.pos m' = Z.pos m * 2 ^ k -> digits m' = digits m + k.
Proof.
  intros Hk Hm. apply digits_unique. rewrite Hm.
  pose proof (digits_bounds m) as [B1 B2]. pose proof (digits_pos m) as Hd.
  replace (digits m + k - 1) with (digits m - 1 + k) by plia.
  rewrite !Z.pow_add_r by plia.
  assert (0 < 2 ^ k) by (apply Z.pow_pos_nonneg; plia).
  pnia.
Qed.

Lemma canonical_ge (m : positive) (e : Z) : canonical m e -> -1074 <= e.
Proof. unfold canonical, fexp64. lia. Qed.

Lemma scaled_lt_exp (m1 m2 : positive) (e1 e2 : Z) :
  canonical m1 e1 -> canonical m2 e2 -> e1 < e2 ->
  scaled m1 e1 < scaled m2 e2.
Proof.
  intros C1 C2 He. pose proof (canonical_ge _ _ C1) as G1.
  assert (Hd : digits m1 + e1 < digits m2 + e2)
    by (unfold canonical, fexp64 in *; plia).
  pose proof (digits_bounds m1) as [_ B1]. pose proof (digits_bounds m2) as [B2 _].
  pose proof (digits_pos m1). pose proof (digits_pos m2).
  unfold scaled.
  assert (H1 : Z.pos m1 * 2 ^ (e1 + 1074) < 2 ^ (digits m1 + e1 + 1074)).
  { replace (digits m1 + e1 + 1074) with (digits m1 + (e1 + 1074)) by plia.
    rewrite (Z.pow_add_r 2 (digits m1) (e1 + 1074)) by plia.
    assert (0 < 2 ^ (e1 + 1074)) by (apply Z.pow_pos_nonneg; plia).
    pnia. }
  assert (H2 : 2 ^ (digits m2 - 1 + (e2 + 1074)) <= Z.pos m2 * 2 ^ (e2 + 1074)).
  { rewrite (Z.pow_add_r 2 (digits m2 - 1) (e2 + 1074)) by plia.
    assert (0 < 2 ^ (e2 + 1074)) by (apply Z.pow_pos_nonneg; plia).
    pnia. }
  assert (H3 : 2 ^ (digits m1 + e1 + 1074) <= 2 ^ (digits m2 - 1 + (e2 + 1074)))
    by (apply Z.pow_le_mono_r; plia).
  lia.
Qed.

Lemma SFcompare_canonical (m1 m2 : positive) (e1 e2 : Z) :
  canonical m1 e1 -> canonical m2 e2 ->
  SFcompare (S754_finite false m1 e1) (S754_finite false m2 e2)
  = Some (scaled m1 e1 ?= scaled m2 e2).
Proof.
  intros C1 C2. simpl. f_equal.
  destruct (Z.compare_spec e1 e2) as [Heq|Hlt|Hgt].
  - subst e2. pose proof (canonical_ge _ _ C1) as G1. unfold scaled.
    assert (Hp : 0 < 2 ^ (e1 + 1074)) by (apply Z.pow_pos_nonneg; plia).
    change (Pos.compare_cont Eq m1 m2) with (Z.pos m1 ?= Z.pos m2).
    rewrite Z.mul_comm, (Z.mul_comm (Z.pos m2)).
    apply Zmult_compare_compat_l. lia.
  - symmetry. apply Z.compare_lt_iff. apply scaled_lt_exp; assumption.
  - symmetry. apply Z.compare_gt_iff. apply scaled_lt_exp; assumption.
Qed.

Lemma bounded_iff (m : positive) (e : Z) :
  bounded F64.prec F64.emax m e = true <-> canonical m e /\ e <= 971.
Proof.
  unfold bounded. rewrite andb_true_iff, canonical_mantissa_iff, Z.leb_le.
  reflexivity.
Qed.

Lemma fexp64_mono (x y : Z) : x <= y -> fexp64 x <= fexp64 y.
Proof. unfold fexp64. lia. Qed.

Lemma scaled_split (m : positive) (e e0 : Z) :
  -1074 <= e0 <= e ->
  scaled m e = Z.pos m * 2 ^ (e - e0) * 2 ^ (e0 + 1074).
Proof.
  intros H. unfold scaled. rewrite <- Z.mul_assoc, <- Z.pow_add_r by lia.
  do 2 f_equal. lia.
Qed.

Lemma scaled_bounds (m : positive) (e : Z) :
  -1074 <= e ->
  2 ^ (digits m - 1 + (e + 1074)) <= scaled m e < 2 ^ (digits m + (e + 1074)).
Proof.
  intros He. unfold scaled.
  pose proof (digits_bounds m) as [B1 B2]. pose proof (digits_pos m).
  rewrite (Z.pow_add_r 2 (digits m - 1)), (Z.pow_add_r 2 (digits m)) by lia.
  assert (0 < 2 ^ (e + 1074)) by (apply Z.pow_pos_nonneg; lia).
  pnia.
Qed.

(** A smaller value has no more digits above the binary point. *)
Lemma scaled_le_digits (m1 m2 : positive) (e1 e2 : Z) :
  -1074 <= e1 -> -1074 <= e2 ->
  scaled m1 e1 <= scaled m2 e2 -> digits m1 + e1 <= digits m2 + e2.
Proof.
  intros H1 H2 Hle.
  pose proof (scaled_bounds m1 e1 H1) as [B1 _].
  pose proof (scaled_bounds m2 e2 H2) as [_ B2].
  pose proof (digits_pos m1). pose proof (digits_pos m2).
  assert (Hlt : 2 ^ (digits m1 - 1 + (e1 + 1074)) < 2 ^ (digits m2 + (e2 + 1074))) by lia.
  apply Z.pow_lt_mono_r_iff in Hlt; lia.
Qed.

(** Rounding the positive integer [M * 2^e]: the result is a canonical
    float, not above any float that is above the exact value, and the exact
    value itself when that is a float. *)
Lemma binary_round_pos (M : positive) (e : Z) :
  -1074 <= e ->
  exists m'' e'',
    binary_round F64.prec F64.emax false M e = rounded m'' e''
    /\ canonical m'' e''
    /\ (forall ma ea, canonical ma ea -> scaled M e < scaled ma ea ->
                      scaled m'' e'' <= scaled ma ea)
    /\ ((exists m0 e0, canonical m0 e0 /\ scaled m0 e0 = scaled M e) ->
        scaled m'' e'' = scaled M e).
Proof.
  intros He. unfold binary_round. rewrite fexp_fexp64.
  change (Z.pos (digits2_pos M)) with (digits M).
  set (E0 := fexp64 (digits M + e)).
  assert (Hmin0 : -1074 <= E0) by (unfold E0, fexp64; lia).
  destruct (Z_lt_le_dec E0 e) as [Hsh|Hsh].
  - (* fewer bits than the format has: nothing to round *)
    destruct (shl_align_lt M e E0 Hsh) as (mz & -> & Hmz).
    pose proof (digits_shift M mz (e - E0) ltac:(lia) Hmz) as Hdz.
    assert (HEz : fexp64 (digits mz + E0) = E0).
    { rewrite Hdz. replace (digits M + (e - E0) + E0) with (digits M + e) by lia.
      reflexivity. }
    destruct (binary_round_aux_pos mz E0 Hmin0 ltac:(lia))
      as (m'' & e'' & Hr & Hc & HEe & _ & Hex).
    rewrite HEz in HEe, Hex. rewrite Z.sub_diag, Z.div_1_r in Hex.
    assert (Hv : scaled m'' e'' = scaled M e).
    { rewrite (scaled_split m'' e'' E0) by lia.
      rewrite Hex by (exists (Z.pos mz); simpl; lia).
      rewrite (scaled_split M e E0) by lia. rewrite Hmz. reflexivity. }
    exists m'', e''. split; [exact Hr|]. split; [exact Hc|].
    split; [intros ma ea _ Hlt; lia | intros _; exact Hv].
  - (* rounding to the exponent [E0] *)
    rewrite shl_align_ge by exact Hsh.
    destruct (binary_round_aux_pos M e He Hsh)
      as (m'' & e'' & Hr & Hc & HEe & Hval & Hex).
    fold E0 in HEe, Hval, Hex.
    assert (Hpn : 0 < 2 ^ (E0 - e)) by (apply Z.pow_pos_nonneg; lia).
    assert (Hp0 : 0 < 2 ^ (E0 + 1074)) by (apply Z.pow_pos_nonneg; lia).
    assert (Hpe : 0 < 2 ^ (e + 1074)) by (apply Z.pow_pos_nonneg; lia).
    assert (Hsplit : 2 ^ (E0 + 1074) = 2 ^ (E0 - e) * 2 ^ (e + 1074)).
    { rewrite <- Z.pow_add_r by lia. f_equal. lia. }
    exists m'', e''. split; [exact Hr|]. split; [exact Hc|]. split.
    + intros ma ea Ca Hlt. pose proof (canonical_ge _ _ Ca) as Ga.
      assert (HE0 : E0 <= ea).
      { unfold E0. unfold canonical in Ca. rewrite <- Ca. apply fexp64_mono.
        apply scaled_le_digits; lia. }
      set (X := Z.pos ma * 2 ^ (ea - E0)).
      rewrite (scaled_split ma ea E0) in * by lia. fold X in Hlt |- *.
      rewrite (scaled_split m'' e'' E0) by lia.
      assert (Hq : Z.pos M / 2 ^ (E0 - e) < X).
      { apply Z.div_lt_upper_bound; [exact Hpn|].
        unfold scaled in Hlt. rewrite Hsplit in Hlt. pnia. }
      apply Z.mul_le_mono_nonneg_r; lia.
    + intros (m0 & e0 & C0 & Hv0). pose proof (canonical_ge _ _ C0) as G0.
      assert (Hd : digits m0 + e0 = digits M + e).
      { apply Z.le_antisymm; apply scaled_le_digits; lia. }
      assert (He0 : e0 = E0) by (unfold E0; rewrite <- Hd; symmetry; exact C0).
      subst e0.
      assert (HM : Z.pos M = Z.pos m0 * 2 ^ (E0 - e)).
      { unfold scaled in Hv0. rewrite Hsplit in Hv0. pnia. }
      rewrite (scaled_split m'' e'' E0) by lia.
      rewrite Hex by (exists (Z.pos m0); exact HM).
      rewrite HM, Z.div_mul by lia. rewrite <- Hv0. reflexivity.
Qed.

(** Subtracting a smaller positive float: the result is a positive float,
    well formed and not above the minuend; it is the exact difference when
    that is a float. *)
Lemma sub_pos_lt (ma mb : positive) (ea eb : Z) :
  canonical ma ea -> ea <= 971 -> canonical mb eb ->
  scaled mb eb < scaled ma ea ->
  exists m'' e'',
    F64.sub (S754_finite false ma ea) (S754_finite false mb eb)
    = S754_finite false m'' e''
    /\ canonical m'' e'' /\ e'' <= 971
    /\ scaled m'' e'' <= scaled ma ea
    /\ ((exists m0 e0, canonical m0 e0
                       /\ scaled m0 e0 = scaled ma ea - scaled mb eb) ->
        scaled m'' e'' = scaled ma ea - scaled mb eb).
Proof.
  intros Ca Hea Cb Hlt.
  pose proof (canonical_ge _ _ Ca) as Ga. pose proof (canonical_ge _ _ Cb) as Gb.
  assert (Heb : eb <= ea).
  { destruct (Z_lt_le_dec ea eb) as [H|H]; [|exact H].
    pose proof (scaled_lt_exp ma mb ea eb Ca Cb H). lia. }
  (* alignment of the two mantissas on the exponent [eb] *)
  assert (Ha' : exists ma', fst (shl_align ma ea eb) = ma'
                            /\ Z.pos ma' = Z.pos ma * 2 ^ (ea - eb)).
  { destruct (Z_lt_le_dec eb ea) as [H|H].
    - destruct (shl_align_lt ma ea eb H) as (ma' & -> & Hma'). exists ma'. auto.
    - rewrite shl_align_ge by exact H. exists ma. split; [reflexivity|].
      replace (ea - eb) with 0 by lia. simpl. lia. }
  destruct Ha' as (ma' & Hfst & Hma').
  assert (Hsa : scaled ma ea = Z.pos ma' * 2 ^ (eb + 1074)).
  { rewrite (scaled_split ma ea eb) by lia. rewrite Hma'. reflexivity. }
  assert (Hpb : 0 < 2 ^ (eb + 1074)) by (apply Z.pow_pos_nonneg; lia).
  assert (HM : Z.pos mb < Z.pos ma').
  { rewrite Hsa in Hlt. unfold scaled in Hlt. pnia. }
  destruct (Z.pos ma' - Z.pos mb) as [|M|M] eqn:EM; try lia.
  assert (HV : scaled M eb = scaled ma ea - scaled mb eb).
  { rewrite Hsa. unfold scaled. rewrite <- EM. ring. }
  unfold F64.sub, SFsub. rewrite (Z.min_r ea eb) by exact Heb.
  rewrite Hfst, (shl_align_ge mb eb eb) by lia.
  simpl fst. simpl cond_Zopp. rewrite EM. simpl binary_normalize.
  destruct (binary_round_pos M eb Gb) as (m'' & e'' & Hr & Hc & Hub & Hex).
  assert (Hle : scaled m'' e'' <= scaled ma ea).
  { apply Hub; [exact Ca|]. unfold scaled in *. pnia. }
  assert (He'' : e'' <= ea).
  { destruct (Z_lt_le_dec ea e'') as [H|H]; [|exact H].
    pose proof (scaled_lt_exp ma m'' ea e'' Ca Hc H). lia. }
  exists m'', e''. rewrite Hr. unfold rounded.
  replace (e'' <=? 971) with true by (symmetry; apply Z.leb_le; lia).
  split; [reflexivity|]. split; [exact Hc|]. split; [lia|]. split; [exact Hle|].
  rewrite <- HV. exact Hex.
Qed.

Lemma SFcompare_refl (a : spec_float) :
  F64.is_finite a = true -> SFcompare a a = Some Eq.
Proof.
  destruct a as [s|s| |s m e]; simpl; try discriminate; intros _; [reflexivity|].
  rewrite Z.compare_refl.
  change (Pos.compare_cont Eq m m) with (Pos.compare m m).
  rewrite Pos.compare_refl. destruct s; reflexivity.
Qed.

(** A float above zero is a positive finite float or [+inf]. *)
Lemma positive_finite (a : spec_float) :
  finite_amount a -> SFltb F64.pos_zero a = true ->
  exists m e, a = S754_finite false m e /\ canonical m e /\ e <= 971.
Proof.
  intros [Hv Hf] Hpos. destruct a as [s|s| |s m e]; simpl in *; try discriminate.
  destruct s; [discriminate|].
  exists m, e. split; [reflexivity|]. apply bounded_iff, Hv.
Qed.

Lemma finite_amount_intro (m : positive) (e : Z) :
  canonical m e -> e <= 971 -> finite_amount (S754_finite false m e).
Proof.
  intros Hc He. split; [|reflexivity]. simpl. apply bounded_iff. auto.
Qed.

Lemma f64_leb_refl (a : spec_float) : finite_amount a -> SFleb a a = true.
Proof.
  intros [_ Hf]. unfold SFleb. rewrite SFcompare_refl by exact Hf. reflexivity.
Qed.

Lemma f64_pos_of_not_le (r : spec_float) :
  finite_amount r -> SFleb r F64.pos_zero = false -> SFltb F64.pos_zero r = true.
Proof.
  intros [_ Hf]. destruct r as [s|s| |s m e]; simpl in *; try discriminate.
  destruct s; [discriminate|reflexivity].
Qed.

(** Two canonical floats with the same value are the same float. *)
Lemma scaled_inj (m1 m2 : positive) (e1 e2 : Z) :
  canonical m1 e1 -> canonical m2 e2 -> scaled m1 e1 = scaled m2 e2 ->
  m1 = m2 /\ e1 = e2.
Proof.
  intros C1 C2 Heq.
  assert (He : e1 = e2).
  { destruct (Z.lt_trichotomy e1 e2) as [H|[H|H]]; [|exact H|].
    - pose proof (scaled_lt_exp m1 m2 e1 e2 C1 C2 H). lia.
    - pose proof (scaled_lt_exp m2 m1 e2 e1 C2 C1 H). lia. }
  subst e2. split; [|reflexivity]. unfold scaled in Heq.
  assert (0 < 2 ^ (e1 + 1074))
    by (apply Z.pow_pos_nonneg; pose proof (canonical_ge _ _ C1); lia).
  assert (Z.pos m1 = Z.pos m2) by pnia. congruence.
Qed.

Lemma f64_lt_or_eq (a b : spec_float) :
  finite_amount a -> finite_amount b ->
  SFltb F64.pos_zero a = true -> SFltb F64.pos_zero b = true ->
  SFltb b a = false -> SFltb a b = true \/ a = b.
Proof.
  intros Ha Hb Hapos Hbpos Hnlt.
  destruct (positive_finite a Ha Hapos) as (ma & ea & -> & Ca & _).
  destruct (positive_finite b Hb Hbpos) as (mb & eb & -> & Cb & _).
  unfold SFltb in *. rewrite SFcompare_canonical in * by assumption.
  destruct (Z.compare_spec (scaled mb eb) (scaled ma ea)) as [Heq|Hlt|Hgt];
    try discriminate.
  - right. destruct (scaled_inj mb ma eb ea Cb Ca Heq) as [-> ->]. reflexivity.
  - left. apply Z.compare_lt_iff in Hgt. rewrite Hgt. reflexivity.
Qed.

Lemma f64_sub_self (a : spec_float) :
  finite_amount a -> SFltb F64.pos_zero a = true ->
  finite_amount (F64.sub a a)
  /\ SFleb F64.pos_zero (F64.sub a a) = true
  /\ SFleb (F64.sub a a) a = true.
Proof.
  intros Ha Hapos.
  destruct (positive_finite a Ha Hapos) as (m & e & -> & _ & _).
  unfold F64.sub, SFsub. cbv zeta. rewrite Z.sub_diag. simpl binary_normalize.
  repeat split.
Qed.

Lemma f64_sub_lt (a b : spec_float) :
  finite_amount a -> finite_amount b ->
  SFltb F64.pos_zero b = true -> SFltb b a = true ->
  finite_amount (F64.sub a b)
  /\ SFleb F64.pos_zero (F64.sub a b) = true
  /\ SFleb (F64.sub a b) a = true.
Proof.
  intros Ha Hb Hbpos Hlt.
  destruct (positive_finite b Hb Hbpos) as (mb & eb & -> & Cb & Heb).
  assert (Hapos : SFltb F64.pos_zero a = true).
  { destruct Ha as [_ Hf]. destruct a as [s|s| |s m e]; simpl in *; try discriminate.
    destruct s; [discriminate|reflexivity]. }
  destruct (positive_finite a Ha Hapos) as (ma & ea & -> & Ca & Hea).
  unfold SFltb in Hlt. rewrite SFcompare_canonical in Hlt by assumption.
  destruct (Z.compare_spec (scaled mb eb) (scaled ma ea)) as [|Hs|]; try discriminate.
  destruct (sub_pos_lt ma mb ea eb Ca Hea Cb Hs) as (m'' & e'' & -> & Hc & He & Hle & _).
  split; [apply finite_amount_intro; assumption|].
  split; [reflexivity|].
  unfold SFleb. rewrite SFcompare_canonical by assumption.
  destruct (Z.compare_spec (scaled m'' e'') (scaled ma ea)); try reflexivity. lia.
Qed.

(** Python floats, restricted to finite amounts, have a monotone
    subtraction. *)
Definition binary64_MonotoneSub : MonotoneSub binary64 :=
  @Build_MonotoneSub binary64 finite_amount
    f64_leb_refl binary64_OrderLaws f64_pos_of_not_le
    f64_lt_or_eq f64_sub_self f64_sub_lt.

(** *** Whole amounts *)

Lemma same_float_eq (x y : spec_float) : same_float x y = true -> x = y.
Proof.
  destruct x as [s|s| |s m e], y as [s'|s'| |s' m' e']; simpl; try discriminate;
    try (intros H; apply eqb_prop in H; congruence); [reflexivity|].
  rewrite !andb_true_iff, Pos.eqb_eq, Z.eqb_eq. intros [[H ->] ->].
  apply eqb_prop in H. congruence.
Qed.

(** The float of a positive integer below [2^53] is that integer. *)
Lemma of_Z_pos (n : Z) :
  0 < n < 2 ^ 53 ->
  exists m e, F64.of_Z n = S754_finite false m e
              /\ canonical m e /\ e <= 0
              /\ scaled m e = n * 2 ^ 1074.
Proof.
  intros [Hn0 Hn]. destruct n as [|p|p]; try lia.
  unfold F64.of_Z. simpl binary_normalize.
  destruct (binary_round_pos p 0 ltac:(lia)) as (m'' & e'' & Hr & Hc & _ & Hex).
  (* the integer as a canonical float *)
  pose proof (digits_bounds p) as [B1 B2]. pose proof (digits_pos p) as Hd1.
  assert (Hd : digits p <= 53).
  { destruct (Z_lt_le_dec 53 (digits p)) as [H|H]; [|exact H].
    assert (2 ^ 53 <= 2 ^ (digits p - 1)) by (apply Z.pow_le_mono_r; lia). lia. }
  set (k := 53 - digits p).
  assert (Hpk : 0 < 2 ^ k) by (apply Z.pow_pos_nonneg; lia).
  assert (Hm0 : Z.pos (Z.to_pos (Z.pos p * 2 ^ k)) = Z.pos p * 2 ^ k)
    by (apply Z2Pos.id; lia).
  assert (C0 : canonical (Z.to_pos (Z.pos p * 2 ^ k)) (- k)).
  { unfold canonical. rewrite (digits_shift p _ k) by (lia || exact Hm0).
    unfold fexp64. lia. }
  assert (V0 : scaled (Z.to_pos (Z.pos p * 2 ^ k)) (- k) = scaled p 0).
  { unfold scaled. rewrite Hm0, <- Z.mul_assoc, <- Z.pow_add_r by lia.
    do 2 f_equal. lia. }
  specialize (Hex (ex_intro _ _ (ex_intro _ _ (conj C0 V0)))).
  rewrite <- V0 in Hex.
  destruct (scaled_inj _ _ _ _ Hc C0 Hex) as [Hm He]. subst e''.
  exists m'', (- k). rewrite Hr. unfold rounded.
  replace (- k <=? 971) with true by (symmetry; apply Z.leb_le; lia).
  split; [reflexivity|]. split; [exact Hc|]. split; [lia|].
  rewrite Hex, V0. unfold scaled. reflexivity.
Qed.

Lemma to_Z_of_Z (n : Z) : 0 <= n < 2 ^ 53 -> to_Z (F64.of_Z n) = n.
Proof.
  intros [Hn0 Hn]. destruct (Z.eq_dec n 0) as [->|Hne]; [reflexivity|].
  destruct (of_Z_pos n ltac:(lia)) as (m & e & -> & Hc & He & Hv).
  pose proof (canonical_ge _ _ Hc) as Ge.
  unfold to_Z. unfold scaled in Hv.
  assert (Hsplit : 2 ^ 1074 = 2 ^ (- e) * 2 ^ (e + 1074)).
  { rewrite <- Z.pow_add_r by lia. f_equal. lia. }
  assert (Hp1 : 0 < 2 ^ (e + 1074)) by (apply Z.pow_pos_nonneg; lia).
  assert (Hp2 : 0 < 2 ^ (- e)) by (apply Z.pow_pos_nonneg; lia).
  assert (Hm : Z.pos m = n * 2 ^ (- e)) by (rewrite Hsplit in Hv; pnia).
  destruct (0 <=? e) eqn:E0.
  - apply Z.leb_le in E0. assert (e = 0) by lia. subst e.
    simpl in Hm |- *. lia.
  - rewrite Hm. apply Z.div_mul. lia.
Qed.

Lemma whole_of_Z (n : Z) : 0 <= n < 2 ^ 53 -> whole (F64.of_Z n).
Proof.
  intros Hn. unfold whole, wholeb. rewrite to_Z_of_Z by exact Hn.
  rewrite !andb_true_iff. repeat split.
  - apply Z.leb_le. lia.
  - apply Z.ltb_lt. lia.
  - destruct (F64.of_Z n) as [[|]|[|]| |[|] m e]; simpl;
      rewrite ?Pos.eqb_refl, ?Z.eqb_refl; reflexivity.
Qed.

Lemma whole_inv (x : spec_float) :
  whole x -> 0 <= to_Z x < 2 ^ 53 /\ x = F64.of_Z (to_Z x).
Proof.
  unfold whole, wholeb. rewrite !andb_true_iff, Z.leb_le, Z.ltb_lt.
  intros [[H1 H2] H3]. apply same_float_eq in H3. auto.
Qed.

Lemma SFcompare_of_Z (a b : Z) :
  0 <= a < 2 ^ 53 -> 0 <= b < 2 ^ 53 ->
  SFcompare (F64.of_Z a) (F64.of_Z b) = Some (a ?= b).
Proof.
  intros Ha Hb.
  assert (Hp : 0 < 2 ^ 1074) by (apply Z.pow_pos_nonneg; lia).
  destruct (Z.eq_dec a 0) as [->|Ha0], (Z.eq_dec b 0) as [->|Hb0].
  - reflexivity.
  - destruct (of_Z_pos b ltac:(lia)) as (m & e & -> & _).
    destruct b as [|pb|pb]; try lia. reflexivity.
  - destruct (of_Z_pos a ltac:(lia)) as (m & e & -> & _).
    destruct a as [|pa|pa]; try lia. reflexivity.
  - destruct (of_Z_pos a ltac:(lia)) as (ma & ea & -> & Ca & _ & Va).
    destruct (of_Z_pos b ltac:(lia)) as (mb & eb & -> & Cb & _ & Vb).
    rewrite SFcompare_canonical by assumption. rewrite Va, Vb. f_equal.
    rewrite !(Z.mul_comm _ (2 ^ 1074)). symmetry.
    apply Zmult_compare_compat_l. lia.
Qed.

(** Whole amounts subtract exactly. *)
Lemma sub_of_Z (a b : Z) :
  0 <= b <= a -> a < 2 ^ 53 ->
  F64.sub (F64.of_Z a) (F64.of_Z b) = F64.of_Z (a - b).
Proof.
  intros Hb Ha.
  destruct (Z.eq_dec b 0) as [->|Hb0].
  - rewrite Z.sub_0_r. change (F64.of_Z 0) with (S754_zero false).
    destruct (Z.eq_dec a 0) as [->|Ha0]; [reflexivity|].
    destruct (of_Z_pos a ltac:(lia)) as (m & e & -> & _). reflexivity.
  - destruct (of_Z_pos b ltac:(lia)) as (mb & eb & Eb & Cb & Heb & Vb).
    destruct (of_Z_pos a ltac:(lia)) as (ma & ea & Ea & Ca & Hea & Va).
    rewrite Ea, Eb.
    destruct (Z.eq_dec a b) as [->|Hne].
    + rewrite Ea in Eb. injection Eb as -> ->.
      rewrite Z.sub_diag. unfold F64.sub, SFsub. cbv zeta. rewrite Z.sub_diag.
      reflexivity.
    + assert (Hp : 0 < 2 ^ 1074) by (apply Z.pow_pos_nonneg; lia).
      destruct (of_Z_pos (a - b) ltac:(lia)) as (md & ed & Ed & Cd & Hed & Vd).
      destruct (sub_pos_lt ma mb ea eb Ca ltac:(lia) Cb ltac:(pnia))
        as (m'' & e'' & -> & Hc & _ & _ & Hex).
      rewrite Ed.
      assert (Hv : scaled md ed = scaled ma ea - scaled mb eb)
        by (rewrite Va, Vb, Vd; ring).
      specialize (Hex (ex_intro _ _ (ex_intro _ _ (conj Cd Hv)))).
      rewrite <- Hv in Hex.
      destruct (scaled_inj _ _ _ _ Hc Cd Hex) as [-> ->]. reflexivity.
Qed.

Lemma whole_zero : whole F64.pos_zero.
Proof. reflexivity. Qed.

Lemma f64_sub_exact (a b : spec_float) :
  whole a -> whole b -> 0 <= to_Z b <= to_Z a ->
  whole (F64.sub a b) /\ to_Z (F64.sub a b) = to_Z a - to_Z b.
Proof.
  intros Ha Hb Hle.
  destruct (whole_inv a Ha) as [Ra Ea]. destruct (whole_inv b Hb) as [Rb Eb].
  rewrite Ea, Eb at 1 2. rewrite !sub_of_Z by lia.
  split; [apply whole_of_Z; lia | apply to_Z_of_Z; lia].
Qed.

Lemma f64_ltb_exact (a b : spec_float) :
  whole a -> whole b -> SFltb a b = (to_Z a <? to_Z b).
Proof.
  intros Ha Hb.
  destruct (whole_inv a Ha) as [Ra Ea]. destruct (whole_inv b Hb) as [Rb Eb].
  rewrite Ea, Eb at 1. unfold SFltb. rewrite SFcompare_of_Z by assumption.
  unfold Z.ltb. reflexivity.
Qed.

Lemma f64_leb_exact (a b : spec_float) :
  whole a -> whole b -> SFleb a b = (to_Z a <=? to_Z b).
Proof.
  intros Ha Hb.
  destruct (whole_inv a Ha) as [Ra Ea]. destruct (whole_inv b Hb) as [Rb Eb].
  rewrite Ea, Eb at 1. unfold SFleb. rewrite SFcompare_of_Z by assumption.
  unfold Z.leb. destruct (to_Z a ?= to_Z b); reflexivity.
Qed.

(** Python floats are exact on whole amounts below [2^53]. *)
Definition binary64_ExactArith : ExactArith binary64 :=
  @Build_ExactArith binary64 to_Z whole whole_zero eq_refl
    f64_sub_exact f64_ltb_exact f64_leb_exact.

End F64Facts.

(** ** Python floats: the bounds on [due], for every payment *)

Module SqliteFacts.
Import F64 F64Facts Sqlite.

#[local] Existing Instance binary64.

(** A due above zero is a positive finite float or [+inf]. *)
Lemma positive_due (d : spec_float) :
  is_float d -> SFltb F64.pos_zero d = true ->
  d = F64.inf \/ (finite_amount d /\ exists m e, d = S754_finite false m e).
Proof.
  intros Hv Hpos. destruct d as [s|[|]| |[|] m e]; try discriminate.
  - left. reflexivity.
  - right. split; [split; [exact Hv | reflexivity]|]. exists m, e. reflexivity.
Qed.

(** A [remaining] that passes the [break] test is NaN, [+inf] or a positive
    finite float. *)
Lemma remaining_cases (r : spec_float) :
  is_float r -> SFleb r F64.pos_zero = false ->
  r = F64.nan \/ r = F64.inf \/ (finite_amount r /\ exists m e, r = S754_finite false m e).
Proof.
  intros Hv Hr. destruct r as [[|]|[|]| |[|] m e]; try discriminate.
  - right. left. reflexivity.
  - left. reflexivity.
  - right. right. split; [split; [exact Hv | reflexivity]|]. exists m, e. reflexivity.
Qed.

Lemma sub_finite_self (m : positive) (e : Z) :
  F64.sub (S754_finite false m e) (S754_finite false m e) = F64.pos_zero.
Proof. unfold F64.sub, SFsub. cbv zeta. rewrite Z.sub_diag. reflexivity. Qed.

Lemma leb_self (d : spec_float) :
  is_float d -> SFltb F64.pos_zero d = true -> SFleb d d = true.
Proof.
  intros Hv Hpos. destruct (positive_due d Hv Hpos) as [->|[Hf _]]; [reflexivity|].
  apply f64_leb_refl, Hf.
Qed.

(** One iteration of the loop that passes the [break] test, whatever the
    floats: the new due is between zero and the old one, or it is NaN. *)
Lemma settle_step_any (e : entry) (r : spec_float) :
  is_float (DairyEntry.due e) -> SFltb F64.pos_zero (DairyEntry.due e) = true ->
  is_float r -> SFleb r F64.pos_zero = false ->
  let pay := py_min (DairyEntry.due e) r in
  (is_nan (DairyEntry.due (pay_entry e pay)) = true
   \/ (SFleb F64.pos_zero (DairyEntry.due (pay_entry e pay)) = true
       /\ SFleb (DairyEntry.due (pay_entry e pay)) (DairyEntry.due e) = true))
  /\ is_float (nsub r pay).
Proof.
  intros Hd Hdpos Hr Hrpos pay.
  destruct (remaining_cases r Hr Hrpos) as [Er|[Er|[Hrf (mr & er & Er)]]];
    destruct (positive_due _ Hd Hdpos) as [Ed|[Hdf (md & ed & Ed)]].
  - (* due +inf, remaining NaN *)
    unfold pay, py_min. cbn [pay_entry DairyEntry.due DairyEntry.set_due
                               DairyEntry.set_paid]. rewrite Ed, Er.
    split; [left; reflexivity | reflexivity].
  - (* due finite, remaining NaN *)
    unfold pay, py_min. cbn [pay_entry DairyEntry.due DairyEntry.set_due
                               DairyEntry.set_paid]. rewrite Ed, Er.
    cbn [nltb nsub binary64]. change (SFltb F64.nan (S754_finite false md ed)) with false.
    cbv iota. rewrite sub_finite_self. split; [right; split; reflexivity | reflexivity].
  - (* due +inf, remaining +inf *)
    unfold pay, py_min. cbn [pay_entry DairyEntry.due DairyEntry.set_due
                               DairyEntry.set_paid]. rewrite Ed, Er.
    split; [left; reflexivity | reflexivity].
  - (* due finite, remaining +inf *)
    unfold pay, py_min. cbn [pay_entry DairyEntry.due DairyEntry.set_due
                               DairyEntry.set_paid]. rewrite Ed, Er.
    cbn [nltb nsub binary64]. change (SFltb F64.inf (S754_finite false md ed)) with false.
    cbv iota. rewrite sub_finite_self. split; [right; split; reflexivity | reflexivity].
  - (* due +inf, remaining finite: the payment is used up *)
    unfold pay, py_min. cbn [pay_entry DairyEntry.due DairyEntry.set_due
                               DairyEntry.set_paid]. rewrite Ed, Er.
    cbn [nltb nsub binary64]. change (SFltb (S754_finite false mr er) F64.inf) with true.
    cbv iota. rewrite sub_finite_self. split; [right; split; reflexivity | reflexivity].
  - (* both finite: rounding is monotone *)
    destruct (@settle_step_bounds binary64 binary64_MonotoneSub e r Hdf Hdpos Hrf Hrpos)
      as [Hb [Hv _]].
    split; [right; exact Hb | exact Hv].
Qed.

(** The loop, whatever the floats: if none of the objects it has assigned
    to holds a NaN, every due is between zero and what it was. *)
Lemma settle_loop_any (objs : list entry) :
  forall r : spec_float,
    is_float r ->
    Forall (fun e => is_float (DairyEntry.due e)
                     /\ SFltb F64.pos_zero (DairyEntry.due e) = true) objs ->
    forallb updatable (assigned objs r) = true ->
    Forall2 (fun e e' => SFleb F64.pos_zero (DairyEntry.due e') = true
                         /\ SFleb (DairyEntry.due e') (DairyEntry.due e) = true)
            objs (fst (settle_loop objs r)).
Proof.
  assert (Hsame : forall l : list entry,
             Forall (fun e => is_float (DairyEntry.due e)
                              /\ SFltb F64.pos_zero (DairyEntry.due e) = true) l ->
             Forall2 (fun e e' => SFleb F64.pos_zero (DairyEntry.due e') = true
                                  /\ SFleb (DairyEntry.due e') (DairyEntry.due e) = true)
                     l l).
  { induction 1 as [|e l [Hd Hpos] _ IH]; constructor; [|exact IH].
    split; [apply binary64_OrderLaws, Hpos | apply leb_self; assumption]. }
  induction objs as [|e objs IH]; intros r Hr Hobjs Hclean; [constructor|].
  inversion Hobjs as [|? ? [Hd Hpos] Hrest]; subst.
  cbn [settle_loop assigned] in *.
  change (@nleb binary64 r (@n0 binary64)) with (SFleb r F64.pos_zero) in *.
  destruct (SFleb r F64.pos_zero) eqn:Hbreak.
  - apply Hsame, Hobjs.
  - destruct (settle_step_any e r Hd Hpos Hr Hbreak) as [Hstep Hr'].
    set (pay := py_min (DairyEntry.due e) r) in *.
    specialize (IH (@nsub binary64 r pay) Hr' Hrest).
    destruct (@settle_loop binary64 objs (@nsub binary64 r pay)) as [rest' r''].
    cbn [fst forallb] in *.
    apply andb_true_iff in Hclean. destruct Hclean as [Hup Hclean].
    constructor; [|apply IH, Hclean].
    destruct Hstep as [Hnan|Hb]; [|exact Hb].
    unfold updatable in Hup. apply andb_true_iff in Hup. destruct Hup as [_ Hup].
    change (DairyEntry.set_due (DairyEntry.set_paid e (nadd (DairyEntry.paid e) pay)) _)
      with (pay_entry e pay) in Hup.
    rewrite Hnan in Hup. discriminate.
Qed.

(** C4. Settlement never sets a due below zero and never raises one,
    whatever is paid (zero, a negative amount, [+inf] and NaN included) and
    whatever the dues (infinite ones included): the due of an entry it
    selects ends between zero and what it was, inclusive, and every other
    row is as it was.  Where the arithmetic gives a NaN ([inf - inf]), the
    NOT NULL column refuses the write and no due is set at all.  The
    selected dues and the payment are binary64 numbers, as every Python
    float is. *)
Theorem clear_dues_due_in_bounds (tbl : table) (m : string) (P : spec_float) :
  primary_key tbl ->
  (forall e, In e tbl -> has_dues m e = true -> is_float (DairyEntry.due e)) ->
  is_float P ->
  Forall2 (fun e e' =>
             if has_dues m e
             then SFleb F64.pos_zero (DairyEntry.due e') = true
                  /\ SFleb (DairyEntry.due e') (DairyEntry.due e) = true
             else e' = e)
          tbl
          (table_after tbl
             (Sqlite.clear_dues tbl (POST {| f_m_name' := m; f_amount_paid := P |}))).
Proof.
  intros Hpk Hfl HP.
  set (R := fun e e' : @entry binary64 =>
              SFleb F64.pos_zero (DairyEntry.due e') = true
              /\ SFleb (DairyEntry.due e') (DairyEntry.due e) = true).
  assert (Hsel : Forall (fun e => is_float (DairyEntry.due e)
                                  /\ SFltb F64.pos_zero (DairyEntry.due e) = true)
                        (entries_with_dues tbl m)).
  { apply Forall_forall. intros e He. apply entries_with_dues_In in He.
    destruct He as (He & Hm & Hd). split; [|exact Hd]. apply Hfl; [exact He|].
    unfold has_dues. rewrite Hd, andb_true_r. apply String.eqb_eq, Hm. }
  unfold Sqlite.clear_dues. cbn [f_m_name' f_amount_paid].
  destruct (forallb updatable (assigned (entries_with_dues tbl m) P)) eqn:Hclean;
    cbn [table_after].
  - (* the commit is accepted *)
    destruct (clear_dues_rows R tbl m P Hpk) as [Heq Hrows].
    { apply settle_loop_any; assumption. }
    set (tbl' := db _) in *. rewrite Heq. apply Forall2_map_right. intros e He.
    destruct (Hrows e He) as [[Hin HR]|[Hout Hsame]].
    + apply entries_with_dues_In in Hin. destruct Hin as (_ & Hm & Hd).
      unfold has_dues. rewrite Hd, andb_true_r.
      apply String.eqb_eq in Hm. rewrite Hm. exact HR.
    + destruct (has_dues m e) eqn:C; [|exact Hsame].
      exfalso. apply Hout. apply entries_with_dues_In.
      unfold has_dues in C. apply andb_true_iff in C. destruct C as [Hm Hd].
      apply String.eqb_eq in Hm. auto.
  - (* the commit is refused: the table is as it was *)
    rewrite <- (map_id tbl) at 2. apply Forall2_map_right. intros e He.
    destruct (has_dues m e) eqn:C; [|reflexivity].
    pose proof (Hfl e He C) as Hd. unfold has_dues in C.
    apply andb_true_iff in C. destruct C as [_ Hpos].
    split; [apply binary64_OrderLaws, Hpos | apply leb_self; assumption].
Qed.

End SqliteFacts.

(** * More of the code *)

(** ** /dairy_entries: the listing *)

Section ListingFacts.
Context {N : Number}.

Lemma keys_ltb_newest (a b : entry) :
  keys_ltb [desc DairyEntry.date; desc DairyEntry.created_at] a b = true <->
  DairyEntry.date b < DairyEntry.date a
  \/ (DairyEntry.date b = DairyEntry.date a
      /\ DairyEntry.created_at b < DairyEntry.created_at a).
Proof.
  unfold keys_ltb, desc. rewrite andb_false_r, orb_false_r.
  rewrite orb_true_iff, andb_true_iff, !Z.ltb_lt, Z.eqb_eq. lia.
Qed.

Lemma insert_by_keys_perm (keys : list (entry -> Z)) (e : entry) (l : list entry) :
  Permutation (insert_by_keys keys e l) (e :: l).
Proof.
  induction l as [|x l IH]; simpl.
  - apply Permutation_refl.
  - destruct (keys_ltb keys e x).
    + apply Permutation_refl.
    + eapply Permutation_trans; [apply perm_skip, IH | apply perm_swap].
Qed.

Lemma order_by_keys_perm (keys : list (entry -> Z)) (l : list entry) :
  Permutation (order_by_keys keys l) l.
Proof.
  unfold order_by_keys.
  assert (G : forall acc,
             Permutation (fold_left (fun a e => insert_by_keys keys e a) l acc) (acc ++ l)).
  { induction l as [|x l IH]; intros acc; simpl.
    - rewrite app_nil_r. apply Permutation_refl.
    - eapply Permutation_trans; [apply IH|].
      eapply Permutation_trans; [apply Permutation_app_tail, insert_by_keys_perm|].
      simpl. apply Permutation_middle. }
  apply (G []).
Qed.

Lemma insert_newest_sorted (e : entry) (l : list entry) :
  StronglySorted newer_or_same l ->
  StronglySorted newer_or_same
    (insert_by_keys [desc DairyEntry.date; desc DairyEntry.created_at] e l).
Proof.
  induction 1 as [|x l Hs IH Hx]; cbn [insert_by_keys].
  - repeat constructor.
  - destruct (keys_ltb _ e x) eqn:E.
    + apply keys_ltb_newest in E. constructor; [constructor; assumption|].
      constructor; [unfold newer_or_same; lia|].
      eapply Forall_impl; [|exact Hx]. unfold newer_or_same. intros y Hy. lia.
    + assert (E' : ~ (DairyEntry.date x < DairyEntry.date e
                      \/ (DairyEntry.date x = DairyEntry.date e
                          /\ DairyEntry.created_at x < DairyEntry.created_at e))).
      { intros H. apply keys_ltb_newest in H. congruence. }
      constructor; [assumption|].
      eapply Permutation_Forall; [apply Permutation_sym, insert_by_keys_perm|].
      constructor; [unfold newer_or_same; lia | exact Hx].
Qed.

(** X1. /dairy_entries lists every row of the table exactly once, newest
    first: by date descending and, within a date, by [created_at]
    descending. *)
Theorem dairy_entries_newest_first (tbl : table) :
  Permutation (dairy_entries tbl) tbl
  /\ StronglySorted newer_or_same (dairy_entries tbl).
Proof.
  split; [apply order_by_keys_perm|].
  unfold dairy_entries, order_by_keys.
  assert (G : forall acc, StronglySorted newer_or_same acc ->
              StronglySorted newer_or_same
                (fold_left (fun a e =>
                   insert_by_keys [desc DairyEntry.date; desc DairyEntry.created_at] e a)
                   tbl acc)).
  { induction tbl as [|x l IH]; intros acc Hacc; simpl; [assumption|].
    apply IH, insert_newest_sorted, Hacc. }
  apply G. constructor.
Qed.

End ListingFacts.

(** ** Adding entries and looking them up *)

Section AddAndLookup.
Context {N : Number}.

Lemma next_id_above (tbl : table) (e : entry) :
  In e tbl -> DairyEntry.id e < next_id tbl.
Proof.
  unfold next_id. induction tbl as [|x tbl IH]; cbn [map fold_right In];
    [contradiction|].
  intros [->|He]; [lia|]. specialize (IH He). lia.
Qed.

Lemma primary_key_snoc (tbl : table) (e : entry) :
  primary_key tbl -> (forall x, In x tbl -> DairyEntry.id x < DairyEntry.id e) ->
  primary_key (tbl ++ [e]).
Proof.
  unfold primary_key. intros Hpk Hlt. rewrite map_app. simpl.
  apply NoDup_app; [exact Hpk | repeat constructor; simpl; tauto |].
  intros i Hi [<-|[]]. apply in_map_iff in Hi. destruct Hi as (x & Hid & Hx).
  specialize (Hlt x Hx). lia.
Qed.

(** A valid POST for a date after [date.min] stores the entry the source
    builds. *)
Lemma add_dairy_entry_stores (validate : AddDairyEntryForm -> bool)
    (tbl : table) (form : AddDairyEntryForm) (now : Z) :
  validate form = true -> 1 < f_date form ->
  exists previous_due,
    get_previous_dairy_due tbl (f_date form) (f_m_name form) (f_item form)
    = Ok previous_due
    /\ add_dairy_entry validate tbl (POST form) now
       = Ok {| db := tbl ++ [ {| DairyEntry.id := next_id tbl;
                                DairyEntry.date := f_date form;
                                DairyEntry.m_name := f_m_name form;
                                DairyEntry.item := f_item form;
                                DairyEntry.weight := f_weight form;
                                DairyEntry.unit := f_unit form;
                                DairyEntry.price_per_unit := f_price_per_unit form;
                                DairyEntry.cost :=
                                  nmul (f_price_per_unit form) (f_weight form);
                                DairyEntry.paid := f_paid form;
                                DairyEntry.due :=
                                  nsub (nadd previous_due
                                          (nmul (f_price_per_unit form) (f_weight form)))
                                       (f_paid form);
                                DairyEntry.created_at := now |} ];
               flashes := [EntryAdded];
               resp := Redirect "add_dairy_entry" |}.
Proof.
  intros Hv Hd. unfold add_dairy_entry. rewrite Hv.
  unfold get_previous_dairy_due, previous_day.
  destruct (f_date form <=? 1) eqn:E; [apply Z.leb_le in E; lia|].
  eexists. split; reflexivity.
Qed.

(** X3. An entry dated [date.min] cannot be added: the day before does not
    exist, [timedelta] raises [OverflowError] before anything is stored. *)
Theorem add_dairy_entry_date_min_raises (validate : AddDairyEntryForm -> bool)
    (tbl : table) (form : AddDairyEntryForm) (now : Z) :
  validate form = true -> f_date form = 1 ->
  add_dairy_entry validate tbl (POST form) now = Raise "OverflowError"
  /\ get_previous_dairy_due tbl 1 (f_m_name form) (f_item form) = Raise "OverflowError".
Proof.
  intros Hv Hd. unfold add_dairy_entry. rewrite Hv, Hd. split; reflexivity.
Qed.

Lemma get_previous_dairy_due_prev_entry (tbl : table) (D : Z) (M I : string) :
  1 < D ->
  get_previous_dairy_due tbl D M I
  = Ok (match prev_entry tbl D M I with
        | Some e => DairyEntry.due e
        | None => n0
        end).
Proof.
  intros Hd. unfold get_previous_dairy_due, previous_day, prev_entry.
  destruct (D <=? 1) eqn:E; [apply Z.leb_le in E; lia|]. reflexivity.
Qed.

(** [.first()] after [ORDER BY key DESC] of rows followed by one with a
    larger key than all of them. *)
Lemma first_order_by_desc_snoc (key : entry -> Z) (l : list entry) (x : entry) :
  (forall y, In y l -> key y < key x) ->
  first (order_by_desc key (l ++ [x])) = Some x.
Proof.
  intros Hlt.
  destruct (first (order_by_desc key (l ++ [x]))) as [e|] eqn:F.
  - apply first_order_by_desc in F. destruct F as [Hin Hmax].
    apply in_app_or in Hin. destruct Hin as [Hin|[<-|[]]]; [|reflexivity].
    specialize (Hlt e Hin).
    assert (key x <= key e) by (apply Hmax, in_or_app; right; left; reflexivity). lia.
  - apply first_order_by_desc_none in F. destruct l; discriminate.
Qed.

(** The due of an entry created last for its date, merchant and item is
    the one carried to the next day. *)
Lemma add_dairy_entry_then_lookup (validate : AddDairyEntryForm -> bool)
    (tbl : table) (form : AddDairyEntryForm) (now : Z) :
  validate form = true -> 1 < f_date form ->
  (forall x, In x tbl -> prior_day_row (f_date form + 1) (f_m_name form) (f_item form) x ->
             DairyEntry.created_at x < now) ->
  exists o new,
    add_dairy_entry validate tbl (POST form) now = Ok o
    /\ db o = tbl ++ [new]
    /\ get_previous_dairy_due (db o) (f_date form + 1) (f_m_name form) (f_item form)
       = Ok (DairyEntry.due new).
Proof.
  intros Hv Hd Hnow.
  destruct (add_dairy_entry_stores validate tbl form now Hv Hd) as (pd & _ & ->).
  eexists. eexists. split; [reflexivity|]. split; [reflexivity|].
  cbn [db]. rewrite get_previous_dairy_due_prev_entry by lia.
  unfold prev_entry. rewrite filter_app. cbn [filter DairyEntry.date DairyEntry.m_name
                                               DairyEntry.item].
  replace (f_date form + 1 - 1) with (f_date form) by lia.
  rewrite Z.eqb_refl, !String.eqb_refl. cbn [andb].
  rewrite first_order_by_desc_snoc; [reflexivity|].
  intros y Hy. cbn [DairyEntry.created_at]. apply filter_In in Hy. destruct Hy as [Hy Hc].
  apply Hnow; [exact Hy|].
  rewrite !andb_true_iff, Z.eqb_eq, !String.eqb_eq in Hc.
  unfold prior_day_row. intuition lia.
Qed.

(** X4. Insert, then look up: once an entry is added with a [created_at]
    later than those of the entries of the same date, merchant and item,
    its due is what [get_previous_dairy_due] returns for the next day. *)
Theorem add_then_get_previous_dairy_due (validate : AddDairyEntryForm -> bool)
    (tbl : table) (form : AddDairyEntryForm) (now : Z) :
  validate form = true -> 1 < f_date form ->
  (forall x, In x tbl -> prior_day_row (f_date form + 1) (f_m_name form) (f_item form) x ->
             DairyEntry.created_at x < now) ->
  exists o new,
    add_dairy_entry validate tbl (POST form) now = Ok o
    /\ db o = tbl ++ [new]
    /\ get_previous_dairy_due (db o) (f_date form + 1) (f_m_name form) (f_item form)
       = Ok (DairyEntry.due new).
Proof. apply add_dairy_entry_then_lookup. Qed.

End AddAndLookup.

Section AddTwice.
Context {N : Number}.

(** A row that is not of the day before, merchant and item looked up does
    not change what is carried. *)
Lemma prev_entry_snoc_other (tbl : table) (e : entry) (D : Z) (M I : string) :
  ~ prior_day_row D M I e ->
  prev_entry (tbl ++ [e]) D M I = prev_entry tbl D M I.
Proof.
  intros Hno. unfold prev_entry. rewrite filter_app. cbn [filter].
  destruct ((DairyEntry.date e =? D - 1) && String.eqb (DairyEntry.m_name e) M
            && String.eqb (DairyEntry.item e) I) eqn:C.
  - rewrite !andb_true_iff, Z.eqb_eq, !String.eqb_eq in C.
    exfalso. apply Hno. unfold prior_day_row. tauto.
  - rewrite app_nil_r. reflexivity.
Qed.

(** X5. Two entries added for the same date, merchant and item start from
    the same carried due: the second does not carry the balance of the
    first, only that of the day before. *)
Theorem add_dairy_entry_same_day (validate : AddDairyEntryForm -> bool)
    (tbl : table) (form1 form2 : AddDairyEntryForm) (now1 now2 : Z) :
  validate form1 = true -> validate form2 = true -> 1 < f_date form1 ->
  f_date form2 = f_date form1 -> f_m_name form2 = f_m_name form1 ->
  f_item form2 = f_item form1 ->
  exists o1 new1 o2 new2 previous_due,
    add_dairy_entry validate tbl (POST form1) now1 = Ok o1
    /\ db o1 = tbl ++ [new1]
    /\ add_dairy_entry validate (db o1) (POST form2) now2 = Ok o2
    /\ db o2 = tbl ++ [new1; new2]
    /\ get_previous_dairy_due tbl (f_date form1) (f_m_name form1) (f_item form1)
       = Ok previous_due
    /\ DairyEntry.due new1
       = nsub (nadd previous_due (nmul (f_price_per_unit form1) (f_weight form1)))
              (f_paid form1)
    /\ DairyEntry.due new2
       = nsub (nadd previous_due (nmul (f_price_per_unit form2) (f_weight form2)))
              (f_paid form2).
Proof.
  intros Hv1 Hv2 Hd Hdate Hm Hi.
  destruct (add_dairy_entry_stores validate tbl form1 now1 Hv1 Hd) as (pd & Hpd & ->).
  eexists. eexists. eexists. eexists. exists pd.
  split; [reflexivity|]. split; [reflexivity|]. cbn [db].
  match goal with |- context [tbl ++ [?e]] => set (new1 := e) end.
  destruct (add_dairy_entry_stores validate (tbl ++ [new1]) form2 now2 Hv2)
    as (pd2 & Hpd2 & ->); [lia|].
  assert (pd2 = pd) as ->.
  { rewrite Hdate, Hm, Hi in Hpd2.
    rewrite get_previous_dairy_due_prev_entry in Hpd, Hpd2 by lia.
    rewrite prev_entry_snoc_other in Hpd2; [congruence|].
    unfold prior_day_row, new1. cbn [DairyEntry.date]. lia. }
  split; [reflexivity|]. cbn [db]. rewrite <- app_assoc.
  split; [reflexivity|]. split; [exact Hpd|]. split; reflexivity.
Qed.

(** X6. Two entries added on consecutive days for the same merchant and
    item: the second carries the due of the first,
    [e2.due = (e1.due + e2.cost) - e2.paid]. *)
Theorem add_dairy_entry_next_day (validate : AddDairyEntryForm -> bool)
    (tbl : table) (form1 form2 : AddDairyEntryForm) (now1 now2 : Z) :
  validate form1 = true -> validate form2 = true -> 1 < f_date form1 ->
  f_date form2 = f_date form1 + 1 -> f_m_name form2 = f_m_name form1 ->
  f_item form2 = f_item form1 ->
  (forall x, In x tbl ->
             prior_day_row (f_date form2) (f_m_name form2) (f_item form2) x ->
             DairyEntry.created_at x < now1) ->
  exists o1 new1 o2 new2,
    add_dairy_entry validate tbl (POST form1) now1 = Ok o1
    /\ db o1 = tbl ++ [new1]
    /\ add_dairy_entry validate (db o1) (POST form2) now2 = Ok o2
    /\ db o2 = tbl ++ [new1; new2]
    /\ DairyEntry.cost new2 = nmul (f_price_per_unit form2) (f_weight form2)
    /\ DairyEntry.paid new2 = f_paid form2
    /\ DairyEntry.due new2
       = nsub (nadd (DairyEntry.due new1) (DairyEntry.cost new2)) (DairyEntry.paid new2).
Proof.
  intros Hv1 Hv2 Hd Hdate Hm Hi Hnow.
  rewrite Hdate, Hm, Hi in Hnow.
  destruct (add_dairy_entry_then_lookup validate tbl form1 now1 Hv1 Hd Hnow)
    as (o1 & new1 & Hadd1 & Hdb1 & Hget).
  exists o1, new1. rewrite Hadd1, Hdb1.
  destruct (add_dairy_entry_stores validate (tbl ++ [new1]) form2 now2 Hv2)
    as (pd2 & Hpd2 & ->); [lia|].
  rewrite Hdate, Hm, Hi, <- Hdb1, Hget in Hpd2. injection Hpd2 as <-.
  eexists. eexists. split; [reflexivity|]. split; [reflexivity|].
  split; [reflexivity|]. cbn [db]. rewrite <- app_assoc.
  split; [reflexivity|]. repeat split.
Qed.

End AddTwice.

(** ** Settlement: payments that change nothing *)

Section SettlementNoop.
Context {N : Number}.

(** X7. A payment that is zero or less (the loop's own test
    [remaining <= 0]) settles nothing: the table is committed as it was. *)
Theorem clear_dues_nothing_to_pay (tbl : table) (m : string) (P : num) :
  primary_key tbl -> nleb P n0 = true ->
  clear_dues tbl (POST {| f_m_name' := m; f_amount_paid := P |})
  = {| db := tbl; flashes := [DuesUpdated m]; resp := Redirect "clear_dues" |}.
Proof.
  intros Hpk HP. rewrite clear_dues_post.
  assert (L : fst (settle_loop (entries_with_dues tbl m) P) = entries_with_dues tbl m).
  { destruct (entries_with_dues tbl m) as [|e objs]; simpl; [reflexivity|].
    rewrite HP. reflexivity. }
  rewrite L, commit_same; auto. apply entries_with_dues_incl.
Qed.

(** X8. A merchant without an entry with [due > 0] (unknown, or with
    nothing owed) is left alone whatever is paid: no entry is read into the
    loop and the payment is dropped. *)
Theorem clear_dues_no_dues (tbl : table) (m : string) (P : num) :
  (forall e, In e tbl -> DairyEntry.m_name e = m -> nltb n0 (DairyEntry.due e) = false) ->
  entries_with_dues tbl m = []
  /\ clear_dues tbl (POST {| f_m_name' := m; f_amount_paid := P |})
     = {| db := tbl; flashes := [DuesUpdated m]; resp := Redirect "clear_dues" |}.
Proof.
  intros Hno.
  assert (E : entries_with_dues tbl m = []).
  { destruct (entries_with_dues tbl m) as [|e l] eqn:F; [reflexivity|].
    assert (Hin : In e (entries_with_dues tbl m)) by (rewrite F; left; reflexivity).
    apply entries_with_dues_In in Hin. destruct Hin as (He & Hm & Hd).
    rewrite (Hno e He Hm) in Hd. discriminate. }
  split; [exact E|]. rewrite clear_dues_post, E. simpl. f_equal.
  unfold commit. simpl. apply map_id.
Qed.

End SettlementNoop.

(** ** Settlement and the carried due *)

Section SettlementThenLookup.
Context {N : Number}.

Lemma insert_by_In (key : entry -> Z) (e x : entry) (l : list entry) :
  In x (insert_by key e l) <-> x = e \/ In x l.
Proof.
  split.
  - intros H. apply (Permutation_in _ (insert_by_perm key e l)) in H.
    destruct H as [<-|H]; auto.
  - intros H. apply (Permutation_in _ (Permutation_sym (insert_by_perm key e l))).
    destruct H as [->|H]; [left; reflexivity | right; exact H].
Qed.

Lemma insert_by_map (key : entry -> Z) (f : entry -> entry) (e : entry) (l : list entry) :
  key (f e) = key e -> (forall x, In x l -> key (f x) = key x) ->
  insert_by key (f e) (map f l) = map f (insert_by key e l).
Proof.
  intros He. induction l as [|x l IH]; intros Hl; simpl; [reflexivity|].
  rewrite He, (Hl x) by (left; reflexivity).
  destruct (key e <? key x); simpl; [reflexivity|].
  f_equal. apply IH. intros y Hy. apply Hl. right. exact Hy.
Qed.

(** Sorting commutes with an update of the rows that keeps the key. *)
Lemma order_by_map (key : entry -> Z) (f : entry -> entry) (l : list entry) :
  (forall x, In x l -> key (f x) = key x) ->
  order_by key (map f l) = map f (order_by key l).
Proof.
  unfold order_by. intros Hl.
  assert (G : forall acc, (forall x, In x acc -> key (f x) = key x) ->
              fold_left (fun a e => insert_by key e a) (map f l) (map f acc)
              = map f (fold_left (fun a e => insert_by key e a) l acc)).
  { induction l as [|e l IH]; intros acc Hacc; simpl; [reflexivity|].
    rewrite insert_by_map; [|apply Hl; left; reflexivity | exact Hacc].
    apply IH.
    - intros x Hx. apply Hl. right. exact Hx.
    - intros x Hx. apply insert_by_In in Hx. destruct Hx as [->|Hx]; [|auto].
      apply Hl. left. reflexivity. }
  apply (G []). intros x [].
Qed.

Lemma filter_map_same (c : entry -> bool) (f : entry -> entry) (l : list entry) :
  (forall x, In x l -> c (f x) = c x) ->
  filter c (map f l) = map f (filter c l).
Proof.
  induction l as [|x l IH]; intros Hl; simpl; [reflexivity|].
  rewrite (Hl x) by (left; reflexivity).
  destruct (c x); simpl; rewrite IH; auto; intros y Hy; apply Hl; right; exact Hy.
Qed.

(** Settlement rewrites the table row by row, each row keeping its
    identity. *)
Lemma clear_dues_same_identity (tbl : table) (m : string) (P : num) :
  primary_key tbl ->
  let tbl' := db (clear_dues tbl (POST {| f_m_name' := m; f_amount_paid := P |})) in
  tbl' = map (after tbl') tbl
  /\ forall e, In e tbl -> same_identity e (after tbl' e).
Proof.
  intros Hpk tbl'.
  destruct (clear_dues_rows same_identity tbl m P Hpk) as [Heq Hrows].
  { apply (settle_loop_Forall2 (fun _ => True) (fun _ => True)); auto.
    - intros e _. apply same_identity_refl.
    - intros e r _ _ _. split; [apply same_identity_pay | exact Logic.I].
    - apply Forall_forall. auto. }
  split; [exact Heq|]. intros e He.
  destruct (Hrows e He) as [[_ HR]|[_ Hsame]]; [exact HR|].
  fold tbl' in Hsame. rewrite Hsame. apply same_identity_refl.
Qed.

(** X9. Settlement and carry-forward compose: after a settlement,
    [get_previous_dairy_due] picks the same entry of the day before as it
    did, and returns the due that entry has been settled to. *)
Theorem get_previous_dairy_due_after_clear_dues (tbl : table) (m : string) (P : num)
    (D : Z) (M I : string) :
  primary_key tbl -> 1 < D ->
  let tbl' := db (clear_dues tbl (POST {| f_m_name' := m; f_amount_paid := P |})) in
  prev_entry tbl' D M I = option_map (after tbl') (prev_entry tbl D M I)
  /\ get_previous_dairy_due tbl' D M I
     = Ok (match prev_entry tbl D M I with
           | Some e => DairyEntry.due (after tbl' e)
           | None => n0
           end).
Proof.
  intros Hpk HD tbl'.
  destruct (clear_dues_same_identity tbl m P Hpk) as [Heq Hid]. fold tbl' in Heq, Hid.
  assert (Hprev : prev_entry tbl' D M I = option_map (after tbl') (prev_entry tbl D M I)).
  { unfold prev_entry. rewrite Heq at 1.
    rewrite filter_map_same.
    - unfold order_by_desc. rewrite order_by_map.
      + unfold first. destruct (order_by _ _); reflexivity.
      + intros x Hx. apply filter_In in Hx. destruct Hx as [Hx _].
        destruct (Hid x Hx) as (_ & _ & _ & _ & _ & _ & _ & _ & ->). reflexivity.
    - intros x Hx.
      destruct (Hid x Hx) as (_ & -> & -> & -> & _). reflexivity. }
  split; [exact Hprev|].
  rewrite get_previous_dairy_due_prev_entry by exact HD. rewrite Hprev.
  destruct (prev_entry tbl D M I); reflexivity.
Qed.

End SettlementThenLookup.

(** ** The merchants listed on the /clear_dues page *)

Section UsersWithDues.
Context {N : Number}.

Lemma users_with_dues_In (tbl : table) (m : string) (t : num) :
  In (m, t) (users_with_dues tbl) <->
  In m (map DairyEntry.m_name tbl)
  /\ db_sum (map DairyEntry.due
               (filter (fun e => String.eqb (DairyEntry.m_name e) m) tbl)) = Some t
  /\ nltb n0 t = true.
Proof.
  unfold users_with_dues. rewrite in_flat_map. split.
  - intros (x & Hx & Hin). apply nodup_In in Hx.
    destruct (db_sum _) as [total_due|] eqn:S; [|contradiction].
    destruct (nltb n0 total_due) eqn:C; [|contradiction].
    destruct Hin as [[= <- <-]|[]]. auto.
  - intros (Hm & S & C). exists m. split; [apply nodup_In, Hm|].
    rewrite S, C. left. reflexivity.
Qed.

(** X10. The /clear_dues page lists a merchant at most once, and lists
    exactly the merchants of the table whose dues, over all their entries
    in storage order, sum to more than zero, each with that sum. *)
Theorem users_with_dues_listing (tbl : table) :
  NoDup (map fst (users_with_dues tbl))
  /\ forall m t,
       In (m, t) (users_with_dues tbl) <->
       In m (map DairyEntry.m_name tbl)
       /\ t = py_sum (map DairyEntry.due
                        (filter (fun e => String.eqb (DairyEntry.m_name e) m) tbl))
       /\ nltb n0 t = true.
Proof.
  split.
  - unfold users_with_dues.
    set (g := fun m : string =>
                match db_sum (map DairyEntry.due
                                (filter (fun e => String.eqb (DairyEntry.m_name e) m) tbl)) with
                | Some total_due => if nltb n0 total_due then [(m, total_due)] else []
                | None => []
                end).
    assert (Hg : forall y p, In p (g y) -> fst p = y).
    { intros y p. unfold g. destruct (db_sum _) as [t|]; [|contradiction].
      destruct (nltb n0 t); [|contradiction]. intros [<-|[]]. reflexivity. }
    assert (Hone : forall y, NoDup (map fst (g y))).
    { intros y. unfold g. destruct (db_sum _) as [t|]; [|constructor].
      destruct (nltb n0 t); repeat constructor. simpl. tauto. }
    pose proof (NoDup_nodup string_dec (map DairyEntry.m_name tbl)) as Hnd.
    induction Hnd as [|m l Hm Hl IH]; simpl; [constructor|].
    rewrite map_app. apply NoDup_app; [apply Hone | exact IH |].
    intros x Hx Hx'. apply in_map_iff in Hx. destruct Hx as (p & <- & Hp).
    apply Hg in Hp. apply in_map_iff in Hx'. destruct Hx' as (q & Hq & Hin).
    apply in_flat_map in Hin. destruct Hin as (y & Hy & Hin). apply Hg in Hin.
    apply Hm. congruence.
  - intros m t. rewrite users_with_dues_In. split.
    + intros (Hm & S & C). split; [exact Hm|]. split; [|exact C].
      unfold db_sum in S. unfold py_sum.
      destruct (map DairyEntry.due _); [discriminate|]. congruence.
    + intros (Hm & -> & C). split; [exact Hm|]. split; [|exact C].
      unfold db_sum, py_sum.
      destruct (map DairyEntry.due _) eqn:F; [|reflexivity].
      exfalso. apply in_map_iff in Hm. destruct Hm as (e & He & Hin).
      assert (Hf : In e (filter (fun e => String.eqb (DairyEntry.m_name e) m) tbl)).
      { apply filter_In. split; [exact Hin|]. apply String.eqb_eq, He. }
      apply (in_map DairyEntry.due) in Hf. rewrite F in Hf. exact Hf.
Qed.

End UsersWithDues.

(** ** The application: what every run keeps *)

Section Runs.
Context {N : Number}.
Variable validate_entry : AddDairyEntryForm -> bool.
Variable validate_report : DairyDailyReportForm -> bool.

Lemma dairy_daily_summary_db (tbl : table) (req : request DairyDailyReportForm) :
  db (dairy_daily_summary validate_report tbl req) = tbl.
Proof.
  unfold dairy_daily_summary. destruct req as [|form]; [reflexivity|].
  destruct (validate_report form); [|reflexivity].
  destruct (filter _ tbl); reflexivity.
Qed.

(** What a request to /add_dairy_entry leaves in the table. *)
Lemma add_dairy_entry_db (tbl : table) (req : request AddDairyEntryForm) (now : Z) :
  fst (route validate_entry validate_report tbl (AddDairyEntry req now)) = tbl
  \/ exists form previous_due,
       req = POST form /\ validate_entry form = true
       /\ fst (route validate_entry validate_report tbl (AddDairyEntry req now))
          = tbl ++ [ {| DairyEntry.id := next_id tbl;
                        DairyEntry.date := f_date form;
                        DairyEntry.m_name := f_m_name form;
                        DairyEntry.item := f_item form;
                        DairyEntry.weight := f_weight form;
                        DairyEntry.unit := f_unit form;
                        DairyEntry.price_per_unit := f_price_per_unit form;
                        DairyEntry.cost := nmul (f_price_per_unit form) (f_weight form);
                        DairyEntry.paid := f_paid form;
                        DairyEntry.due :=
                          nsub (nadd previous_due
                                  (nmul (f_price_per_unit form) (f_weight form)))
                               (f_paid form);
                        DairyEntry.created_at := now |} ].
Proof.
  destruct req as [|form]; [left; reflexivity|].
  destruct (validate_entry form) eqn:Hv.
  - destruct (Z_le_gt_dec (f_date form) 1) as [Hd|Hd].
    + left. cbn [route].
      rewrite (add_dairy_entry_date_min validate_entry tbl form now Hv Hd). reflexivity.
    + right.
      destruct (add_dairy_entry_stores validate_entry tbl form now Hv) as (pd & _ & E);
        [lia|].
      exists form, pd. split; [reflexivity|]. split; [exact Hv|].
      cbn [route]. rewrite E. reflexivity.
  - left. cbn [route add_dairy_entry]. rewrite Hv. reflexivity.
Qed.

(** X11. Only two kinds of request write to the table: a POST to
    /add_dairy_entry that passes validation, and a POST to /clear_dues.
    Every other request (the home page, the listing, the daily summary, any
    GET, an invalid form) leaves the table exactly as it was. *)
Theorem route_read_only (tbl : table) (r : http_request) :
  match r with
  | AddDairyEntry (POST form) _ => validate_entry form = false
  | ClearDues (POST _) => False
  | _ => True
  end ->
  fst (route validate_entry validate_report tbl r) = tbl.
Proof.
  destruct r as [|[|form] now| |req|[|form]]; cbn [route]; intros H;
    try reflexivity; try contradiction.
  - cbn [add_dairy_entry]. rewrite H. reflexivity.
  - apply dairy_daily_summary_db.
Qed.

Lemma route_primary_key (tbl : table) (r : http_request) :
  primary_key tbl -> primary_key (fst (route validate_entry validate_report tbl r)).
Proof.
  intros Hpk. destruct r as [|req now| |req|[|form]]; try exact Hpk.
  - destruct (add_dairy_entry_db tbl req now) as [->|(form & pd & _ & _ & ->)];
      [exact Hpk|].
    apply primary_key_snoc; [exact Hpk|]. intros x Hx. apply next_id_above, Hx.
  - cbn [route fst]. rewrite dairy_daily_summary_db. exact Hpk.
  - cbn [route fst]. destruct form as [m P]. rewrite clear_dues_post. cbn [db].
    unfold primary_key. rewrite commit_ids. exact Hpk.
Qed.

Lemma hook_keeps_table (app : app_state) (tbl : table) :
  dairy_entry app = Some tbl ->
  dairy_entry (create_tables_if_not_exists app) = Some tbl.
Proof.
  intros H. unfold create_tables_if_not_exists.
  destruct (_database_initialized app); simpl; [exact H|]. rewrite H. reflexivity.
Qed.

Lemma serve_table (app : app_state) (r : http_request) (tbl : table) :
  dairy_entry (create_tables_if_not_exists app) = Some tbl ->
  serve validate_entry validate_report app r
  = ({| _database_initialized := _database_initialized (create_tables_if_not_exists app);
        dairy_entry := Some (fst (route validate_entry validate_report tbl r)) |},
     snd (route validate_entry validate_report tbl r)).
Proof.
  intros H. unfold serve. rewrite H.
  destruct (route validate_entry validate_report tbl r). reflexivity.
Qed.

(** The table after one request, according to the state before it. *)
Lemma serve_cases (app : app_state) (r : http_request) :
  (exists tbl,
     (dairy_entry app = Some tbl
      \/ (dairy_entry app = None /\ _database_initialized app = false /\ tbl = []))
     /\ _database_initialized (fst (serve validate_entry validate_report app r)) = true
     /\ dairy_entry (fst (serve validate_entry validate_report app r))
        = Some (fst (route validate_entry validate_report tbl r))
     /\ snd (serve validate_entry validate_report app r)
        = snd (route validate_entry validate_report tbl r))
  \/ (dairy_entry app = None /\ _database_initialized app = true
      /\ fst (serve validate_entry validate_report app r) = app).
Proof.
  destruct app as [[|] [tbl|]].
  - left. exists tbl. split; [left; reflexivity|].
    rewrite (serve_table _ r tbl) by reflexivity. auto.
  - right. repeat split.
  - left. exists tbl. split; [left; reflexivity|].
    rewrite (serve_table _ r tbl) by reflexivity. auto.
  - left. exists []. split; [right; auto|].
    rewrite (serve_table _ r []) by reflexivity. auto.
Qed.

(** A property of the table that the empty table has and every route keeps
    holds after every run. *)
Lemma serve_all_invariant (Inv : table -> Prop) :
  Inv [] ->
  (forall tbl r, Inv tbl -> Inv (fst (route validate_entry validate_report tbl r))) ->
  forall rs app,
    (forall tbl, dairy_entry app = Some tbl -> Inv tbl) ->
    forall tbl', dairy_entry (fst (serve_all validate_entry validate_report app rs))
                 = Some tbl' -> Inv tbl'.
Proof.
  intros Hnil Hstep. induction rs as [|r rs IH]; intros app Happ tbl'; cbn [serve_all].
  - apply Happ.
  - destruct (serve validate_entry validate_report app r) as [app' answer] eqn:S.
    specialize (IH app').
    destruct (serve_all validate_entry validate_report app' rs) as [app'' answers].
    cbn [fst] in *. apply IH. intros tbl Htbl.
    destruct (serve_cases app r) as [(t & Ht & _ & Hd & _)|(Hn & _ & Hsame)];
      rewrite S in *; cbn [fst] in *.
    + rewrite Hd in Htbl. injection Htbl as <-. apply Hstep.
      destruct Ht as [Ht|(_ & _ & ->)]; [apply Happ, Ht | exact Hnil].
    + subst app'. congruence.
Qed.

(** X12. The primary key is an invariant of the application: whatever
    requests are served, in whatever order, no two rows of the table ever
    share an id. *)
Theorem serve_all_primary_key (app : app_state) (rs : list http_request) :
  (forall tbl, dairy_entry app = Some tbl -> primary_key tbl) ->
  forall tbl', dairy_entry (fst (serve_all validate_entry validate_report app rs))
               = Some tbl' -> primary_key tbl'.
Proof.
  apply (serve_all_invariant primary_key).
  - constructor.
  - intros tbl r. apply route_primary_key.
Qed.

Lemma costed_same_identity (e e' : entry) :
  same_identity e e' -> costed e -> costed e'.
Proof.
  unfold costed. intros (_ & _ & _ & _ & Hw & _ & Hp & Hc & _) H.
  rewrite Hw, Hp, Hc. exact H.
Qed.

Lemma route_costed (tbl : table) (r : http_request) :
  primary_key tbl /\ Forall costed tbl ->
  primary_key (fst (route validate_entry validate_report tbl r))
  /\ Forall costed (fst (route validate_entry validate_report tbl r)).
Proof.
  intros [Hpk Hc]. split; [apply route_primary_key, Hpk|].
  destruct r as [|req now| |req|[|form]]; try exact Hc.
  - destruct (add_dairy_entry_db tbl req now) as [->|(form & pd & _ & _ & ->)];
      [exact Hc|].
    apply Forall_app. split; [exact Hc|]. repeat constructor.
  - cbn [route fst]. rewrite dairy_daily_summary_db. exact Hc.
  - cbn [route fst]. destruct form as [m P].
    destruct (clear_dues_same_identity tbl m P Hpk) as [Heq Hid].
    rewrite Heq. apply Forall_forall. intros x Hx. apply in_map_iff in Hx.
    destruct Hx as (e & <- & He). apply (costed_same_identity e); [apply Hid, He|].
    rewrite Forall_forall in Hc. apply Hc, He.
Qed.

(** X13. [cost = price_per_unit * weight] is an invariant of the
    application: it holds of an entry when it is created, and no request
    changes the three fields afterwards. *)
Theorem serve_all_costed (app : app_state) (rs : list http_request) :
  (forall tbl, dairy_entry app = Some tbl -> primary_key tbl /\ Forall costed tbl) ->
  forall tbl', dairy_entry (fst (serve_all validate_entry validate_report app rs))
               = Some tbl' -> Forall costed tbl'.
Proof.
  intros Happ tbl' Htbl'.
  apply (serve_all_invariant (fun tbl => primary_key tbl /\ Forall costed tbl))
    with (rs := rs) (app := app); auto.
  - split; constructor.
  - intros tbl r. apply route_costed.
Qed.

Lemma extends_refl (tbl : table) : extends tbl tbl.
Proof.
  exists tbl, []. split; [symmetry; apply app_nil_r|].
  induction tbl; constructor; auto. apply same_identity_refl.
Qed.

Lemma same_identity_trans (a b c : entry) :
  same_identity a b -> same_identity b c -> same_identity a c.
Proof.
  unfold same_identity. intros H1 H2.
  destruct H1 as (A1 & A2 & A3 & A4 & A5 & A6 & A7 & A8 & A9).
  destruct H2 as (B1 & B2 & B3 & B4 & B5 & B6 & B7 & B8 & B9).
  repeat split; congruence.
Qed.

Lemma Forall2_same_identity_trans (l1 l2 l3 : list entry) :
  Forall2 same_identity l1 l2 -> Forall2 same_identity l2 l3 ->
  Forall2 same_identity l1 l3.
Proof.
  intros H. revert l3. induction H as [|a b l1 l2 Hab _ IH]; intros l3 H3;
    inversion H3; subst; constructor.
  - eapply same_identity_trans; eassumption.
  - apply IH. assumption.
Qed.

Lemma extends_trans (t1 t2 t3 : table) :
  extends t1 t2 -> extends t2 t3 -> extends t1 t3.
Proof.
  intros (k1 & a1 & -> & H1) (k2 & a2 & -> & H2).
  apply Forall2_app_inv_l in H2. destruct H2 as (k21 & k22 & Hk1 & Hk2 & ->).
  exists k21, (k22 ++ a2). split; [symmetry; apply app_assoc|].
  eapply Forall2_same_identity_trans; eassumption.
Qed.

Lemma route_extends (tbl : table) (r : http_request) :
  primary_key tbl -> extends tbl (fst (route validate_entry validate_report tbl r)).
Proof.
  intros Hpk. destruct r as [|req now| |req|[|form]];
    try apply extends_refl.
  - destruct (add_dairy_entry_db tbl req now) as [->|(form & pd & _ & _ & ->)];
      [apply extends_refl|].
    eexists tbl, _. split; [reflexivity|].
    clear. induction tbl; constructor; auto. apply same_identity_refl.
  - cbn [route fst]. rewrite dairy_daily_summary_db. apply extends_refl.
  - cbn [route fst]. destruct form as [m P].
    destruct (clear_dues_same_identity tbl m P Hpk) as [Heq Hid].
    exists (db (clear_dues tbl (POST {| f_m_name' := m; f_amount_paid := P |}))), [].
    split; [symmetry; apply app_nil_r|].
    rewrite Heq. apply Forall2_map_right. exact Hid.
Qed.

(** X14. No request deletes, moves or re-identifies a row: after any run,
    the table holds the rows it started with, in their places, each with
    its id, date, merchant, item, weight, unit, price, cost and
    [created_at], followed by the rows added since. *)
Theorem serve_all_extends (rs : list http_request) :
  forall (app : app_state) (tbl : table),
    dairy_entry app = Some tbl -> primary_key tbl ->
    exists tbl',
      dairy_entry (fst (serve_all validate_entry validate_report app rs)) = Some tbl'
      /\ extends tbl tbl'.
Proof.
  induction rs as [|r rs IH]; intros app tbl Htbl Hpk; cbn [serve_all].
  - exists tbl. split; [exact Htbl | apply extends_refl].
  - destruct (serve validate_entry validate_report app r) as [app' answer] eqn:S.
    destruct (serve_cases app r) as [(t & Ht & _ & Hd & _)|(Hn & _)];
      rewrite ?S in *; cbn [fst] in *; [|congruence].
    destruct Ht as [Ht|(Hnone & _)]; [|congruence].
    assert (t = tbl) as -> by congruence.
    destruct (IH app' _ Hd (route_primary_key tbl r Hpk)) as (tbl' & Hfin & Hext).
    destruct (serve_all validate_entry validate_report app' rs) as [app'' answers].
    exists tbl'. split; [exact Hfin|].
    eapply extends_trans; [apply route_extends, Hpk | exact Hext].
Qed.

(** X15. The [before_request] hook does its job: in a process that has
    just started, whether or not the database already holds the table, no
    request raises for a missing table, and after the first request the
    table exists and the hook has marked the application initialised. *)
Theorem serve_all_table_exists (database : option table) (rs : list http_request) :
  let run := serve_all validate_entry validate_report (started database) rs in
  ~ In (Raise "OperationalError") (snd run)
  /\ (rs <> [] ->
      _database_initialized (fst run) = true
      /\ exists tbl, dairy_entry (fst run) = Some tbl).
Proof.
  cbv zeta.
  assert (G : forall rs app,
             _database_initialized app = false \/ dairy_entry app <> None ->
             ~ In (Raise "OperationalError")
                  (snd (serve_all validate_entry validate_report app rs))
             /\ (rs <> [] ->
                 _database_initialized
                   (fst (serve_all validate_entry validate_report app rs)) = true
                 /\ exists tbl,
                      dairy_entry (fst (serve_all validate_entry validate_report app rs))
                      = Some tbl)).
  { clear rs. induction rs as [|r rs IH]; intros app Happ; cbn [serve_all].
    - split; [intros []|]. intros H. contradiction.
    - destruct (serve validate_entry validate_report app r) as [app' answer] eqn:S.
      destruct (serve_cases app r) as [(t & Ht & Hflag & Hd & Hans)|(Hn & Hf & _)];
        rewrite ?S in *; cbn [fst snd] in *.
      2: { destruct Happ as [Happ|Happ]; congruence. }
      destruct (IH app') as [IH1 IH2]; [right; congruence|].
      destruct (serve_all validate_entry validate_report app' rs) as [app'' answers] eqn:R.
      cbn [fst snd] in *. split.
      + intros [Hbad|Hbad]; [|exact (IH1 Hbad)].
        rewrite Hans in Hbad. clear -Hbad.
        destruct r as [|[|form] now| |req|req]; cbn [route snd] in Hbad;
          try discriminate.
        * cbn [add_dairy_entry] in Hbad.
          unfold get_previous_dairy_due, previous_day in Hbad.
          destruct (validate_entry form); [|discriminate].
          destruct (f_date form <=? 1); discriminate.
      + intros _. destruct rs as [|r' rs'].
        * cbn [serve_all] in R. injection R as <- <-. split; [exact Hflag|].
          eexists. exact Hd.
        * apply IH2. discriminate. }
  apply G. left. reflexivity.
Qed.

End Runs.

(** ** The daily summary when timestamps tell entries apart *)

Section SummaryLatest.
Context {N : Number}.

Lemma NoDup_of_ids (tbl : table) : primary_key tbl -> NoDup tbl.
Proof. intros H. apply (NoDup_map_inv DairyEntry.id), H. Qed.

(** A non-empty list of rows has a latest-created one. *)
Lemma latest_exists (l : list entry) :
  l <> [] ->
  exists e, In e l /\ forall x, In x l -> DairyEntry.created_at x <= DairyEntry.created_at e.
Proof.
  induction l as [|a l IH]; [congruence|]. intros _.
  destruct l as [|b l].
  - exists a. split; [left; reflexivity|]. intros x [->|[]]. lia.
  - destruct IH as (e & He & Hmax); [discriminate|].
    destruct (Z_le_gt_dec (DairyEntry.created_at a) (DairyEntry.created_at e)) as [H|H].
    + exists e. split; [right; exact He|]. intros x [->|Hx]; [exact H | apply Hmax, Hx].
    + exists a. split; [left; reflexivity|]. intros x [->|Hx]; [lia|].
      specialize (Hmax x Hx). lia.
Qed.

Lemma latest_of_day_iff (tbl : table) (d : Z) (e : entry) :
  latest_of_day tbl d e = true <->
  DairyEntry.date e = d
  /\ forall x, In x (entries_of tbl d) -> pair_of x = pair_of e ->
               DairyEntry.created_at x <= DairyEntry.created_at e.
Proof.
  unfold latest_of_day. rewrite andb_true_iff, Z.eqb_eq, forallb_forall.
  split; intros [Hd Hall]; (split; [exact Hd|]).
  - intros x Hx Hp. apply Z.leb_le, Hall, filter_In. split; [exact Hx|].
    apply pair_eqb_eq, Hp.
  - intros x Hx. apply filter_In in Hx. destruct Hx as [Hx Hp].
    apply Z.leb_le, Hall; [exact Hx | apply pair_eqb_eq, Hp].
Qed.

(** X16. The daily summary as section 4.3 describes it, for a table in
    which no two entries of a merchant and item carry the same
    [created_at]: the costs and payments of the day are summed, the profit
    or loss is income less cost, and the dues of the day are summed over
    exactly one entry for each (merchant, item) pair of the day, the one
    created last on that day. *)
Theorem dairy_daily_summary_latest_dues (validate : DairyDailyReportForm -> bool)
    (tbl : table) (form : DairyDailyReportForm) :
  validate form = true ->
  primary_key tbl ->
  stamps_identify tbl ->
  entries_of tbl (f_report_date form) <> [] ->
  let d := f_report_date form in
  let latest := filter (latest_of_day tbl d) tbl in
  resp (dairy_daily_summary validate tbl (POST form))
  = RenderIndex "dairy_daily_summary"
      (Some {| rd_date := d;
               total_cost_dairy := py_sum (map DairyEntry.cost (entries_of tbl d));
               total_paid_dairy := py_sum (map DairyEntry.paid (entries_of tbl d));
               total_cash_income := f_total_cash_income form;
               profit_loss :=
                 nsub (f_total_cash_income form)
                      (py_sum (map DairyEntry.cost (entries_of tbl d)));
               total_dues_today := or_zero (db_sum (map DairyEntry.due latest)) |})
  /\ NoDup (map pair_of latest)
  /\ (forall p, In p (map pair_of latest) <-> In p (map pair_of (entries_of tbl d)))
  /\ (forall e, In e latest ->
        In e (entries_of tbl d)
        /\ forall x, In x (entries_of tbl d) -> pair_of x = pair_of e ->
                     DairyEntry.created_at x <= DairyEntry.created_at e).
Proof.
  intros Hv Hpk Hst Hne d latest.
  assert (Hlatest : forall e, In e latest <->
            In e (entries_of tbl d)
            /\ forall x, In x (entries_of tbl d) -> pair_of x = pair_of e ->
                         DairyEntry.created_at x <= DairyEntry.created_at e).
  { intros e. unfold latest. rewrite filter_In, latest_of_day_iff.
    unfold entries_of at 2. rewrite filter_In, Z.eqb_eq. tauto. }
  split; [|split; [|split]].
  - rewrite (dairy_daily_summary_report validate tbl form Hv Hne). cbn [resp].
    fold d. rewrite (latest_dues_for_day_latest tbl d Hst). reflexivity.
  - apply NoDup_map_NoDup_ForallPairs.
    + intros a b Ha Hb Hp. apply Hlatest in Ha, Hb.
      destruct Ha as [Ha Hamax], Hb as [Hb Hbmax].
      specialize (Hamax b Hb (eq_sym Hp)). specialize (Hbmax a Ha Hp).
      unfold entries_of in Ha, Hb. apply filter_In in Ha, Hb.
      apply Hst; try tauto. lia.
    + apply NoDup_filter, NoDup_of_ids, Hpk.
  - intros p. rewrite !in_map_iff. split.
    + intros (e & Hp & He). apply Hlatest in He. exists e. tauto.
    + intros (e & Hp & He).
      set (group := filter (fun x => pair_eqb (pair_of x) p) (entries_of tbl d)).
      destruct (latest_exists group) as (l & Hl & Hmax).
      { intros E. assert (In e group) as Hin.
        { apply filter_In. split; [exact He | apply pair_eqb_eq, Hp]. }
        rewrite E in Hin. exact Hin. }
      apply filter_In in Hl. destruct Hl as [Hl Hlp]. apply pair_eqb_eq in Hlp.
      exists l. split; [exact Hlp|]. apply Hlatest. split; [exact Hl|].
      intros x Hx Hxp. apply Hmax, filter_In. split; [exact Hx|].
      apply pair_eqb_eq. congruence.
  - intros e He. apply Hlatest, He.
Qed.

End SummaryLatest.

(** ** Whole amounts add exactly *)

Module F64Sums.
Import F64 F64Facts.

Lemma shl_align_fst (m : positive) (e e' : Z) :
  e' <= e ->
  exists m', fst (shl_align m e e') = m' /\ Z.pos m' = Z.pos m * 2 ^ (e - e').
Proof.
  intros H. destruct (Z_lt_le_dec e' e) as [Hlt|Hge].
  - destruct (shl_align_lt m e e' Hlt) as (m' & -> & Hm'). exists m'. auto.
  - rewrite shl_align_ge by exact Hge. exists m. split; [reflexivity|].
    replace (e - e') with 0 by lia. simpl. lia.
Qed.

(** The sum of two positive floats is the rounding of the exact sum; it is
    the exact sum when that is a float. *)
Lemma add_pos (ma mb : positive) (ea eb : Z) :
  canonical ma ea -> canonical mb eb ->
  exists m'' e'',
    F64.add (S754_finite false ma ea) (S754_finite false mb eb) = rounded m'' e''
    /\ canonical m'' e''
    /\ ((exists m0 e0, canonical m0 e0
                       /\ scaled m0 e0 = scaled ma ea + scaled mb eb) ->
        scaled m'' e'' = scaled ma ea + scaled mb eb).
Proof.
  intros Ca Cb.
  pose proof (canonical_ge _ _ Ca) as Ga. pose proof (canonical_ge _ _ Cb) as Gb.
  set (ez := Z.min ea eb).
  assert (Gz : -1074 <= ez) by (unfold ez; lia).
  destruct (shl_align_fst ma ea ez) as (ma' & Hfa & Hma'); [unfold ez; lia|].
  destruct (shl_align_fst mb eb ez) as (mb' & Hfb & Hmb'); [unfold ez; lia|].
  assert (Hsa : scaled ma ea = Z.pos ma' * 2 ^ (ez + 1074)).
  { rewrite (scaled_split ma ea ez) by (unfold ez; lia). rewrite Hma'. reflexivity. }
  assert (Hsb : scaled mb eb = Z.pos mb' * 2 ^ (ez + 1074)).
  { rewrite (scaled_split mb eb ez) by (unfold ez; lia). rewrite Hmb'. reflexivity. }
  assert (HV : scaled (ma' + mb') ez = scaled ma ea + scaled mb eb).
  { rewrite Hsa, Hsb. unfold scaled. rewrite Pos2Z.inj_add. ring. }
  unfold F64.add, SFadd. fold ez. rewrite Hfa, Hfb.
  simpl cond_Zopp. rewrite <- Pos2Z.inj_add. simpl binary_normalize.
  destruct (binary_round_pos (ma' + mb') ez Gz) as (m'' & e'' & Hr & Hc & _ & Hex).
  exists m'', e''. rewrite Hr. split; [reflexivity|]. split; [exact Hc|].
  rewrite <- HV. exact Hex.
Qed.

(** Whole amounts add exactly, below [2^53]. *)
Lemma add_of_Z (a b : Z) :
  0 <= a -> 0 <= b -> a + b < 2 ^ 53 ->
  F64.add (F64.of_Z a) (F64.of_Z b) = F64.of_Z (a + b).
Proof.
  intros Ha Hb Hab.
  destruct (Z.eq_dec a 0) as [->|Ha0].
  - change (F64.of_Z 0) with (S754_zero false). rewrite Z.add_0_l.
    destruct (Z.eq_dec b 0) as [->|Hb0]; [reflexivity|].
    destruct (of_Z_pos b ltac:(lia)) as (m & e & -> & _). reflexivity.
  - destruct (Z.eq_dec b 0) as [->|Hb0].
    + change (F64.of_Z 0) with (S754_zero false). rewrite Z.add_0_r.
      destruct (of_Z_pos a ltac:(lia)) as (m & e & -> & _). reflexivity.
    + destruct (of_Z_pos a ltac:(lia)) as (ma & ea & -> & Ca & Hea & Va).
      destruct (of_Z_pos b ltac:(lia)) as (mb & eb & -> & Cb & Heb & Vb).
      destruct (of_Z_pos (a + b) ltac:(lia)) as (ms & es & -> & Cs & Hes & Vs).
      destruct (add_pos ma mb ea eb Ca Cb) as (m'' & e'' & -> & Hc & Hex).
      assert (Hv : scaled ms es = scaled ma ea + scaled mb eb)
        by (rewrite Va, Vb, Vs; ring).
      specialize (Hex (ex_intro _ _ (ex_intro _ _ (conj Cs Hv)))).
      rewrite <- Hv in Hex.
      destruct (scaled_inj _ _ _ _ Hc Cs Hex) as [-> ->].
      unfold rounded. replace (es <=? 971) with true by (symmetry; apply Z.leb_le; lia).
      reflexivity.
Qed.

Lemma f64_add_exact (a b : spec_float) :
  whole a -> whole b -> to_Z a + to_Z b < 2 ^ 53 ->
  whole (F64.add a b) /\ to_Z (F64.add a b) = to_Z a + to_Z b.
Proof.
  intros Ha Hb Hs.
  destruct (whole_inv a Ha) as [Ra Ea]. destruct (whole_inv b Hb) as [Rb Eb].
  rewrite Ea, Eb at 1 2. rewrite !add_of_Z by lia.
  split; [apply whole_of_Z; lia | apply to_Z_of_Z; lia].
Qed.

(** Python floats add whole amounts exactly while the sum is below
    [2^53]. *)
Definition binary64_ExactSum : @ExactSum binary64 binary64_ExactArith :=
  @Build_ExactSum binary64 binary64_ExactArith (fun z => z < 2 ^ 53)
    eq_refl (fun a b Hb Hab => Z.le_lt_trans a b (2 ^ 53) Hab Hb) f64_add_exact.

End F64Sums.

(** ** Settlement on finite dues is committed *)

Module SqliteCommits.
Import F64 F64Facts F64Sums.

#[local] Existing Instance binary64.

(** What the loop pays on a finite due is a positive finite float. *)
Lemma pay_positive_finite (d r : spec_float) :
  finite_amount d -> SFltb F64.pos_zero d = true ->
  Sqlite.is_float r -> SFleb r F64.pos_zero = false ->
  exists m e, py_min d r = S754_finite false m e /\ canonical m e.
Proof.
  intros Hd Hdpos Hr Hrpos.
  destruct (positive_finite d Hd Hdpos) as (md & ed & -> & Cd & _).
  unfold py_min. cbn [nltb binary64].
  destruct (SFltb r (S754_finite false md ed)) eqn:C.
  - destruct r as [[|]|[|]| |[|] m e]; try discriminate.
    exists m, e. split; [reflexivity|]. apply bounded_iff, Hr.
  - exists md, ed. split; [reflexivity | exact Cd].
Qed.

(** Crediting a payment to an amount paid that is not below zero gives a
    number. *)
Lemma credit_is_a_number (paid : spec_float) (m : positive) (e : Z) :
  Sqlite.is_float paid -> SFleb F64.pos_zero paid = true -> canonical m e ->
  Sqlite.is_nan (F64.add paid (S754_finite false m e)) = false.
Proof.
  intros Hv Hpos C. destruct paid as [s|[|]| |[|] mp ep]; try discriminate.
  - reflexivity.
  - reflexivity.
  - assert (Cp : canonical mp ep) by (apply bounded_iff, Hv).
    destruct (add_pos mp m ep e Cp C) as (m'' & e'' & -> & _).
    unfold rounded. destruct (e'' <=? 971); reflexivity.
Qed.

(** On finite dues and amounts paid that are not below zero, no payment
    makes the loop assign a NaN. *)
Lemma assigned_updatable (objs : list entry) :
  forall r : spec_float,
    Sqlite.is_float r ->
    Forall (fun e => (finite_amount (DairyEntry.due e)
                      /\ SFltb F64.pos_zero (DairyEntry.due e) = true)
                     /\ Sqlite.is_float (DairyEntry.paid e)
                     /\ SFleb F64.pos_zero (DairyEntry.paid e) = true) objs ->
    forallb Sqlite.updatable (Sqlite.assigned objs r) = true.
Proof.
  induction objs as [|e objs IH]; intros r Hr Hobjs; [reflexivity|].
  inversion Hobjs as [|? ? [[Hd Hpos] [Hp Hppos]] Hrest]; subst.
  cbn [Sqlite.assigned].
  change (@nleb binary64 r (@n0 binary64)) with (SFleb r F64.pos_zero).
  destruct (SFleb r F64.pos_zero) eqn:Hbreak; [reflexivity|].
  destruct (SqliteFacts.settle_step_any e r (proj1 Hd) Hpos Hr Hbreak) as [_ Hr'].
  destruct (pay_positive_finite _ r Hd Hpos Hr Hbreak) as (m & ex & Hpay & C).
  assert (Hdue : Sqlite.is_nan
                   (DairyEntry.due (pay_entry e (py_min (DairyEntry.due e) r)))
                 = false).
  { destruct (SqliteFacts.remaining_cases r Hr Hbreak) as [Er|[Er|[Hrf _]]].
    - destruct (positive_finite _ Hd Hpos) as (md & ed & Ed & _).
      unfold py_min. cbn [pay_entry DairyEntry.due DairyEntry.set_due DairyEntry.set_paid].
      rewrite Ed, Er. cbn [nltb nsub binary64].
      change (SFltb F64.nan (S754_finite false md ed)) with false. cbv iota.
      rewrite SqliteFacts.sub_finite_self. reflexivity.
    - destruct (positive_finite _ Hd Hpos) as (md & ed & Ed & _).
      unfold py_min. cbn [pay_entry DairyEntry.due DairyEntry.set_due DairyEntry.set_paid].
      rewrite Ed, Er. cbn [nltb nsub binary64].
      change (SFltb F64.inf (S754_finite false md ed)) with false. cbv iota.
      rewrite SqliteFacts.sub_finite_self. reflexivity.
    - destruct (@settle_step_bounds binary64 binary64_MonotoneSub e r Hd Hpos Hrf Hbreak)
        as [[Hb _] _].
      destruct (DairyEntry.due (pay_entry e (py_min (DairyEntry.due e) r)));
        [reflexivity | reflexivity | discriminate | reflexivity]. }
  cbn [forallb]. rewrite (IH _ Hr' Hrest), andb_true_r.
  change (DairyEntry.set_due (DairyEntry.set_paid e (nadd (DairyEntry.paid e) _)) _)
    with (pay_entry e (py_min (DairyEntry.due e) r)).
  unfold Sqlite.updatable. rewrite Hdue.
  cbn [pay_entry DairyEntry.paid DairyEntry.set_due DairyEntry.set_paid].
  rewrite Hpay. cbn [nadd binary64].
  rewrite (credit_is_a_number _ m ex Hp Hppos C). reflexivity.
Qed.

(** Where the selected dues are finite and nothing paid is below zero,
    every payment is committed: the table after the request is the one
    [clear_dues] computes. *)
Lemma clear_dues_commits (tbl : table) (m : string) (P : spec_float) :
  (forall e, In e tbl -> has_dues m e = true ->
             finite_amount (DairyEntry.due e)
             /\ Sqlite.is_float (DairyEntry.paid e)
             /\ SFleb F64.pos_zero (DairyEntry.paid e) = true) ->
  Sqlite.is_float P ->
  Sqlite.clear_dues tbl (POST {| f_m_name' := m; f_amount_paid := P |})
  = Ok (clear_dues tbl (POST {| f_m_name' := m; f_amount_paid := P |})).
Proof.
  intros Hsel HP. unfold Sqlite.clear_dues. cbn [f_m_name' f_amount_paid].
  rewrite assigned_updatable; [reflexivity | exact HP |].
  apply Forall_forall. intros e He. apply entries_with_dues_In in He.
  destruct He as (He & Hm & Hd).
  assert (Hh : has_dues m e = true).
  { unfold has_dues. rewrite Hd, andb_true_r. apply String.eqb_eq, Hm. }
  destruct (Hsel e He Hh) as (Hf & Hp & Hpp). auto.
Qed.

End SqliteCommits.

(** ** Settlement credits what it takes off *)

Section Conservation.
Context {N : Number} {E : ExactArith N} {S : ExactSum N}.

(** One iteration of the loop that passes the [break] test: what leaves
    [due] goes to [paid]. *)
Lemma settle_step_conserves (e : entry) (r : num) :
  payable e -> exact_ok (DairyEntry.paid e) ->
  sum_ok (paid_value e + due_value e) ->
  exact_ok r -> 0 < val r ->
  let e' := pay_entry e (py_min (DairyEntry.due e) r) in
  paid_value e' + due_value e' = paid_value e + due_value e
  /\ paid_value e <= paid_value e'.
Proof.
  intros He Hp Hs Hr Hrpos e'.
  destruct (settle_step_exact e r He Hr Hrpos) as (Hpay & _ & Hdue & _ & _).
  destruct He as [Hd Hdpos].
  destruct (py_min_exact (DairyEntry.due e) r Hd Hr) as [Hpok _].
  fold e' in Hdue. set (pay := py_min (DairyEntry.due e) r) in *.
  destruct (add_exact (DairyEntry.paid e) pay Hp Hpok) as [_ Hadd].
  { apply (sum_ok_le _ (paid_value e + due_value e)); [exact Hs|].
    unfold paid_value. lia. }
  assert (Hpaid : paid_value e' = paid_value e + val pay) by exact Hadd.
  lia.
Qed.

(** X17. Where the arithmetic is exact, settlement moves money from [due]
    to [paid] and neither creates nor loses any: for every entry,
    [paid + due] is the same before and after, and [paid] does not go
    down. *)
Theorem clear_dues_conserves (tbl : table) (m : string) (P : num) :
  primary_key tbl ->
  exact_dues tbl m ->
  exact_ok P ->
  (forall e, In e tbl -> has_dues m e = true ->
             exact_ok (DairyEntry.paid e) /\ sum_ok (paid_value e + due_value e)) ->
  Forall2 (fun e e' =>
             paid_value e' + due_value e' = paid_value e + due_value e
             /\ paid_value e <= paid_value e')
          tbl
          (db (clear_dues tbl (POST {| f_m_name' := m; f_amount_paid := P |}))).
Proof.
  intros Hpk Hdues HP Hpaid.
  set (R := fun e e' : entry =>
              paid_value e' + due_value e' = paid_value e + due_value e
              /\ paid_value e <= paid_value e').
  destruct (clear_dues_rows R tbl m P Hpk) as [Heq Hrows].
  { apply (settle_loop_Forall2 exact_ok
             (fun e => payable e /\ exact_ok (DairyEntry.paid e)
                       /\ sum_ok (paid_value e + due_value e))).
    - intros e _. unfold R. lia.
    - intros e r (He & Hp & Hs) Hr Hnle.
      rewrite (leb_exact r n0 Hr exact_n0), val_n0 in Hnle. apply Z.leb_gt in Hnle.
      split; [apply settle_step_conserves; assumption|].
      apply (settle_step_exact e r He Hr Hnle).
    - pose proof (entries_with_dues_payable tbl m Hdues) as Hpay.
      rewrite Forall_forall in Hpay |- *. intros e He.
      split; [apply Hpay, He|]. apply entries_with_dues_In in He.
      destruct He as (He & Hm & Hd). apply Hpaid; [exact He|].
      unfold has_dues. rewrite Hd, andb_true_r. apply String.eqb_eq, Hm.
    - exact HP. }
  set (tbl' := db _) in *. rewrite Heq.
  apply Forall2_map_right. intros e He.
  destruct (Hrows e He) as [[_ HR]|[_ Hsame]]; [exact HR|].
  rewrite Hsame. unfold R. lia.
Qed.

End Conservation.

(** ** Settling in instalments *)

Section SortAndFilter.
Context {N : Number}.
Variable key : entry -> Z.

Lemma insert_by_front (e : entry) (l : list entry) :
  Forall (fun x => key e < key x) l ->
  insert_by key e l = e :: l.
Proof.
  destruct l as [|x l]; [reflexivity|]. intros H. inversion H as [|? ? Hx _]; subst.
  simpl. apply Z.ltb_lt in Hx. rewrite Hx. reflexivity.
Qed.

Lemma filter_insert_by (c : entry -> bool) (e : entry) (l : list entry) :
  StronglySorted (key_le key) l ->
  filter c (insert_by key e l)
  = if c e then insert_by key e (filter c l) else filter c l.
Proof.
  induction 1 as [|x l Hs IH Hx]; simpl.
  - destruct (c e); reflexivity.
  - destruct (key e <? key x) eqn:C.
    + simpl. destruct (c e) eqn:Ce; [|reflexivity].
      destruct (c x) eqn:Cx; simpl; [rewrite C; reflexivity|].
      symmetry. apply insert_by_front. apply Forall_forall. intros y Hy.
      apply filter_In in Hy. destruct Hy as [Hy _].
      rewrite Forall_forall in Hx. specialize (Hx y Hy).
      apply Z.ltb_lt in C. unfold key_le in Hx. lia.
    + simpl. rewrite IH. destruct (c x) eqn:Cx, (c e) eqn:Ce; simpl;
        rewrite ?C; reflexivity.
Qed.

Lemma filter_andb (c d : entry -> bool) (l : list entry) :
  filter (fun x => c x && d x) l = filter d (filter c l).
Proof.
  induction l as [|x l IH]; simpl; [reflexivity|].
  destruct (c x); simpl; [|exact IH]. destruct (d x); rewrite IH; reflexivity.
Qed.

(** A stable sort commutes with a filter. *)
Lemma order_by_filter (c : entry -> bool) (l : list entry) :
  order_by key (filter c l) = filter c (order_by key l).
Proof.
  unfold order_by.
  assert (G : forall acc, StronglySorted (key_le key) acc ->
              fold_left (fun a e => insert_by key e a) (filter c l) (filter c acc)
              = filter c (fold_left (fun a e => insert_by key e a) l acc)).
  { induction l as [|e l IH]; intros acc Hacc; simpl; [reflexivity|].
    rewrite <- (IH (insert_by key e acc)) by (apply insert_by_sorted, Hacc).
    rewrite (filter_insert_by c e acc Hacc).
    destruct (c e); reflexivity. }
  apply (G []). constructor.
Qed.

End SortAndFilter.

Section Instalments.
Context {N : Number} {E : ExactArith N}.

Lemma pay_down_nothing (dues : list Z) (p : Z) : p <= 0 -> pay_down dues p = dues.
Proof.
  intros Hp. induction dues as [|d dues IH]; simpl; [reflexivity|].
  replace (Z.max 0 (Z.min d p)) with 0 by lia.
  rewrite !Z.sub_0_r, IH. reflexivity.
Qed.

(** Two payments one after the other allocate as their sum. *)
Lemma pay_down_twice (dues : list Z) :
  forall p1 p2 : Z,
    0 <= p1 -> 0 <= p2 -> Forall (fun d => 0 <= d) dues ->
    pay_down (pay_down dues p1) p2 = pay_down dues (p1 + p2).
Proof.
  induction dues as [|d dues IH]; intros p1 p2 H1 H2 Hd; simpl; [reflexivity|].
  inversion Hd as [|? ? Hd0 Hrest]; subst.
  rewrite IH by (assumption || lia).
  f_equal; [lia|]. f_equal. lia.
Qed.

(** The loop, on the values of the dues. *)
Lemma settle_loop_pay_down (objs : list entry) :
  forall r : num,
    exact_ok r -> Forall payable objs ->
    map due_value (fst (settle_loop objs r)) = pay_down (map due_value objs) (val r).
Proof.
  induction objs as [|e objs IH]; intros r Hr Hobjs; [reflexivity|].
  inversion Hobjs as [|? ? He Hrest]; subst.
  destruct (Z_le_gt_dec (val r) 0) as [Hle|Hgt].
  - rewrite settle_loop_break, pay_down_nothing by assumption. reflexivity.
  - destruct (settle_step_exact e r He Hr) as (Hpay & _ & Hdue & Hr' & Hrv); [lia|].
    cbn [settle_loop]. rewrite (leb_exact r n0 Hr exact_n0), val_n0.
    replace (val r <=? 0) with false by (symmetry; apply Z.leb_gt; lia).
    set (pay := py_min (DairyEntry.due e) r) in *.
    specialize (IH (nsub r pay) Hr' Hrest).
    destruct (settle_loop objs (nsub r pay)) as [rest' r'']. cbn [fst map] in *.
    change (DairyEntry.set_due (DairyEntry.set_paid e (nadd (DairyEntry.paid e) pay)) _)
      with (pay_entry e pay).
    rewrite Hdue, IH. cbn [pay_down].
    destruct He as [_ Hpos].
    replace (Z.max 0 (Z.min (due_value e) (val r))) with (val pay) by lia.
    rewrite Hrv. reflexivity.
Qed.

(** A second settlement reads only the entries that still have a due; on
    the values it is the allocation over all of them, the settled ones
    taking nothing. *)
Lemma settle_loop_skipping (l : list entry) :
  NoDup (map DairyEntry.id l) ->
  Forall (fun e => exact_ok (DairyEntry.due e) /\ 0 <= due_value e) l ->
  forall r : num,
    exact_ok r ->
    map due_value
        (map (after (fst (settle_loop
                            (filter (fun e => nltb n0 (DairyEntry.due e)) l) r))) l)
    = pay_down (map due_value l) (val r).
Proof.
  induction l as [|e l IH]; intros Hnd Hl r Hr; [reflexivity|].
  inversion Hnd as [|? ? Hfresh Hnd']; subst.
  inversion Hl as [|? ? [Hd Hd0] Hl']; subst.
  set (pos := fun e : entry => nltb n0 (DairyEntry.due e)) in *.
  assert (Hsub : forall r0 x,
             In x (map DairyEntry.id (fst (settle_loop (filter pos l) r0))) ->
             In x (map DairyEntry.id l)).
  { intros r0 x Hx. rewrite settle_loop_ids in Hx. apply in_map_iff in Hx.
    destruct Hx as (y & <- & Hy). apply filter_In in Hy. apply in_map, Hy. }
  cbn [filter]. destruct (pos e) eqn:Pe.
  - (* [e] still has a due *)
    assert (He : payable e).
    { split; [exact Hd|]. unfold pos in Pe.
      rewrite (ltb_exact n0 _ exact_n0 Hd), val_n0 in Pe. apply Z.ltb_lt, Pe. }
    destruct (Z_le_gt_dec (val r) 0) as [Hle|Hgt].
    + rewrite settle_loop_break, pay_down_nothing by assumption. cbn [fst].
      f_equal. change (map (after (e :: filter pos l)) (e :: l))
        with (commit (e :: l) (e :: filter pos l)).
      apply commit_same; [exact Hnd|].
      intros x [<-|Hx]; [left; reflexivity|]. right. apply filter_In in Hx. apply Hx.
    + destruct (settle_step_exact e r He Hr) as (Hpay & _ & Hdue & Hr' & Hrv); [lia|].
      cbn [settle_loop]. rewrite (leb_exact r n0 Hr exact_n0), val_n0.
      replace (val r <=? 0) with false by (symmetry; apply Z.leb_gt; lia).
      set (pay := py_min (DairyEntry.due e) r) in *.
      specialize (IH Hnd' Hl' (nsub r pay) Hr'). specialize (Hsub (nsub r pay)).
      destruct (settle_loop (filter pos l) (nsub r pay)) as [rest' r''].
      cbn [fst map pay_down] in *.
      change (DairyEntry.set_due (DairyEntry.set_paid e (nadd (DairyEntry.paid e) pay)) _)
        with (pay_entry e pay).
      destruct He as [_ Hpos].
      replace (Z.max 0 (Z.min (due_value e) (val r))) with (val pay) by lia.
      rewrite <- Hrv, <- IH. f_equal.
      * unfold after, row_of. cbn [find DairyEntry.id pay_entry DairyEntry.set_due
                                    DairyEntry.set_paid].
        rewrite Z.eqb_refl. exact Hdue.
      * rewrite !map_map. apply map_ext_in. intros x Hx.
        unfold after, row_of. cbn [find DairyEntry.id pay_entry DairyEntry.set_due
                                    DairyEntry.set_paid].
        destruct (DairyEntry.id e =? DairyEntry.id x) eqn:C; [|reflexivity].
        apply Z.eqb_eq in C. exfalso. apply Hfresh. rewrite C. apply in_map, Hx.
  - (* [e] is settled: the loop does not see it *)
    assert (He0 : due_value e = 0).
    { unfold pos in Pe. rewrite (ltb_exact n0 _ exact_n0 Hd), val_n0 in Pe.
      apply Z.ltb_ge in Pe. unfold due_value in *. lia. }
    specialize (IH Hnd' Hl' r Hr). specialize (Hsub r).
    cbn [map pay_down]. rewrite He0.
    replace (Z.max 0 (Z.min 0 (val r))) with 0 by lia. rewrite !Z.sub_0_r.
    rewrite <- IH. f_equal.
    rewrite after_other; [exact He0|]. intros Hin. apply Hfresh, Hsub, Hin.
Qed.

(** The entries the next settlement of the merchant selects: those of this
    one that still have a due, in the same order. *)
Lemma entries_with_dues_after (tbl : table) (m : string) (P : num) :
  primary_key tbl ->
  entries_with_dues
    (db (clear_dues tbl (POST {| f_m_name' := m; f_amount_paid := P |}))) m
  = filter (fun e => nltb n0 (DairyEntry.due e))
           (fst (settle_loop (entries_with_dues tbl m) P)).
Proof.
  intros Hpk.
  destruct (clear_dues_same_identity tbl m P Hpk) as [Heq Hid].
  pose proof (clear_dues_objects tbl m P Hpk) as Hobjs.
  set (tbl' := db _) in *. set (f := after tbl') in *.
  set (pos := fun e : entry => nltb n0 (DairyEntry.due e)).
  assert (Hsel : forall e, In e tbl ->
                   has_dues m (f e) = has_dues m e && pos (f e)).
  { intros e He. destruct (has_dues m e) eqn:C.
    - unfold has_dues in *. destruct (Hid e He) as (_ & _ & -> & _).
      apply andb_true_iff in C. destruct C as [-> _]. reflexivity.
    - unfold f, tbl'. rewrite (clear_dues_unselected tbl m P e Hpk He C). exact C. }
  unfold entries_with_dues at 1. fold (has_dues m). rewrite Heq.
  rewrite filter_map_comm.
  rewrite (filter_ext_in (fun x => has_dues m (f x))
             (fun x => has_dues m x && pos (f x)) tbl Hsel).
  assert (Hff : filter (fun x => has_dues m x && pos (f x)) tbl
                = filter (fun x => pos (f x)) (filter (has_dues m) tbl)).
  { apply filter_andb. }
  rewrite Hff, <- filter_map_comm, order_by_filter. f_equal.
  rewrite order_by_map.
  - exact Hobjs.
  - intros x Hx. apply filter_In in Hx. destruct Hx as [Hx _].
    destruct (Hid x Hx) as (_ & -> & _). reflexivity.
Qed.

(** X18. Where the arithmetic is exact, paying in two instalments leaves
    every entry with the due it has after paying the sum at once. *)
Theorem clear_dues_instalments (tbl : table) (m : string) (P1 P2 P3 : num) :
  primary_key tbl ->
  exact_dues tbl m ->
  exact_ok P1 -> exact_ok P2 -> exact_ok P3 ->
  0 <= val P1 -> 0 <= val P2 -> val P3 = val P1 + val P2 ->
  let settle := fun (t : table) (P : num) =>
                  db (clear_dues t (POST {| f_m_name' := m; f_amount_paid := P |})) in
  map due_value (settle (settle tbl P1) P2) = map due_value (settle tbl P3).
Proof.
  intros Hpk Hdues H1 H2 H3 Hp1 Hp2 Hsum settle. unfold settle.
  pose proof (entries_with_dues_payable tbl m Hdues) as Hpay.
  pose proof (entries_with_dues_after tbl m P1 Hpk) as Hnext.
  set (objs := entries_with_dues tbl m) in *.
  set (objs1 := fst (settle_loop objs P1)) in *.
  set (objs3 := fst (settle_loop objs P3)).
  assert (Hnd : NoDup (map DairyEntry.id objs)) by apply entries_with_dues_ids, Hpk.
  assert (Hids1 : map DairyEntry.id objs1 = map DairyEntry.id objs)
    by apply settle_loop_ids.
  assert (Hids3 : map DairyEntry.id objs3 = map DairyEntry.id objs)
    by apply settle_loop_ids.
  assert (Hpk1 : primary_key
                   (db (clear_dues tbl (POST {| f_m_name' := m; f_amount_paid := P1 |})))).
  { rewrite clear_dues_post. cbn [db]. unfold primary_key. rewrite commit_ids.
    exact Hpk. }
  rewrite (clear_dues_post (db _) m P2), Hnext.
  set (objs2 := fst (settle_loop (filter _ objs1) P2)).
  rewrite !clear_dues_post. cbn [db]. fold objs objs1 objs3.
  rewrite !commit_after, !map_map.
  (* on the entries the first settlement selected *)
  assert (Hsel : map (fun e => due_value (after objs2 (after objs1 e))) objs
                 = map (fun e => due_value (after objs3 e)) objs).
  { rewrite <- (map_map (after objs3) due_value).
    rewrite <- (map_map (after objs1) (fun x => due_value (after objs2 x))).
    rewrite <- (map_map (after objs2) due_value).
    rewrite (after_aligned objs objs1 Hnd Hids1), (after_aligned objs objs3 Hnd Hids3).
    unfold objs2. rewrite settle_loop_skipping.
    - unfold objs1, objs3. rewrite !settle_loop_pay_down by assumption.
      rewrite pay_down_twice, Hsum; auto.
      clear -Hpay. induction Hpay as [|e l [_ He] _ IH]; constructor; auto. lia.
    - rewrite Hids1. exact Hnd.
    - apply settle_loop_exact; assumption.
    - exact H2. }
  apply map_ext_in. intros e He.
  destruct (in_dec Z.eq_dec (DairyEntry.id e) (map DairyEntry.id objs)) as [Hin|Hout].
  - apply in_map_iff in Hin. destruct Hin as (x & Hid & Hx).
    assert (x = e) as ->.
    { apply (id_inj tbl); auto. apply (entries_with_dues_incl tbl m), Hx. }
    apply (proj1 (@map_ext_in_iff _ _ _ _ objs) Hsel e Hx).
  - rewrite (after_other objs1) by (rewrite Hids1; exact Hout).
    rewrite (after_other objs3) by (rewrite Hids3; exact Hout).
    rewrite after_other; [reflexivity|].
    unfold objs2. rewrite settle_loop_ids. intros Hin. apply Hout.
    apply in_map_iff in Hin. destruct Hin as (y & Hy & Hin). apply filter_In in Hin.
    rewrite <- Hids1, <- Hy. apply in_map, Hin.
Qed.

End Instalments.

(** ** The /clear_dues page after a settlement *)

Section PageAfterSettlement.
Context {N : Number} {E : ExactArith N} {S : ExactSum N}.

(** [func.sum] and [sum] on exact amounts whose positive parts stay within
    the exact sums: the value is the sum of the values. *)
Lemma fold_nadd_exact (B : Z) (xs : list num) :
  sum_ok B -> Forall exact_ok xs ->
  forall acc : num,
    exact_ok acc ->
    val acc + total (map (fun x => Z.max 0 (val x)) xs) <= B ->
    exact_ok (fold_left nadd xs acc)
    /\ val (fold_left nadd xs acc) = val acc + total (map val xs).
Proof.
  intros HB Hxs. induction Hxs as [|x xs Hx _ IH]; intros acc Hacc Hle; simpl in *.
  - split; [exact Hacc | lia].
  - assert (Hnn : 0 <= total (map (fun x => Z.max 0 (val x)) xs)).
    { clear. induction xs; simpl; lia. }
    destruct (add_exact acc x Hacc Hx) as [Hok Hv].
    { apply (sum_ok_le _ B); [exact HB | lia]. }
    destruct (IH (nadd acc x) Hok) as [IH1 IH2]; [lia|].
    split; [exact IH1 | lia].
Qed.

(** What settlement makes of each selected entry, in values. *)
Lemma settle_loop_lowers (objs : list entry) (r : num) :
  exact_ok r -> 0 <= val r -> Forall payable objs ->
  Forall2 (fun e e' => exact_ok (DairyEntry.due e')
                       /\ 0 <= due_value e' <= due_value e)
          objs (fst (settle_loop objs r)).
Proof.
  intros Hr Hr0 Hobjs.
  apply (settle_loop_Forall2 (fun r => exact_ok r /\ 0 <= val r) payable).
  - intros e [H1 H2]. split; [exact H1 | lia].
  - intros e r0 He [Hr1 Hr1v] Hnle.
    rewrite (leb_exact r0 n0 Hr1 exact_n0), val_n0 in Hnle. apply Z.leb_gt in Hnle.
    destruct (settle_step_exact e r0 He Hr1 Hnle) as (Hpay & H1 & H2 & H3 & H4).
    destruct He as [_ He]. repeat split; try assumption; lia.
  - exact Hobjs.
  - split; assumption.
Qed.

Lemma total_le (h g : entry -> Z) (l : list entry) :
  (forall e, In e l -> h e <= g e) -> total (map h l) <= total (map g l).
Proof.
  induction l as [|a l IH]; simpl; intros H; [lia|].
  assert (h a <= g a) by (apply H; left; reflexivity).
  assert (total (map h l) <= total (map g l)) by (apply IH; intros; apply H; right; auto).
  lia.
Qed.

(** X19. The /clear_dues page after a settlement, where the arithmetic is
    exact: the total shown for the merchant is the total before less what
    was applied, [min(P, T)] with [T] the sum of the merchant's positive
    dues; the merchant stays on the page exactly when that is still above
    zero, so a payment of [T] or more takes a merchant without negative
    dues off the page. *)
Theorem clear_dues_then_users_with_dues (tbl : table) (m : string) (P : num) :
  primary_key tbl ->
  (forall e, In e tbl -> DairyEntry.m_name e = m -> exact_ok (DairyEntry.due e)) ->
  exact_ok P -> 0 <= val P ->
  sum_ok (outstanding tbl m) ->
  let tbl' := db (clear_dues tbl (POST {| f_m_name' := m; f_amount_paid := P |})) in
  let left := balance tbl m - Z.min (val P) (outstanding tbl m) in
  balance tbl' m = left
  /\ (forall t, In (m, t) (users_with_dues tbl') -> val t = left)
  /\ (In m (map fst (users_with_dues tbl'))
      <-> In m (map DairyEntry.m_name tbl) /\ 0 < left).
Proof.
  intros Hpk Hex HP HP0 HT tbl' left.
  assert (Hdues : exact_dues tbl m).
  { intros e He Hc. apply Hex; [exact He|]. unfold has_dues in Hc.
    apply andb_true_iff in Hc. apply String.eqb_eq, Hc. }
  pose proof (entries_with_dues_payable tbl m Hdues) as Hpay.
  pose proof (settle_loop_lowers (entries_with_dues tbl m) P HP HP0 Hpay) as Hlow.
  destruct (clear_dues_rows
              (fun e e' => same_identity e e'
                           /\ exact_ok (DairyEntry.due e')
                           /\ 0 <= due_value e' <= due_value e)
              tbl m P Hpk) as [Heq Hrows].
  { assert (Hid : Forall2 same_identity (entries_with_dues tbl m)
                    (fst (settle_loop (entries_with_dues tbl m) P))).
    { apply (settle_loop_Forall2 (fun _ => True) (fun _ => True)); auto.
      - intros e _. apply same_identity_refl.
      - intros e r _ _ _. split; [apply same_identity_pay | exact Logic.I].
      - apply Forall_forall. auto. }
    clear -Hid Hlow. induction Hid; inversion Hlow; subst; constructor; auto. }
  fold tbl' in Heq, Hrows. set (f := after tbl') in *.
  set (of_m := fun e : entry => String.eqb (DairyEntry.m_name e) m).
  (* each row of the merchant, after the settlement *)
  assert (Hrow : forall e, In e tbl -> of_m e = true ->
             DairyEntry.m_name (f e) = DairyEntry.m_name e
             /\ exact_ok (DairyEntry.due (f e))
             /\ Z.max 0 (due_value (f e)) <= Z.max 0 (due_value e)).
  { intros e He Hm. destruct (Hrows e He) as [[_ (Hid & Hok & Hv)]|[_ Hsame]].
    - destruct Hid as (_ & _ & -> & _). repeat split; [exact Hok | lia].
    - rewrite Hsame. repeat split; [|lia]. apply Hex; [exact He|].
      apply String.eqb_eq, Hm. }
  assert (Hname : forall e, In e tbl -> of_m (f e) = of_m e).
  { intros e He. unfold of_m. destruct (Hrows e He) as [[_ (Hid & _)]|[_ ->]];
      [|reflexivity].
    destruct Hid as (_ & _ & -> & _). reflexivity. }
  assert (Hrows_m : filter of_m tbl' = map f (filter of_m tbl)).
  { rewrite Heq. apply filter_map_same. exact Hname. }
  (* the positive parts sum to the outstanding total *)
  assert (Hposparts : total (map (fun e => Z.max 0 (due_value e)) (filter of_m tbl))
                      = outstanding tbl m).
  { unfold outstanding.
    rewrite (total_split (has_dues m) (fun e => Z.max 0 (due_value e))).
    rewrite (total_zero _ (filter (fun e => negb (has_dues m e)) (filter of_m tbl))).
    - rewrite Z.add_0_r.
      replace (filter (has_dues m) (filter of_m tbl)) with (filter (has_dues m) tbl).
      + apply total_ext_in. intros e He. apply filter_In in He. destruct He as [He Hc].
        pose proof (Hdues e He Hc) as Hok. unfold has_dues in Hc.
        apply andb_true_iff in Hc. destruct Hc as [_ Hc].
        rewrite (ltb_exact n0 _ exact_n0 Hok), val_n0 in Hc. apply Z.ltb_lt in Hc.
        unfold due_value. lia.
      + rewrite <- filter_andb. apply filter_ext. intros e. unfold has_dues, of_m.
        destruct (String.eqb (DairyEntry.m_name e) m); reflexivity.
    - intros e He. apply filter_In in He. destruct He as [He Hc].
      apply filter_In in He. destruct He as [He Hm].
      apply negb_true_iff in Hc. unfold has_dues in Hc. fold (of_m e) in Hc.
      rewrite Hm in Hc. simpl in Hc.
      rewrite (ltb_exact n0 _ exact_n0 (Hex e He (proj1 (String.eqb_eq _ _) Hm))),
        val_n0 in Hc.
      apply Z.ltb_ge in Hc. unfold due_value. lia. }
  (* the balance after *)
  assert (Hbal : balance tbl' m = left).
  { unfold balance. fold of_m. rewrite Hrows_m, map_map.
    rewrite (total_split (has_dues m) (fun e => due_value (f e))).
    replace (filter (has_dues m) (filter of_m tbl)) with (filter (has_dues m) tbl).
    2: { rewrite <- filter_andb. apply filter_ext. intros e. unfold has_dues, of_m.
         destruct (String.eqb (DairyEntry.m_name e) m); reflexivity. }
    rewrite (total_perm _ _ (Permutation_map _ (Permutation_sym
                                                  (entries_with_dues_perm tbl m)))).
    rewrite <- (map_map f due_value). unfold f, tbl'.
    rewrite (clear_dues_objects tbl m P Hpk).
    rewrite (absorbed_total _ _ (val P) HP0 Hpay
               (settle_loop_absorbed _ P HP HP0 Hpay)).
    rewrite <- outstanding_entries.
    rewrite (total_ext_in (fun e => due_value (after _ e)) due_value
               (filter (fun e => negb (has_dues m e)) (filter of_m tbl))).
    - unfold left, balance. fold of_m.
      rewrite (total_split (has_dues m) due_value (filter of_m tbl)).
      replace (filter (has_dues m) (filter of_m tbl)) with (filter (has_dues m) tbl).
      + unfold outstanding. lia.
      + rewrite <- filter_andb. apply filter_ext. intros e. unfold has_dues, of_m.
        destruct (String.eqb (DairyEntry.m_name e) m); reflexivity.
    - intros e He. apply filter_In in He. destruct He as [He Hc].
      apply filter_In in He. destruct He as [He _]. apply negb_true_iff in Hc.
      rewrite (clear_dues_unselected tbl m P e Hpk He Hc). reflexivity. }
  (* the sum the page computes *)
  assert (Hsum : exact_ok (py_sum (map DairyEntry.due (filter of_m tbl')))
                 /\ val (py_sum (map DairyEntry.due (filter of_m tbl'))) = left).
  { unfold py_sum.
    destruct (fold_nadd_exact (outstanding tbl m)
                (map DairyEntry.due (filter of_m tbl')) HT) with (acc := n0)
      as [Hok Hv].
    - rewrite Hrows_m. apply Forall_forall. intros x Hx.
      apply in_map_iff in Hx. destruct Hx as (e' & <- & He').
      apply in_map_iff in He'. destruct He' as (e & <- & He).
      apply filter_In in He. apply Hrow; tauto.
    - exact exact_n0.
    - rewrite val_n0, Z.add_0_l, <- Hposparts, Hrows_m, !map_map.
      apply total_le. intros e He. apply filter_In in He.
      apply (Hrow e); tauto.
    - split; [exact Hok|]. rewrite Hv, val_n0, Z.add_0_l, map_map.
      exact Hbal. }
  destruct Hsum as [Hsok Hsv].
  assert (Hnames : map DairyEntry.m_name tbl' = map DairyEntry.m_name tbl).
  { rewrite Heq, map_map. apply map_ext_in. intros e He.
    destruct (Hrows e He) as [[_ (Hid & _)]|[_ ->]]; [|reflexivity].
    destruct Hid as (_ & _ & -> & _). reflexivity. }
  assert (Hin : forall t, In (m, t) (users_with_dues tbl') <->
                          In m (map DairyEntry.m_name tbl)
                          /\ t = py_sum (map DairyEntry.due (filter of_m tbl'))
                          /\ 0 < left).
  { intros t. rewrite users_with_dues_In, Hnames. fold of_m. unfold db_sum, py_sum.
    split.
    - intros (Hm & Hs & Hc). split; [exact Hm|].
      destruct (map DairyEntry.due (filter of_m tbl')) eqn:F; [discriminate|].
      injection Hs as <-. split; [reflexivity|].
      unfold py_sum in Hsok, Hsv.
      change (fold_left nadd l (nadd n0 n)) with (fold_left nadd (n :: l) n0) in Hc.
      rewrite (ltb_exact n0 _ exact_n0 Hsok), val_n0, Hsv in Hc. apply Z.ltb_lt, Hc.
    - intros (Hm & -> & Hc). split; [exact Hm|].
      unfold py_sum in Hsok, Hsv.
      destruct (map DairyEntry.due (filter of_m tbl')) eqn:F.
      + simpl in Hsv. rewrite val_n0 in Hsv. lia.
      + split; [reflexivity|].
        rewrite (ltb_exact n0 _ exact_n0 Hsok), val_n0, Hsv. apply Z.ltb_lt, Hc. }
  split; [exact Hbal|]. split.
  - intros t Ht. apply Hin in Ht. destruct Ht as (_ & -> & _). exact Hsv.
  - rewrite in_map_iff. split.
    + intros ([m' t] & Hfst & Ht). simpl in Hfst. subst m'. apply Hin in Ht. tauto.
    + intros [Hm Hc]. exists (m, py_sum (map DairyEntry.due (filter of_m tbl'))).
      split; [reflexivity|]. apply Hin. auto.
Qed.

End PageAfterSettlement.

(** ** Python floats: payments that are not numbers *)

Module F64Payments.
Import F64 F64Facts.

#[local] Existing Instance binary64.

Lemma sub_self_zero (m : positive) (e : Z) :
  F64.sub (S754_finite false m e) (S754_finite false m e) = F64.pos_zero.
Proof.
  unfold F64.sub, SFsub. cbv zeta. rewrite Z.sub_diag. reflexivity.
Qed.

(** With [remaining] NaN or [+inf], the loop never breaks and
    [min(entry.due, remaining)] is the whole due. *)
Lemma settle_loop_not_a_number (objs : list entry) (r : spec_float) :
  r = F64.nan \/ r = F64.inf ->
  Forall (fun e => finite_amount (DairyEntry.due e)
                   /\ SFltb F64.pos_zero (DairyEntry.due e) = true) objs ->
  settle_loop objs r = (map (fun e => pay_entry e (DairyEntry.due e)) objs, r).
Proof.
  intros Hr Hobjs. induction Hobjs as [|e objs [Hf Hpos] _ IH]; [reflexivity|].
  destruct (positive_finite _ Hf Hpos) as (m & ex & Hd & _ & _).
  cbn [settle_loop map].
  assert (Hle : nleb r n0 = false) by (destruct Hr as [-> | ->]; reflexivity).
  assert (Hmin : py_min (DairyEntry.due e) r = DairyEntry.due e).
  { unfold py_min. rewrite Hd. destruct Hr as [-> | ->]; reflexivity. }
  assert (Hsub : nsub r (DairyEntry.due e) = r).
  { rewrite Hd. destruct Hr as [-> | ->]; reflexivity. }
  rewrite Hle, Hmin. cbn [DairyEntry.due DairyEntry.set_paid].
  rewrite Hsub, IH. reflexivity.
Qed.

(** X20. A payment of NaN or of [+inf], which [float(...)] accepts, wipes
    the merchant's slate: every entry with a finite [due > 0] is paid its
    whole due and left with a due of [0.0]; the other rows are as they
    were. *)
Theorem clear_dues_not_a_number (tbl : table) (m : string) (P : spec_float) :
  primary_key tbl ->
  P = F64.nan \/ P = F64.inf ->
  (forall e, In e tbl -> has_dues m e = true -> finite_amount (DairyEntry.due e)) ->
  Forall2 (fun e e' =>
             if has_dues m e
             then e' = pay_entry e (DairyEntry.due e)
                  /\ DairyEntry.due e' = F64.pos_zero
             else e' = e)
          tbl
          (db (clear_dues tbl (POST {| f_m_name' := m; f_amount_paid := P |}))).
Proof.
  intros Hpk HP Hfin.
  set (R := fun e e' : @entry binary64 =>
              e' = pay_entry e (DairyEntry.due e) /\ DairyEntry.due e' = F64.pos_zero).
  assert (Hsel : Forall (fun e => finite_amount (DairyEntry.due e)
                                  /\ SFltb F64.pos_zero (DairyEntry.due e) = true)
                        (entries_with_dues tbl m)).
  { apply Forall_forall. intros e He. apply entries_with_dues_In in He.
    destruct He as (He & Hm & Hd). split; [|exact Hd]. apply Hfin; [exact He|].
    unfold has_dues. rewrite Hd, andb_true_r. apply String.eqb_eq, Hm. }
  destruct (clear_dues_rows R tbl m P Hpk) as [Heq Hrows].
  { rewrite (settle_loop_not_a_number _ P HP Hsel). cbn [fst].
    apply Forall2_map_right. intros e He. rewrite Forall_forall in Hsel.
    destruct (Hsel e He) as [Hf Hpos].
    destruct (positive_finite _ Hf Hpos) as (mm & ex & Hd & _ & _).
    split; [reflexivity|]. cbn [pay_entry DairyEntry.due DairyEntry.set_due].
    rewrite Hd. apply sub_self_zero. }
  set (tbl' := db _) in *. rewrite Heq. apply Forall2_map_right. intros e He.
  destruct (Hrows e He) as [[Hin HR]|[Hout Hsame]].
  - apply entries_with_dues_In in Hin. destruct Hin as (_ & Hm & Hd).
    unfold has_dues. rewrite Hd, andb_true_r.
    apply String.eqb_eq in Hm. rewrite Hm. exact HR.
  - destruct (has_dues m e) eqn:C; [|exact Hsame].
    exfalso. apply Hout. apply entries_with_dues_In.
    unfold has_dues in C. apply andb_true_iff in C. destruct C as [Hm Hd].
    apply String.eqb_eq in Hm. auto.
Qed.

End F64Payments.

(** ** What the forms let through *)

Module FormFacts.
Import Forms.

#[local] Existing Instance binary64.

Lemma truthy_zero (x : spec_float) : SFeqb x F64.pos_zero = true -> truthy x = false.
Proof. unfold truthy. intros ->. reflexivity. Qed.

(** Truthy and not below zero is above zero. *)
Lemma truthy_nonneg (x : spec_float) :
  DataRequired x = true -> NumberRange F64.pos_zero x = true ->
  SFltb F64.pos_zero x = true.
Proof.
  unfold DataRequired, truthy, NumberRange.
  destruct x as [[|]|[|]| |[|] m e]; cbv; intros H1 H2; congruence.
Qed.

Lemma strip_truthy_length (s : string) :
  DataRequired_str s = true -> 1 <= Z.of_nat (String.length s).
Proof.
  unfold DataRequired_str. destruct s; simpl; [discriminate|]. lia.
Qed.

Lemma valid_choice_item (s : string) :
  valid_choice item_choices s = true -> DataRequired_str s = true ->
  In s (keys DAIRY_PRODUCTS).
Proof.
  unfold valid_choice. intros Hc Hd. apply existsb_exists in Hc.
  destruct Hc as ([v l] & Hin & Hv). apply String.eqb_eq in Hv. simpl in Hv. subst v.
  destruct Hin as [[= <- _]|Hin]; [discriminate|].
  apply in_map_iff in Hin. destruct Hin as (k & [= <- _] & Hk). exact Hk.
Qed.

(** What a form that validates holds. *)
Lemma AddDairyEntryForm_validate_fields (form : @AddDairyEntryForm binary64) :
  AddDairyEntryForm_validate form = true ->
  In (f_item form) (keys DAIRY_PRODUCTS)
  /\ SFleb (F64.dec 1 2) (f_weight form) = true
  /\ SFltb F64.pos_zero (f_price_per_unit form) = true
  /\ SFltb F64.pos_zero (f_paid form) = true
  /\ (2 <= Z.of_nat (String.length (f_m_name form)) <= 100)
  /\ (1 <= Z.of_nat (String.length (f_unit form)) <= 50).
Proof.
  unfold AddDairyEntryForm_validate. rewrite !andb_true_iff.
  intros [[[[[[Hm1 Hm2] [Hi1 Hi2]] [Hw1 Hw2]] [Hu1 Hu2]] [Hp1 Hp2]] [Hq1 Hq2]].
  split; [apply valid_choice_item; assumption|].
  split; [exact Hw2|].
  split; [apply truthy_nonneg; assumption|].
  split; [apply truthy_nonneg; assumption|].
  unfold Length in Hm2, Hu2.
  rewrite andb_true_iff, orb_true_iff, Z.leb_le, Z.eqb_eq, Z.leb_le in Hm2, Hu2.
  pose proof (strip_truthy_length _ Hu1). lia.
Qed.

(** X21. Nothing paid, nothing recorded: a POST to /add_dairy_entry whose
    amount paid (or whose price) is zero fails [DataRequired], which takes
    [0.0] for a missing value; the form is shown again and no entry is
    stored. *)
Theorem add_dairy_entry_zero_refused (csrf_token : AddDairyEntryForm -> bool)
    (tbl : table) (form : AddDairyEntryForm) (now : Z) :
  SFeqb (f_paid form) F64.pos_zero = true
  \/ SFeqb (f_price_per_unit form) F64.pos_zero = true ->
  add_dairy_entry (validate_on_submit csrf_token AddDairyEntryForm_validate)
                  tbl (POST form) now
  = Ok {| db := tbl; flashes := []; resp := RenderIndex "add_dairy_entry" None |}.
Proof.
  intros H. unfold add_dairy_entry.
  replace (validate_on_submit csrf_token AddDairyEntryForm_validate form) with false;
    [reflexivity|].
  symmetry. unfold validate_on_submit. apply andb_false_iff. right.
  destruct (AddDairyEntryForm_validate form) eqn:V; [|reflexivity].
  apply AddDairyEntryForm_validate_fields in V.
  destruct V as (_ & _ & Hp & Hq & _). exfalso.
  destruct H as [H|H].
  - destruct (f_paid form) as [[|]|[|]| |[|] m e]; cbv in H, Hq; congruence.
  - destruct (f_price_per_unit form) as [[|]|[|]| |[|] m e]; cbv in H, Hp; congruence.
Qed.

(** X22. A day without cash income cannot be reported: a POST to
    /dairy_daily_summary with a total cash income of zero fails
    [DataRequired]; no summary is computed, whatever the table holds. *)
Theorem dairy_daily_summary_zero_refused (csrf_token : DairyDailyReportForm -> bool)
    (tbl : table) (form : DairyDailyReportForm) :
  SFeqb (f_total_cash_income form) F64.pos_zero = true ->
  dairy_daily_summary (validate_on_submit csrf_token DairyDailyReportForm_validate)
                      tbl (POST form)
  = {| db := tbl; flashes := []; resp := RenderIndex "dairy_daily_summary" None |}.
Proof.
  intros H. unfold dairy_daily_summary.
  replace (validate_on_submit csrf_token DairyDailyReportForm_validate form) with false;
    [reflexivity|].
  symmetry. unfold validate_on_submit, DairyDailyReportForm_validate, DataRequired.
  rewrite (truthy_zero _ H). simpl. apply andb_false_r.
Qed.

Lemma from_the_form_same_identity (e e' : entry) :
  same_identity e e' -> from_the_form e -> from_the_form e'.
Proof.
  unfold from_the_form. intros (_ & _ & Hm & Hi & Hw & Hu & Hp & _) H.
  rewrite Hm, Hi, Hw, Hu, Hp. exact H.
Qed.

(** X23. Every entry the application ever stores came through the form:
    after any run that starts from an empty database, each row has an item
    of the catalogue, a weight of at least 0.01, a price above zero, a
    merchant name of 2 to 100 characters and a unit of 1 to 50, and no
    later request changes these. *)
Theorem serve_all_from_the_form (csrf_entry : AddDairyEntryForm -> bool)
    (validate_report : DairyDailyReportForm -> bool)
    (app : app_state) (rs : list http_request) :
  (forall tbl, dairy_entry app = Some tbl -> primary_key tbl /\ Forall from_the_form tbl) ->
  forall tbl',
    dairy_entry (fst (serve_all (validate_on_submit csrf_entry AddDairyEntryForm_validate)
                                validate_report app rs)) = Some tbl' ->
    Forall from_the_form tbl'.
Proof.
  intros Happ tbl' Htbl'.
  set (ve := validate_on_submit csrf_entry AddDairyEntryForm_validate) in *.
  apply (serve_all_invariant ve validate_report
           (fun tbl => primary_key tbl /\ Forall from_the_form tbl))
    with (rs := rs) (app := app); auto.
  - split; constructor.
  - intros tbl r [Hpk Hc]. split; [apply route_primary_key, Hpk|].
    destruct r as [|req now| |req|[|form]]; try exact Hc.
    + destruct (add_dairy_entry_db ve validate_report tbl req now)
        as [->|(form & pd & _ & Hv & ->)]; [exact Hc|].
      apply Forall_app. split; [exact Hc|]. constructor; [|constructor].
      unfold ve, validate_on_submit in Hv. apply andb_true_iff in Hv.
      destruct Hv as [_ Hv]. apply AddDairyEntryForm_validate_fields in Hv.
      unfold from_the_form. cbn [DairyEntry.item DairyEntry.weight
        DairyEntry.price_per_unit DairyEntry.m_name DairyEntry.unit]. tauto.
    + cbn [route fst]. rewrite dairy_daily_summary_db. exact Hc.
    + cbn [route fst]. destruct form as [m P].
      destruct (clear_dues_same_identity tbl m P Hpk) as [Heq Hid].
      rewrite Heq. apply Forall_forall. intros x Hx. apply in_map_iff in Hx.
      destruct Hx as (e & <- & He).
      apply (from_the_form_same_identity e); [apply Hid, He|].
      rewrite Forall_forall in Hc. apply Hc, He.
Qed.

End FormFacts.

(** * The examples evaluated, and the claims that fail on floats *)

Module Evaluated.
Import Examples.

#[local] Existing Instance binary64.

Example table2_dues :
  map DairyEntry.due table2 = [F64.of_Z 10; F64.of_Z 30].
Proof. vm_compute. reflexivity. Qed.

(** settle("A", 25): the first entry is paid in full, the second keeps 15. *)
Example settle_25 :
  map (fun e => (DairyEntry.paid e, DairyEntry.due e)) (db (settle table2 "A" (F64.of_Z 25)))
  = [(F64.of_Z 60, F64.of_Z 0); (F64.of_Z 55, F64.of_Z 15)].
Proof. vm_compute. reflexivity. Qed.

Example table_01_04_dues :
  map DairyEntry.due table_01_04 = [F64.dec 1 1; F64.dec 4 1].
Proof. vm_compute. reflexivity. Qed.

Example table_03_04_01_dues :
  map DairyEntry.due table_03_04_01 = [F64.dec 3 1; F64.dec 4 1; F64.dec 1 1].
Proof. vm_compute. reflexivity. Qed.

Lemma table2_primary_key : primary_key table2.
Proof. primary_key_by_computation. Qed.

Lemma table_01_04_primary_key : primary_key table_01_04.
Proof. primary_key_by_computation. Qed.

Lemma table_03_04_01_primary_key : primary_key table_03_04_01.
Proof. primary_key_by_computation. Qed.

(** C3, on floats.  Dues of 0.1 and 0.4, total 0.5; a payment of 0.2 leaves
    dues of 0.0 and 0.30000000000000004, which is not 0.5 - 0.2 = 0.3,
    neither as floats nor as exact values. *)
Lemma clear_dues_partial_payment_rounds :
  let P := F64.dec 2 1 in
  let T := py_sum (map DairyEntry.due (entries_with_dues table_01_04 "A")) in
  let tbl' := db (settle table_01_04 "A" P) in
  let T' := py_sum (map DairyEntry.due (entries_with_dues tbl' "A")) in
  T = F64.dec 5 1
  /\ SFleb n0 P = true /\ SFleb P T = true
  /\ map DairyEntry.due tbl' = [F64.pos_zero; S754_finite false 5404319552844596 (-54)]
  /\ T' = S754_finite false 5404319552844596 (-54)
  /\ F64.sub T P = S754_finite false 5404319552844595 (-54)
  /\ SFeqb T' (F64.sub T P) = false
  /\ exact_value T'
     <> total (map exact_value (map DairyEntry.due (entries_with_dues table_01_04 "A")))
        - exact_value P.
Proof. vm_compute. repeat split; try reflexivity; discriminate. Qed.

(** C7, on floats.  Dues of 0.3, 0.4 and 0.1 sum to 0.7999999999999999
    (and to less than 0.8 exactly); a payment of 0.8 is used up after the
    second entry has left [remaining] one rounding short, and the last
    entry keeps a due of [2^-55]: the merchant still has dues. *)
Lemma clear_dues_overpayment_leaves_due :
  let P := F64.dec 8 1 in
  let T := py_sum (map DairyEntry.due (entries_with_dues table_03_04_01 "A")) in
  let tbl' := db (settle table_03_04_01 "A" P) in
  SFltb T P = true
  /\ total (map exact_value (map DairyEntry.due (entries_with_dues table_03_04_01 "A")))
     < exact_value P
  /\ map DairyEntry.due tbl'
     = [F64.pos_zero; F64.pos_zero; S754_finite false 4503599627370496 (-107)]
  /\ snd (settle_loop (entries_with_dues table_03_04_01 "A") P) = F64.pos_zero
  /\ users_with_dues tbl' = [("A"%string, S754_finite false 4503599627370496 (-107))].
Proof. vm_compute. repeat split; reflexivity. Qed.


(** C5, the dues of the day.  With [table_same_stamp], the report for
    2024-01-01 joins the entry of 2024-01-03 as well, because the join
    compares merchant, item and [created_at] but not the date: the dues of
    the day come out as 40, where the latest entry of the only pair of that
    day has due 10. *)
Theorem dairy_daily_summary_counts_other_dates :
  let o := dairy_daily_summary (fun _ => true) table_same_stamp
             (POST {| f_report_date := jan1; f_total_cash_income := F64.of_Z 100 |}) in
  map DairyEntry.due table_same_stamp = [F64.of_Z 10; F64.of_Z 30]
  /\ map DairyEntry.due (entries_of table_same_stamp jan1) = [F64.of_Z 10]
  /\ map DairyEntry.due (filter (latest_of_day table_same_stamp jan1) table_same_stamp)
     = [F64.of_Z 10]
  /\ map DairyEntry.date (joined_rows table_same_stamp jan1) = [jan1; jan1 + 2]
  /\ exists report,
       resp o = RenderIndex "dairy_daily_summary" (Some report)
       /\ total_dues_today report = F64.of_Z 40
       /\ SFeqb (total_dues_today report)
                (py_sum (map DairyEntry.due
                           (filter (latest_of_day table_same_stamp jan1) table_same_stamp)))
          = false.
Proof.
  cbv zeta. split; [vm_compute; reflexivity|]. split; [vm_compute; reflexivity|].
  split; [vm_compute; reflexivity|]. split; [vm_compute; reflexivity|].
  eexists. split; [reflexivity|]. split; vm_compute; reflexivity.
Qed.

End Evaluated.

(** * The theorems at concrete inputs *)

Module Witnesses.
Import Examples Evaluated.

#[local] Existing Instance binary64.

Lemma add_dairy_entry_due_witness :
  valid form2 = true
  /\ 1 < f_date form2
  /\ exists new previous_due,
       add_dairy_entry valid table1 (POST form2) 2000
       = Ok {| db := table1 ++ [new]; flashes := [EntryAdded];
               resp := Redirect "add_dairy_entry" |}
       /\ DairyEntry.date new = f_date form2
       /\ DairyEntry.m_name new = f_m_name form2
       /\ DairyEntry.item new = f_item form2
       /\ DairyEntry.cost new = nmul (f_price_per_unit form2) (f_weight form2)
       /\ DairyEntry.paid new = f_paid form2
       /\ DairyEntry.due new
          = nsub (nadd previous_due (nmul (f_price_per_unit form2) (f_weight form2)))
                 (f_paid form2)
       /\ ((exists e, In e table1
                      /\ prior_day_row (f_date form2) (f_m_name form2) (f_item form2) e
                      /\ previous_due = DairyEntry.due e
                      /\ forall x, In x table1 ->
                           prior_day_row (f_date form2) (f_m_name form2) (f_item form2) x ->
                           DairyEntry.created_at x <= DairyEntry.created_at e)
           \/ ((forall x, In x table1 ->
                  ~ prior_day_row (f_date form2) (f_m_name form2) (f_item form2) x)
               /\ previous_due = n0
               /\ py_same (DairyEntry.due new)
                    (nsub (nmul (f_price_per_unit form2) (f_weight form2)) (f_paid form2)))).
Proof.
  refine (conj eq_refl (conj eq_refl _)).
  exact (add_dairy_entry_due (ZC := binary64_ZeroCarry) valid table1 form2 2000
           eq_refl eq_refl).
Defined.

Lemma clear_dues_refines_settle_witness :
  primary_key table2
  /\ exists applied,
       settles table2 "A" (F64.of_Z 25)
         (db (clear_dues table2 (POST {| f_m_name' := "A"; f_amount_paid := F64.of_Z 25 |})))
         applied.
Proof.
  exact (conj table2_primary_key
           (clear_dues_refines_settle table2 "A" (F64.of_Z 25) table2_primary_key)).
Defined.

Lemma clear_dues_frame_witness :
  primary_key table2
  /\ Forall2 (fun e e' =>
                same_identity e e'
                /\ (e' <> e -> DairyEntry.m_name e = "A"%string
                               /\ nltb n0 (DairyEntry.due e) = true))
             table2
             (db (clear_dues table2 (POST {| f_m_name' := "A"; f_amount_paid := F64.of_Z 25 |}))).
Proof.
  exact (conj table2_primary_key
           (clear_dues_frame table2 "A" (F64.of_Z 25) table2_primary_key)).
Defined.

Lemma clear_dues_negative_noop_witness :
  primary_key table2
  /\ nltb (F64.of_Z (-5)) n0 = true
  /\ settle_loop (entries_with_dues table2 "A") (F64.of_Z (-5))
     = (entries_with_dues table2 "A", F64.of_Z (-5))
  /\ clear_dues table2 (POST {| f_m_name' := "A"; f_amount_paid := F64.of_Z (-5) |})
     = {| db := table2; flashes := [DuesUpdated "A"]; resp := Redirect "clear_dues" |}.
Proof.
  refine (conj table2_primary_key (conj eq_refl _)).
  exact (clear_dues_negative_noop (OL := binary64_OrderLaws) table2 "A" (F64.of_Z (-5))
           table2_primary_key eq_refl).
Defined.


Lemma table2_no_entry_jan6 :
  forall e, In e table2 -> DairyEntry.date e <> f_report_date report_form.
Proof.
  assert (H : forallb (fun e => negb (DairyEntry.date e =? f_report_date report_form))
                table2 = true) by (vm_compute; reflexivity).
  intros e He. rewrite forallb_forall in H. specialize (H e He).
  apply negb_true_iff, Z.eqb_neq in H. exact H.
Qed.

Lemma dairy_daily_summary_no_data_witness :
  (fun _ : DairyDailyReportForm => true) report_form = true
  /\ (forall e, In e table2 -> DairyEntry.date e <> f_report_date report_form)
  /\ let o := dairy_daily_summary (fun _ => true) table2 (POST report_form) in
     o = {| db := table2; flashes := [NoEntriesFound (f_report_date report_form)];
            resp := RenderIndex "dairy_daily_summary" None |}
     /\ Forall (fun f => category f = "info"%string) (flashes o)
     /\ forall view report, resp o <> RenderIndex view (Some report).
Proof.
  refine (conj eq_refl (conj table2_no_entry_jan6 _)).
  exact (dairy_daily_summary_no_data (fun _ => true) table2 report_form
           eq_refl table2_no_entry_jan6).
Defined.

#[local] Existing Instance F64Facts.binary64_ExactArith.
#[local] Existing Instance F64Facts.binary64_MonotoneSub.

Lemma table2_exact_dues : exact_dues table2 "A".
Proof.
  assert (H : forallb (fun e => implb (has_dues "A" e)
                                      (F64.wholeb (DairyEntry.due e)))
                table2 = true) by (vm_compute; reflexivity).
  intros e He Hsel. rewrite forallb_forall in H. specialize (H e He).
  rewrite Hsel in H. exact H.
Qed.

Lemma payment_25_in_range : 0 <= val (F64.of_Z 25) <= outstanding table2 "A".
Proof. vm_compute. split; discriminate. Qed.

Lemma payment_50_above : outstanding table2 "A" < val (F64.of_Z 50).
Proof. vm_compute. reflexivity. Qed.

Lemma clear_dues_partial_payment_witness :
  primary_key table2
  /\ exact_dues table2 "A"
  /\ exact_ok (F64.of_Z 25)
  /\ 0 <= val (F64.of_Z 25) <= outstanding table2 "A"
  /\ let tbl' := db (clear_dues table2
                       (POST {| f_m_name' := "A"; f_amount_paid := F64.of_Z 25 |})) in
     outstanding tbl' "A" = outstanding table2 "A" - val (F64.of_Z 25)
     /\ absorbed (entries_with_dues table2 "A")
                 (map (after tbl') (entries_with_dues table2 "A")) (val (F64.of_Z 25)).
Proof.
  exact (conj table2_primary_key
           (conj table2_exact_dues
              (conj (eq_refl : exact_ok (F64.of_Z 25))
                 (conj payment_25_in_range
                    (clear_dues_partial_payment table2 "A" (F64.of_Z 25)
                       table2_primary_key table2_exact_dues eq_refl
                       payment_25_in_range))))).
Defined.

Lemma clear_dues_overpayment_witness :
  primary_key table2
  /\ exact_dues table2 "A"
  /\ exact_ok (F64.of_Z 50)
  /\ outstanding table2 "A" < val (F64.of_Z 50)
  /\ let o := clear_dues table2 (POST {| f_m_name' := "A"; f_amount_paid := F64.of_Z 50 |}) in
     resp o = Redirect "clear_dues"
     /\ flashes o = [DuesUpdated "A"]
     /\ (forall e, In e table2 ->
           if has_dues "A" e
           then after (db o) e = pay_entry e (DairyEntry.due e)
                /\ due_value (after (db o) e) = 0
           else after (db o) e = e)
     /\ outstanding (db o) "A" = 0
     /\ val (snd (settle_loop (entries_with_dues table2 "A") (F64.of_Z 50)))
        = val (F64.of_Z 50) - outstanding table2 "A".
Proof.
  exact (conj table2_primary_key
           (conj table2_exact_dues
              (conj (eq_refl : exact_ok (F64.of_Z 50))
                 (conj payment_50_above
                    (clear_dues_overpayment table2 "A" (F64.of_Z 50)
                       table2_primary_key table2_exact_dues eq_refl
                       payment_50_above))))).
Defined.

(** Both forms pass the validators of [AddDairyEntryForm]: a price of
    [inf] is in [NumberRange(min=0)]. *)
Lemma table_inf_forms_validate :
  Forms.AddDairyEntryForm_validate Sqlite.form_milk = true
  /\ Forms.AddDairyEntryForm_validate Sqlite.form_ghee = true.
Proof. split; vm_compute; reflexivity. Qed.

Lemma table_inf_dues :
  map DairyEntry.due Sqlite.table_inf = [F64.of_Z 10; F64.inf].
Proof. vm_compute. reflexivity. Qed.

Lemma table_inf_primary_key : primary_key Sqlite.table_inf.
Proof. primary_key_by_computation. Qed.

Lemma table_inf_float_dues :
  forall e, In e Sqlite.table_inf -> has_dues "Anil" e = true ->
            Sqlite.is_float (DairyEntry.due e).
Proof.
  assert (H : forallb (fun e => valid_binary F64.prec F64.emax (DairyEntry.due e))
                Sqlite.table_inf = true) by (vm_compute; reflexivity).
  intros e He _. rewrite forallb_forall in H. exact (H e He).
Qed.

(** A payment of [inf] against a due of [inf]: the due would be NaN, the
    commit raises and the table stays as it was. *)
Lemma clear_dues_inf_inf_refused :
  Sqlite.clear_dues Sqlite.table_inf
    (POST {| f_m_name' := "Anil"; f_amount_paid := F64.inf |})
  = Raise "IntegrityError".
Proof.
  assert (H : forallb Sqlite.updatable
                (Sqlite.assigned (entries_with_dues Sqlite.table_inf "Anil") F64.inf)
              = false) by (vm_compute; reflexivity).
  unfold Sqlite.clear_dues. cbn [f_m_name' f_amount_paid]. rewrite H. reflexivity.
Qed.

(** A payment of [inf] against finite dues clears them. *)
Lemma clear_dues_inf_clears :
  map DairyEntry.due
      (Sqlite.table_after table2
         (Sqlite.clear_dues table2 (POST {| f_m_name' := "A"; f_amount_paid := F64.inf |})))
  = [F64.pos_zero; F64.pos_zero].
Proof. vm_compute. reflexivity. Qed.

Lemma clear_dues_due_in_bounds_witness :
  primary_key Sqlite.table_inf
  /\ (forall e, In e Sqlite.table_inf -> has_dues "Anil" e = true ->
                 Sqlite.is_float (DairyEntry.due e))
  /\ Sqlite.is_float F64.inf
  /\ Forall2 (fun e e' =>
                if has_dues "Anil" e
                then SFleb F64.pos_zero (DairyEntry.due e') = true
                     /\ SFleb (DairyEntry.due e') (DairyEntry.due e) = true
                else e' = e)
             Sqlite.table_inf
             (Sqlite.table_after Sqlite.table_inf
                (Sqlite.clear_dues Sqlite.table_inf
                   (POST {| f_m_name' := "Anil"; f_amount_paid := F64.inf |}))).
Proof.
  exact (conj table_inf_primary_key
           (conj table_inf_float_dues
              (conj (eq_refl : Sqlite.is_float F64.inf)
                 (SqliteFacts.clear_dues_due_in_bounds Sqlite.table_inf "Anil" F64.inf
                    table_inf_primary_key table_inf_float_dues eq_refl)))).
Defined.

End Witnesses.

(** * The further theorems at concrete inputs *)

Module MoreWitnesses.
Import Examples Evaluated Forms MoreExamples.

#[local] Existing Instance binary64.
#[local] Existing Instance F64Facts.binary64_ExactArith.
#[local] Existing Instance F64Facts.binary64_MonotoneSub.
#[local] Existing Instance F64Sums.binary64_ExactSum.

Lemma add_dairy_entry_date_min_raises_witness :
  valid form_date_min = true /\ f_date form_date_min = 1
  /\ add_dairy_entry valid table1 (POST form_date_min) 2000 = Raise "OverflowError"
  /\ get_previous_dairy_due table1 1 (f_m_name form_date_min) (f_item form_date_min)
     = Raise "OverflowError".
Proof.
  exact (conj eq_refl
           (conj eq_refl
              (add_dairy_entry_date_min_raises valid table1 form_date_min 2000
                 eq_refl eq_refl))).
Defined.

Lemma table1_older :
  forall x, In x table1 ->
            prior_day_row (f_date form2 + 1) (f_m_name form2) (f_item form2) x ->
            DairyEntry.created_at x < 2000.
Proof.
  assert (H : forallb (fun x => DairyEntry.created_at x <? 2000) table1 = true)
    by (vm_compute; reflexivity).
  intros x Hx _. rewrite forallb_forall in H. apply Z.ltb_lt, H, Hx.
Qed.

Lemma add_then_get_previous_dairy_due_witness :
  valid form2 = true /\ 1 < f_date form2
  /\ (forall x, In x table1 ->
                prior_day_row (f_date form2 + 1) (f_m_name form2) (f_item form2) x ->
                DairyEntry.created_at x < 2000)
  /\ exists o new,
       add_dairy_entry valid table1 (POST form2) 2000 = Ok o
       /\ db o = table1 ++ [new]
       /\ get_previous_dairy_due (db o) (f_date form2 + 1) (f_m_name form2) (f_item form2)
          = Ok (DairyEntry.due new).
Proof.
  exact (conj eq_refl
           (conj eq_refl
              (conj table1_older
                 (add_then_get_previous_dairy_due valid table1 form2 2000
                    eq_refl eq_refl table1_older)))).
Defined.

Lemma add_dairy_entry_same_day_witness :
  valid form2 = true /\ valid form2_again = true /\ 1 < f_date form2
  /\ f_date form2_again = f_date form2 /\ f_m_name form2_again = f_m_name form2
  /\ f_item form2_again = f_item form2
  /\ exists o1 new1 o2 new2 previous_due,
       add_dairy_entry valid table1 (POST form2) 2000 = Ok o1
       /\ db o1 = table1 ++ [new1]
       /\ add_dairy_entry valid (db o1) (POST form2_again) 3000 = Ok o2
       /\ db o2 = table1 ++ [new1; new2]
       /\ get_previous_dairy_due table1 (f_date form2) (f_m_name form2) (f_item form2)
          = Ok previous_due
       /\ DairyEntry.due new1
          = nsub (nadd previous_due (nmul (f_price_per_unit form2) (f_weight form2)))
                 (f_paid form2)
       /\ DairyEntry.due new2
          = nsub (nadd previous_due
                    (nmul (f_price_per_unit form2_again) (f_weight form2_again)))
                 (f_paid form2_again).
Proof.
  exact (conj eq_refl (conj eq_refl (conj eq_refl (conj eq_refl (conj eq_refl
           (conj eq_refl
              (add_dairy_entry_same_day valid table1 form2 form2_again 2000 3000
                 eq_refl eq_refl eq_refl eq_refl eq_refl eq_refl))))))).
Defined.

Lemma table_01_04_older :
  forall x, In x table_01_04 ->
            prior_day_row (f_date form2) (f_m_name form2) (f_item form2) x ->
            DairyEntry.created_at x < 2500.
Proof.
  assert (H : forallb (fun x => DairyEntry.created_at x <? 2500) table_01_04 = true)
    by (vm_compute; reflexivity).
  intros x Hx _. rewrite forallb_forall in H. apply Z.ltb_lt, H, Hx.
Qed.

Lemma add_dairy_entry_next_day_witness :
  valid form1 = true /\ valid form2 = true /\ 1 < f_date form1
  /\ f_date form2 = f_date form1 + 1 /\ f_m_name form2 = f_m_name form1
  /\ f_item form2 = f_item form1
  /\ (forall x, In x table_01_04 ->
                prior_day_row (f_date form2) (f_m_name form2) (f_item form2) x ->
                DairyEntry.created_at x < 2500)
  /\ exists o1 new1 o2 new2,
       add_dairy_entry valid table_01_04 (POST form1) 2500 = Ok o1
       /\ db o1 = table_01_04 ++ [new1]
       /\ add_dairy_entry valid (db o1) (POST form2) 3500 = Ok o2
       /\ db o2 = table_01_04 ++ [new1; new2]
       /\ DairyEntry.cost new2 = nmul (f_price_per_unit form2) (f_weight form2)
       /\ DairyEntry.paid new2 = f_paid form2
       /\ DairyEntry.due new2
          = nsub (nadd (DairyEntry.due new1) (DairyEntry.cost new2)) (DairyEntry.paid new2).
Proof.
  exact (conj eq_refl (conj eq_refl (conj eq_refl (conj eq_refl (conj eq_refl
           (conj eq_refl (conj table_01_04_older
              (add_dairy_entry_next_day valid table_01_04 form1 form2 2500 3500
                 eq_refl eq_refl eq_refl eq_refl eq_refl eq_refl
                 table_01_04_older)))))))).
Defined.

Lemma clear_dues_nothing_to_pay_witness :
  primary_key table2 /\ nleb F64.pos_zero n0 = true
  /\ clear_dues table2 (POST {| f_m_name' := "A"; f_amount_paid := F64.pos_zero |})
     = {| db := table2; flashes := [DuesUpdated "A"]; resp := Redirect "clear_dues" |}.
Proof.
  exact (conj table2_primary_key
           (conj eq_refl
              (clear_dues_nothing_to_pay table2 "A" F64.pos_zero
                 table2_primary_key eq_refl))).
Defined.

Lemma table2_no_B :
  forall e, In e table2 -> DairyEntry.m_name e = "B"%string ->
            nltb n0 (DairyEntry.due e) = false.
Proof.
  assert (H : forallb (fun e => negb (String.eqb (DairyEntry.m_name e) "B")) table2 = true)
    by (vm_compute; reflexivity).
  intros e He Hm. rewrite forallb_forall in H. specialize (H e He).
  apply negb_true_iff, String.eqb_neq in H. contradiction.
Qed.

Lemma clear_dues_no_dues_witness :
  (forall e, In e table2 -> DairyEntry.m_name e = "B"%string ->
             nltb n0 (DairyEntry.due e) = false)
  /\ entries_with_dues table2 "B" = []
  /\ clear_dues table2 (POST {| f_m_name' := "B"; f_amount_paid := F64.of_Z 25 |})
     = {| db := table2; flashes := [DuesUpdated "B"]; resp := Redirect "clear_dues" |}.
Proof.
  exact (conj table2_no_B (clear_dues_no_dues table2 "B" (F64.of_Z 25) table2_no_B)).
Defined.

Lemma get_previous_dairy_due_after_clear_dues_witness :
  primary_key table2 /\ 1 < jan1 + 2
  /\ let tbl' := db (clear_dues table2 (pay "A" (F64.of_Z 25))) in
     prev_entry tbl' (jan1 + 2) "A" "Milk (1 Litre)"
     = option_map (after tbl') (prev_entry table2 (jan1 + 2) "A" "Milk (1 Litre)")
     /\ get_previous_dairy_due tbl' (jan1 + 2) "A" "Milk (1 Litre)"
        = Ok (match prev_entry table2 (jan1 + 2) "A" "Milk (1 Litre)" with
              | Some e => DairyEntry.due (after tbl' e)
              | None => n0
              end).
Proof.
  exact (conj table2_primary_key
           (conj eq_refl
              (get_previous_dairy_due_after_clear_dues table2 "A" (F64.of_Z 25)
                 (jan1 + 2) "A" "Milk (1 Litre)" table2_primary_key eq_refl))).
Defined.

Lemma route_read_only_witness :
  (validate_on_submit (fun _ => true) AddDairyEntryForm_validate form_unpaid = false)
  /\ fst (route (validate_on_submit (fun _ => true) AddDairyEntryForm_validate)
                (fun _ => true) table2 (AddDairyEntry (POST form_unpaid) 3000))
     = table2.
Proof.
  assert (H : validate_on_submit (fun _ => true) AddDairyEntryForm_validate form_unpaid
              = false) by (vm_compute; reflexivity).
  exact (conj H
           (route_read_only (validate_on_submit (fun _ => true) AddDairyEntryForm_validate)
              (fun _ => true) table2 (AddDairyEntry (POST form_unpaid) 3000) H)).
Defined.

Lemma started_table2_primary_key :
  forall tbl, dairy_entry (started (Some table2)) = Some tbl -> primary_key tbl.
Proof. intros tbl [= <-]. exact table2_primary_key. Qed.

Lemma serve_all_primary_key_witness :
  (forall tbl, dairy_entry (started (Some table2)) = Some tbl -> primary_key tbl)
  /\ dairy_entry (fst (serve_all valid (fun _ => true) (started (Some table2)) run_settle))
     = Some (db (clear_dues table2 (pay "A" (F64.of_Z 25))))
  /\ primary_key (db (clear_dues table2 (pay "A" (F64.of_Z 25)))).
Proof.
  exact (conj started_table2_primary_key
           (conj eq_refl
              (serve_all_primary_key valid (fun _ => true) (started (Some table2))
                 run_settle started_table2_primary_key
                 (db (clear_dues table2 (pay "A" (F64.of_Z 25)))) eq_refl))).
Defined.

Lemma table2_costed : Forall costed table2.
Proof. repeat constructor. Qed.

Lemma started_table2_costed :
  forall tbl, dairy_entry (started (Some table2)) = Some tbl ->
              primary_key tbl /\ Forall costed tbl.
Proof. intros tbl [= <-]. split; [exact table2_primary_key | exact table2_costed]. Qed.

Lemma serve_all_costed_witness :
  (forall tbl, dairy_entry (started (Some table2)) = Some tbl ->
               primary_key tbl /\ Forall costed tbl)
  /\ dairy_entry (fst (serve_all valid (fun _ => true) (started (Some table2)) run_settle))
     = Some (db (clear_dues table2 (pay "A" (F64.of_Z 25))))
  /\ Forall costed (db (clear_dues table2 (pay "A" (F64.of_Z 25)))).
Proof.
  exact (conj started_table2_costed
           (conj eq_refl
              (serve_all_costed valid (fun _ => true) (started (Some table2))
                 run_settle started_table2_costed
                 (db (clear_dues table2 (pay "A" (F64.of_Z 25)))) eq_refl))).
Defined.

Lemma serve_all_extends_witness :
  dairy_entry (started (Some table2)) = Some table2 /\ primary_key table2
  /\ exists tbl',
       dairy_entry (fst (serve_all valid (fun _ => true) (started (Some table2))
                           run_settle)) = Some tbl'
       /\ extends table2 tbl'.
Proof.
  exact (conj eq_refl
           (conj table2_primary_key
              (serve_all_extends valid (fun _ => true) run_settle
                 (started (Some table2)) table2 eq_refl table2_primary_key))).
Defined.

Lemma table2_stamps : stamps_identify table2.
Proof.
  assert (H : forallb (fun a =>
                forallb (fun b =>
                  implb (DairyEntry.created_at a =? DairyEntry.created_at b)
                        (DairyEntry.id a =? DairyEntry.id b)) table2) table2 = true)
    by (vm_compute; reflexivity).
  intros a b Ha Hb _ Hc. rewrite forallb_forall in H. specialize (H a Ha).
  rewrite forallb_forall in H. specialize (H b Hb).
  apply Z.eqb_eq in Hc. rewrite Hc in H. simpl in H. apply Z.eqb_eq in H.
  apply (id_inj table2); auto. apply table2_primary_key.
Qed.

Lemma table2_jan1 : entries_of table2 (f_report_date report_jan1) <> [].
Proof.
  assert (H : List.length (entries_of table2 (f_report_date report_jan1)) = 1%nat)
    by (vm_compute; reflexivity).
  intros E. rewrite E in H. discriminate.
Qed.

Lemma dairy_daily_summary_latest_dues_witness :
  (fun _ : DairyDailyReportForm => true) report_jan1 = true
  /\ primary_key table2 /\ stamps_identify table2
  /\ entries_of table2 (f_report_date report_jan1) <> []
  /\ let d := f_report_date report_jan1 in
     let latest := filter (latest_of_day table2 d) table2 in
     resp (dairy_daily_summary (fun _ => true) table2 (POST report_jan1))
     = RenderIndex "dairy_daily_summary"
         (Some {| rd_date := d;
                  total_cost_dairy := py_sum (map DairyEntry.cost (entries_of table2 d));
                  total_paid_dairy := py_sum (map DairyEntry.paid (entries_of table2 d));
                  total_cash_income := f_total_cash_income report_jan1;
                  profit_loss :=
                    nsub (f_total_cash_income report_jan1)
                         (py_sum (map DairyEntry.cost (entries_of table2 d)));
                  total_dues_today := or_zero (db_sum (map DairyEntry.due latest)) |})
     /\ NoDup (map pair_of latest)
     /\ (forall p, In p (map pair_of latest) <-> In p (map pair_of (entries_of table2 d)))
     /\ (forall e, In e latest ->
           In e (entries_of table2 d)
           /\ forall x, In x (entries_of table2 d) -> pair_of x = pair_of e ->
                        DairyEntry.created_at x <= DairyEntry.created_at e).
Proof.
  exact (conj eq_refl
           (conj table2_primary_key
              (conj table2_stamps
                 (conj table2_jan1
                    (dairy_daily_summary_latest_dues (fun _ => true) table2 report_jan1
                       eq_refl table2_primary_key table2_stamps table2_jan1))))).
Defined.

Lemma table2_exact_dues_A : exact_dues table2 "A".
Proof.
  assert (H : forallb (fun e => implb (has_dues "A" e)
                                      (F64.wholeb (DairyEntry.due e)))
                table2 = true) by (vm_compute; reflexivity).
  intros e He Hsel. rewrite forallb_forall in H. specialize (H e He).
  rewrite Hsel in H. exact H.
Qed.

Lemma table2_exact_paid :
  forall e, In e table2 -> has_dues "A" e = true ->
            exact_ok (DairyEntry.paid e) /\ sum_ok (paid_value e + due_value e).
Proof.
  assert (H : forallb (fun e => F64.wholeb (DairyEntry.paid e)
                                && (F64.to_Z (DairyEntry.paid e)
                                    + F64.to_Z (DairyEntry.due e) <? 2 ^ 53))
                table2 = true) by (vm_compute; reflexivity).
  intros e He _. rewrite forallb_forall in H. specialize (H e He).
  apply andb_true_iff in H. destruct H as [H1 H2]. apply Z.ltb_lt in H2.
  split; [exact H1 | exact H2].
Qed.

Lemma clear_dues_conserves_witness :
  primary_key table2 /\ exact_dues table2 "A" /\ exact_ok (F64.of_Z 25)
  /\ (forall e, In e table2 -> has_dues "A" e = true ->
                exact_ok (DairyEntry.paid e) /\ sum_ok (paid_value e + due_value e))
  /\ Forall2 (fun e e' =>
                paid_value e' + due_value e' = paid_value e + due_value e
                /\ paid_value e <= paid_value e')
             table2
             (db (clear_dues table2 (POST {| f_m_name' := "A"; f_amount_paid := F64.of_Z 25 |}))).
Proof.
  exact (conj table2_primary_key
           (conj table2_exact_dues_A
              (conj (eq_refl : exact_ok (F64.of_Z 25))
                 (conj table2_exact_paid
                    (clear_dues_conserves table2 "A" (F64.of_Z 25)
                       table2_primary_key table2_exact_dues_A eq_refl
                       table2_exact_paid))))).
Defined.

Lemma val_5 : 0 <= val (F64.of_Z 5).
Proof. vm_compute. discriminate. Qed.

Lemma val_20 : 0 <= val (F64.of_Z 20).
Proof. vm_compute. discriminate. Qed.

Lemma val_25 : 0 <= val (F64.of_Z 25).
Proof. vm_compute. discriminate. Qed.

Lemma val_5_20 : val (F64.of_Z 25) = val (F64.of_Z 5) + val (F64.of_Z 20).
Proof. vm_compute. reflexivity. Qed.

Lemma clear_dues_instalments_witness :
  primary_key table2 /\ exact_dues table2 "A"
  /\ exact_ok (F64.of_Z 5) /\ exact_ok (F64.of_Z 20) /\ exact_ok (F64.of_Z 25)
  /\ 0 <= val (F64.of_Z 5) /\ 0 <= val (F64.of_Z 20)
  /\ val (F64.of_Z 25) = val (F64.of_Z 5) + val (F64.of_Z 20)
  /\ let settle := fun (t : table) (P : num) =>
                     db (clear_dues t (POST {| f_m_name' := "A"; f_amount_paid := P |})) in
     map due_value (settle (settle table2 (F64.of_Z 5)) (F64.of_Z 20))
     = map due_value (settle table2 (F64.of_Z 25)).
Proof.
  exact (conj table2_primary_key
           (conj table2_exact_dues_A
              (conj (eq_refl : exact_ok (F64.of_Z 5))
                 (conj (eq_refl : exact_ok (F64.of_Z 20))
                    (conj (eq_refl : exact_ok (F64.of_Z 25))
                       (conj val_5 (conj val_20 (conj val_5_20
                          (clear_dues_instalments table2 "A"
                             (F64.of_Z 5) (F64.of_Z 20) (F64.of_Z 25)
                             table2_primary_key table2_exact_dues_A
                             eq_refl eq_refl eq_refl val_5 val_20 val_5_20))))))))).
Defined.

Lemma table2_exact_A :
  forall e, In e table2 -> DairyEntry.m_name e = "A"%string ->
            exact_ok (DairyEntry.due e).
Proof.
  assert (H : forallb (fun e => F64.wholeb (DairyEntry.due e)) table2 = true)
    by (vm_compute; reflexivity).
  intros e He _. rewrite forallb_forall in H. exact (H e He).
Qed.

Lemma table2_sum_ok : sum_ok (outstanding table2 "A").
Proof. vm_compute. reflexivity. Qed.

Lemma clear_dues_then_users_with_dues_witness :
  primary_key table2
  /\ (forall e, In e table2 -> DairyEntry.m_name e = "A"%string ->
                exact_ok (DairyEntry.due e))
  /\ exact_ok (F64.of_Z 25) /\ 0 <= val (F64.of_Z 25)
  /\ sum_ok (outstanding table2 "A")
  /\ let tbl' := db (clear_dues table2
                       (POST {| f_m_name' := "A"; f_amount_paid := F64.of_Z 25 |})) in
     let left := balance table2 "A" - Z.min (val (F64.of_Z 25)) (outstanding table2 "A") in
     balance tbl' "A" = left
     /\ (forall t, In ("A"%string, t) (users_with_dues tbl') -> val t = left)
     /\ (In "A"%string (map fst (users_with_dues tbl'))
         <-> In "A"%string (map DairyEntry.m_name table2) /\ 0 < left).
Proof.
  exact (conj table2_primary_key
           (conj table2_exact_A
              (conj (eq_refl : exact_ok (F64.of_Z 25))
                 (conj val_25
                    (conj table2_sum_ok
                       (clear_dues_then_users_with_dues table2 "A" (F64.of_Z 25)
                          table2_primary_key table2_exact_A eq_refl val_25
                          table2_sum_ok)))))).
Defined.

Lemma table2_finite_A :
  forall e, In e table2 -> has_dues "A" e = true ->
            F64.finite_amount (DairyEntry.due e).
Proof.
  assert (H : forallb (fun e => valid_binary F64.prec F64.emax (DairyEntry.due e)
                                && F64.is_finite (DairyEntry.due e))
                table2 = true) by (vm_compute; reflexivity).
  intros e He _. rewrite forallb_forall in H. specialize (H e He).
  apply andb_true_iff in H. exact H.
Qed.

Lemma clear_dues_not_a_number_witness :
  primary_key table2
  /\ (F64.nan = F64.nan \/ F64.nan = F64.inf)
  /\ (forall e, In e table2 -> has_dues "A" e = true ->
                F64.finite_amount (DairyEntry.due e))
  /\ Forall2 (fun e e' =>
                if has_dues "A" e
                then e' = pay_entry e (DairyEntry.due e)
                     /\ DairyEntry.due e' = F64.pos_zero
                else e' = e)
             table2
             (db (clear_dues table2 (POST {| f_m_name' := "A"; f_amount_paid := F64.nan |}))).
Proof.
  exact (conj table2_primary_key
           (conj (or_introl eq_refl)
              (conj table2_finite_A
                 (F64Payments.clear_dues_not_a_number table2 "A" F64.nan
                    table2_primary_key (or_introl eq_refl) table2_finite_A)))).
Defined.

Lemma add_dairy_entry_zero_refused_witness :
  (SFeqb (f_paid form_unpaid) F64.pos_zero = true
   \/ SFeqb (f_price_per_unit form_unpaid) F64.pos_zero = true)
  /\ add_dairy_entry (validate_on_submit (fun _ => true) AddDairyEntryForm_validate)
                     table1 (POST form_unpaid) 2000
     = Ok {| db := table1; flashes := []; resp := RenderIndex "add_dairy_entry" None |}.
Proof.
  exact (conj (or_introl eq_refl)
           (FormFacts.add_dairy_entry_zero_refused (fun _ => true) table1 form_unpaid 2000
              (or_introl eq_refl))).
Defined.

Lemma dairy_daily_summary_zero_refused_witness :
  SFeqb (f_total_cash_income report_no_income) F64.pos_zero = true
  /\ dairy_daily_summary (validate_on_submit (fun _ => true) DairyDailyReportForm_validate)
                         table2 (POST report_no_income)
     = {| db := table2; flashes := [];
          resp := RenderIndex "dairy_daily_summary" None |}.
Proof.
  exact (conj eq_refl
           (FormFacts.dairy_daily_summary_zero_refused (fun _ => true) table2
              report_no_income eq_refl)).
Defined.

Lemma started_empty :
  forall tbl, dairy_entry (started (@None (@table binary64))) = Some tbl ->
              primary_key tbl /\ Forall from_the_form tbl.
Proof. intros tbl [=]. Qed.

Lemma run_asha_table :
  dairy_entry (fst (serve_all (validate_on_submit (fun _ => true) AddDairyEntryForm_validate)
                              (fun _ => true) (started None) run_asha))
  = Some (db (clear_dues [entry_asha] (pay "Asha" (F64.of_Z 25)))).
Proof.
  assert (Hv : validate_on_submit (fun _ => true) AddDairyEntryForm_validate form_asha
               = true) by (vm_compute; reflexivity).
  unfold run_asha. cbn [serve_all]. unfold serve at 1.
  cbn [started create_tables_if_not_exists _database_initialized dairy_entry negb
       create_all route]. unfold add_dairy_entry. rewrite Hv. reflexivity.
Qed.

Lemma serve_all_from_the_form_witness :
  (forall tbl, dairy_entry (started (@None (@table binary64))) = Some tbl ->
               primary_key tbl /\ Forall from_the_form tbl)
  /\ dairy_entry (fst (serve_all (validate_on_submit (fun _ => true)
                                    AddDairyEntryForm_validate)
                                 (fun _ => true) (started None) run_asha))
     = Some (db (clear_dues [entry_asha] (pay "Asha" (F64.of_Z 25))))
  /\ Forall from_the_form (db (clear_dues [entry_asha] (pay "Asha" (F64.of_Z 25)))).
Proof.
  exact (conj started_empty
           (conj run_asha_table
              (FormFacts.serve_all_from_the_form (fun _ => true) (fun _ => true)
                 (started None) run_asha started_empty
                 (db (clear_dues [entry_asha] (pay "Asha" (F64.of_Z 25))))
                 run_asha_table))).
Defined.

End MoreWitnesses.
